(** * Alchemy: the evaluation engine and its providers

    A shallow embedding of the resource evaluator of the repository
    ([evaluate] and [apply], with the module-level memoization [cache]),
    of the reconciliation step described by the specification, of the
    delete paths of the [fs::File], [fs::Folder] and [ai::TypeScriptFile]
    providers, and of [extractTypeScriptCode].

    The evaluator is an [async] function.  Its activations are modelled as
    tasks of a pool; one transition of the model runs the code between two
    suspension points ([await]) of one activation.  The order in which
    activations are resumed and in which provider operations complete is
    chosen by the environment (a list of [event]s), so that a statement
    proved for every event list holds for every interleaving the
    JavaScript job queue can produce. *)

From stdpp Require Import gmap strings list fin_maps.
From Stdlib Require Import ZArith.

Set Warnings "-register-all,-notation-for-abbreviation".

(* ===================================================================== *)
(** * Part I: definitions                                                 *)
(* ===================================================================== *)

(** ** JavaScript values that flow through [evaluate] *)

(** Values that are neither a resource, an [Output], an array nor a
    non-null object: [evaluate] does not look inside them.  The payload of
    a number is never inspected by the evaluator and is kept as an integer
    tag; [PFun] stands for a function object ([typeof] is ["function"]). *)
Inductive prim :=
| PUndefined
| PNull
| PBool (b : bool)
| PNum (n : Z)
| PStr (s : string)
| PFun (k : nat).

(** The dispatch of [evaluate] is on [isResource], [instanceof Output],
    [Array.isArray] and [typeof output === "object"], in that order; the
    constructor of a [jsval] records which test succeeds first.  A resource
    is referred to by its object identity [h] (the key of the [WeakMap]);
    the [fn] of an [Output] is referred to by an index into a table of
    functions. *)
Inductive jsval :=
| Prim (p : prim)
| Res (h : nat)
| Out (parent : jsval) (fn : nat)
| Arr (items : list jsval)
| Obj (entries : list (string * jsval)).

(** What a resource object carries: [resource[ResourceID]] and
    [resource[Input]]. *)
Record Resource := { ResourceID : string; Input : list jsval }.

(** The completion of a synchronous call ([inside.fn]) or of a provider
    operation: a returned value or a thrown one. *)
Inductive completion :=
| Normal (v : jsval)
| Throw (e : jsval).

(** [class Evaluated<T>]: a value and the ids it depends on. *)
Record Evaluated := { value : jsval; deps : list string }.

(** The state of a settled promise of type [Promise<Evaluated<T>>]. *)
Inductive settlement :=
| Fulfilled (e : Evaluated)
| Rejected (reason : jsval).

(** Where an activation of [evaluate] is suspended (the lines are those
    of the source file of [evaluate]). *)
Inductive frame :=
| Start
    (* called, body not yet run *)
| ResInputs (h : nat) (cs : list nat)
    (* line 55: await Promise.all(resource[Input].map(evaluate)) *)
| ResCached (h : nat) (q : nat)
    (* line 58: return await cache.get(resource)! *)
| ResUpdate (h : nat) (ds : list string) (q : nat)
    (* line 72: await resource[Provider].update(resource, deps, inputs) *)
| OutParent (f : nat) (c : nat)
    (* line 87: const parent = await evaluate(inside.parent) *)
| OutRet (pdeps : list string) (c : nat)
    (* line 90: const evaluated = await evaluate(ret) *)
| ArrItems (cs : list nat)
    (* line 96: await Promise.all(output.map((item) => evaluate(item))) *)
| ObjEntries (kcs : list (string * nat))
    (* line 105: await Promise.all(entries.map(async ([key, value]) => ...)) *)
| Settled (o : settlement).
    (* the promise returned by this activation is settled *)

(** One activation of [evaluate]: its argument and where it stands. *)
Record task := Task { arg : jsval; at_ : frame }.

(** The state of the module between two transitions.
    - [tasks]: every activation of [evaluate], in call order; the index of
      an activation also names the promise it returned;
    - [promises]: the promises made by [new Promise(...)] in the resource
      branch, [None] while pending;
    - [cache]: the module-level [WeakMap<Resource, Promise<...>>];
    - [calls]: the invocations of [resource[Provider].update], in order,
      each with the resource, the [deps] set and the [inputs] passed. *)
Record state := State {
  tasks : list task;
  promises : list (option settlement);
  cache : gmap nat nat;
  calls : list (nat * list string * list jsval)
}.

(** What the environment can do next. *)
Inductive event :=
| Call (v : jsval)
    (* a caller outside the evaluator calls evaluate(v) (or apply(v)) *)
| Resume (t : nat)
    (* activation t continues after the await it is suspended at *)
| RejectAll (t : nat) (k : nat)
    (* the Promise.all awaited by t rejects with the reason of element k *)
| Finish (t : nat) (r : completion).
    (* the provider operation awaited by t completes with r *)

(** [new Set(l)]: the elements of [l] without repetition, in the order of
    their first occurrence. *)
Definition Set_from (l : list string) : list string :=
  foldl (λ acc x, if bool_decide (x ∈ acc) then acc else acc ++ [x]) [] l.

(** The settlement of the promise returned by activation [c], if any. *)
Definition result_of (σ : state) (c : nat) : option settlement :=
  match tasks σ !! c with
  | Some (Task _ (Settled o)) => Some o
  | _ => None
  end.

Definition fulfilled (σ : state) (c : nat) : option Evaluated :=
  match result_of σ c with
  | Some (Fulfilled e) => Some e
  | _ => None
  end.

(** The value of [await Promise.all(cs)] when every element is fulfilled. *)
Definition all_fulfilled (σ : state) (cs : list nat) : option (list Evaluated) :=
  mapM (fulfilled σ) cs.

(** Calling [evaluate] on each of [vs]: new activations, in order. *)
Definition spawn (vs : list jsval) (σ : state) : list nat * state :=
  (seq (length (tasks σ)) (length vs),
   State (tasks σ ++ ((λ v, Task v Start) <$> vs))
         (promises σ) (cache σ) (calls σ)).

(** Activation [t], called on [a], moves to [fr]. *)
Definition goto (t : nat) (a : jsval) (fr : frame) (σ : state) : state :=
  State (<[t := Task a fr]> (tasks σ)) (promises σ) (cache σ) (calls σ).

(** The promises a frame awaits through [Promise.all]. *)
Definition awaited_all (fr : frame) : option (list nat) :=
  match fr with
  | ResInputs _ cs => Some cs
  | ArrItems cs => Some cs
  | ObjEntries kcs => Some (kcs.*2)
  | _ => None
  end.

Section Evaluator.

(** The resource objects of the program, by identity, and the functions
    of its [Output]s. *)
Variable heap : nat → Resource.
Variable fns : nat → jsval → completion.

(** The body of [evaluate] from [Start] to its first [await]. *)
Definition enter (t : nat) (a : jsval) (σ : state) : state :=
  match a with
  | Res h =>
      let '(cs, σ1) := spawn (Input (heap h)) σ in
      goto t a (ResInputs h cs) σ1
  | Out p f =>
      let '(cs, σ1) := spawn [p] σ in
      goto t a (OutParent f (length (tasks σ))) σ1
  | Arr items =>
      let '(cs, σ1) := spawn items σ in
      goto t a (ArrItems cs) σ1
  | Obj entries =>
      let '(cs, σ1) := spawn (entries.*2) σ in
      goto t a (ObjEntries (zip (entries.*1) cs)) σ1
  | Prim _ =>
      goto t a (Settled (Fulfilled (Build_Evaluated a []))) σ
  end.

(** The resource branch once the inputs are evaluated (lines 57 to 72):
    the cache test, and on a miss the new promise, [cache.set], the
    [deps] set, the [inputs] and the call of the provider, all before the
    next suspension. *)
Definition lookup_or_update (t : nat) (a : jsval) (h : nat)
    (evs : list Evaluated) (σ : state) : state :=
  match cache σ !! h with
  | Some q => goto t a (ResCached h q) σ
  | None =>
      let q := length (promises σ) in
      let ds := Set_from (flat_map deps evs) in
      goto t a (ResUpdate h ds q)
        (State (tasks σ) (promises σ ++ [None]) (<[h := q]> (cache σ))
               (calls σ ++ [(h, ds, value <$> evs)]))
  end.

(** The body of [evaluate], for the activation [t] called on [a]: from
    the suspension point [fr] to the next one, or to the return. *)
Definition evaluate (t : nat) (a : jsval) (fr : frame) (σ : state)
    : option state :=
  match fr with
  | Start => Some (enter t a σ)
  | ResInputs h cs =>
      evs ← all_fulfilled σ cs;
      Some (lookup_or_update t a h evs σ)
  | ResCached h q =>
      match promises σ !! q with
      | Some (Some o) => Some (goto t a (Settled o) σ)
      | _ => None
      end
  | ResUpdate _ _ _ => None
  | OutParent f c =>
      o ← result_of σ c;
      match o with
      | Rejected e => Some (goto t a (Settled (Rejected e)) σ)
      | Fulfilled pe =>
          match fns f (value pe) with
          | Throw e => Some (goto t a (Settled (Rejected e)) σ)
          | Normal ret =>
              Some (goto t a (OutRet (deps pe) (length (tasks σ)))
                      (spawn [ret] σ).2)
          end
      end
  | OutRet pdeps c =>
      o ← result_of σ c;
      match o with
      | Rejected e => Some (goto t a (Settled (Rejected e)) σ)
      | Fulfilled ev =>
          Some (goto t a
                  (Settled (Fulfilled
                     (Build_Evaluated (value ev) (pdeps ++ deps ev)))) σ)
      end
  | ArrItems cs =>
      evs ← all_fulfilled σ cs;
      Some (goto t a
              (Settled (Fulfilled
                 (Build_Evaluated (Arr (value <$> evs))
                                  (flat_map deps evs)))) σ)
  | ObjEntries kcs =>
      evs ← all_fulfilled σ (kcs.*2);
      Some (goto t a
              (Settled (Fulfilled
                 (Build_Evaluated (Obj (zip (kcs.*1) (value <$> evs)))
                                  (flat_map deps evs)))) σ)
  | Settled _ => None
  end.

(** The settlement made by [resolve!(new Evaluated(result,
    [resourceID, ...deps]))] or by [reject!(error)]. *)
Definition settle_update (h : nat) (ds : list string) (r : completion)
    : settlement :=
  match r with
  | Normal v => Fulfilled (Build_Evaluated v (ResourceID (heap h) :: ds))
  | Throw e => Rejected e
  end.

(** One transition; [None] when the event is not enabled. *)
Definition step (ev : event) (σ : state) : option state :=
  match ev with
  | Call v => Some (spawn [v] σ).2
  | Resume t =>
      tk ← tasks σ !! t;
      evaluate t (arg tk) (at_ tk) σ
  | RejectAll t k =>
      tk ← tasks σ !! t;
      cs ← awaited_all (at_ tk);
      c ← cs !! k;
      o ← result_of σ c;
      match o with
      | Rejected e => Some (goto t (arg tk) (Settled (Rejected e)) σ)
      | Fulfilled _ => None
      end
  | Finish t r =>
      tk ← tasks σ !! t;
      match at_ tk with
      | ResUpdate h ds q =>
          let o := settle_update h ds r in
          Some (goto t (arg tk) (Settled o)
                  (State (tasks σ) (<[q := Some o]> (promises σ))
                         (cache σ) (calls σ)))
      | _ => None
      end
  end.

Fixpoint run (evs : list event) (σ : state) : option state :=
  match evs with
  | [] => Some σ
  | ev :: evs' => σ' ← step ev σ; run evs' σ'
  end.

End Evaluator.

(** The module as loaded: no activation, an empty [cache]. *)
Definition init : state := State [] [] ∅ [].

(** [apply(output)]: [(await evaluate(output)).value], for the activation
    [t] of [evaluate] that [apply] awaits. *)
Definition apply (σ : state) (t : nat) : option jsval :=
  value <$> fulfilled σ t.

(** The resources whose provider operation was invoked, in order. *)
Definition invoked (σ : state) : list nat := (λ c, c.1.1) <$> calls σ.

(** How many times the provider operation of resource [h] was invoked. *)
Definition invocations (σ : state) (h : nat) : nat :=
  length (filter (λ x, x = h) (invoked σ)).

(** The tests of the dispatch of [evaluate], in the order of the source. *)
Definition isResource (v : jsval) : bool :=
  match v with Res _ => true | _ => false end.

Definition instanceof_Output (v : jsval) : bool :=
  match v with Out _ _ => true | _ => false end.

Definition Array_isArray (v : jsval) : bool :=
  match v with Arr _ => true | _ => false end.

(** [output && typeof output === "object"], for a value that is neither a
    resource, an [Output] nor an array. *)
Definition is_object (v : jsval) : bool :=
  match v with Obj _ => true | _ => false end.

(** ** What a settled activation stands for

    [eval σ v o]: against the cache and the promises of [σ], evaluating
    [v] settles as [o].  The rules follow the five branches of [evaluate];
    a resource is read through the entry of the cache, whichever
    activation made it.  [evals] is the fulfilled [Promise.all] of a list
    of evaluations. *)
Section Meaning.

Variable heap : nat → Resource.
Variable fns : nat → jsval → completion.

Inductive eval (σ : state) : jsval → settlement → Prop :=
| eval_prim p :
    eval σ (Prim p) (Fulfilled (Build_Evaluated (Prim p) []))
| eval_res h evs q o :
    evals σ (Input (heap h)) evs →
    cache σ !! h = Some q →
    promises σ !! q = Some (Some o) →
    eval σ (Res h) o
| eval_res_rejected h v e :
    v ∈ Input (heap h) →
    eval σ v (Rejected e) →
    eval σ (Res h) (Rejected e)
| eval_out p f pe ret ev :
    eval σ p (Fulfilled pe) →
    fns f (value pe) = Normal ret →
    eval σ ret (Fulfilled ev) →
    eval σ (Out p f)
      (Fulfilled (Build_Evaluated (value ev) (deps pe ++ deps ev)))
| eval_out_parent p f e :
    eval σ p (Rejected e) →
    eval σ (Out p f) (Rejected e)
| eval_out_throw p f pe e :
    eval σ p (Fulfilled pe) →
    fns f (value pe) = Throw e →
    eval σ (Out p f) (Rejected e)
| eval_out_ret p f pe ret e :
    eval σ p (Fulfilled pe) →
    fns f (value pe) = Normal ret →
    eval σ ret (Rejected e) →
    eval σ (Out p f) (Rejected e)
| eval_arr items evs :
    evals σ items evs →
    eval σ (Arr items)
      (Fulfilled (Build_Evaluated (Arr (value <$> evs))
                                  (flat_map deps evs)))
| eval_arr_rejected items v e :
    v ∈ items →
    eval σ v (Rejected e) →
    eval σ (Arr items) (Rejected e)
| eval_obj entries evs :
    evals σ (entries.*2) evs →
    eval σ (Obj entries)
      (Fulfilled (Build_Evaluated (Obj (zip (entries.*1) (value <$> evs)))
                                  (flat_map deps evs)))
| eval_obj_rejected entries v e :
    v ∈ entries.*2 →
    eval σ v (Rejected e) →
    eval σ (Obj entries) (Rejected e)
with evals (σ : state) : list jsval → list Evaluated → Prop :=
| evals_nil : evals σ [] []
| evals_cons v vs ev evs :
    eval σ v (Fulfilled ev) →
    evals σ vs evs →
    evals σ (v :: vs) (ev :: evs).

(** [σ'] is a later state than [σ]: activations keep their argument,
    settled activations and settled promises stay as they are, the cache
    and the log of provider calls only grow. *)
Definition extends (σ σ' : state) : Prop :=
  (∀ c v fr, tasks σ !! c = Some (Task v fr) →
             ∃ fr', tasks σ' !! c = Some (Task v fr')) ∧
  (∀ c v o, tasks σ !! c = Some (Task v (Settled o)) →
            tasks σ' !! c = Some (Task v (Settled o))) ∧
  cache σ ⊆ cache σ' ∧
  (∀ q o, promises σ !! q = Some (Some o) →
          promises σ' !! q = Some (Some o)) ∧
  calls σ `prefix_of` calls σ'.

(** The activations [cs] were called by [t] on the values [vs], in
    order. *)
Definition children (σ : state) (t : nat) (cs : list nat)
    (vs : list jsval) : Prop :=
  Forall2 (λ c v, t < c ∧ ∃ fr, tasks σ !! c = Some (Task v fr)) cs vs.

(** What holds of an activation called on [a] and standing at [fr]. *)
Definition frame_ok (σ : state) (t : nat) (a : jsval) (fr : frame) : Prop :=
  match fr with
  | Start => True
  | ResInputs h cs => a = Res h ∧ children σ t cs (Input (heap h))
  | ResCached h q =>
      a = Res h ∧ cache σ !! h = Some q ∧
      ∃ evs, evals σ (Input (heap h)) evs
  | ResUpdate h ds q =>
      a = Res h ∧ cache σ !! h = Some q ∧
      ∃ evs, evals σ (Input (heap h)) evs ∧
             ds = Set_from (flat_map deps evs)
  | OutParent f c => ∃ p, a = Out p f ∧ children σ t [c] [p]
  | OutRet pdeps c =>
      ∃ p f pe ret,
        a = Out p f ∧ eval σ p (Fulfilled pe) ∧ pdeps = deps pe ∧
        fns f (value pe) = Normal ret ∧ children σ t [c] [ret]
  | ArrItems cs => ∃ items, a = Arr items ∧ children σ t cs items
  | ObjEntries kcs =>
      ∃ entries, a = Obj entries ∧ kcs.*1 = entries.*1 ∧
                 children σ t (kcs.*2) (entries.*2)
  | Settled o => eval σ a o
  end.

(** The invariant of the evaluator. *)
Record Inv (σ : state) : Prop := {
  inv_frames : ∀ t a fr,
    tasks σ !! t = Some (Task a fr) → frame_ok σ t a fr;
  inv_cache_bound : ∀ h q,
    cache σ !! h = Some q → q < length (promises σ);
  inv_cache_inj : ∀ h1 h2 q,
    cache σ !! h1 = Some q → cache σ !! h2 = Some q → h1 = h2;
  inv_pending : ∀ q,
    promises σ !! q = Some None →
    ∃ t h ds, tasks σ !! t = Some (Task (Res h) (ResUpdate h ds q));
  inv_updating : ∀ t a h ds q,
    tasks σ !! t = Some (Task a (ResUpdate h ds q)) →
    promises σ !! q = Some None;
  inv_update_unique : ∀ t1 t2 a1 a2 h1 h2 ds1 ds2 q,
    tasks σ !! t1 = Some (Task a1 (ResUpdate h1 ds1 q)) →
    tasks σ !! t2 = Some (Task a2 (ResUpdate h2 ds2 q)) →
    t1 = t2;
  inv_promise : ∀ h q o,
    cache σ !! h = Some q →
    promises σ !! q = Some (Some o) →
    ∃ evs r, evals σ (Input (heap h)) evs ∧
             o = settle_update heap h (Set_from (flat_map deps evs)) r;
  inv_invoked_nodup : NoDup (invoked σ);
  inv_invoked_cache : ∀ h, h ∈ invoked σ ↔ is_Some (cache σ !! h);
  inv_call_args : ∀ h ds ins,
    (h, ds, ins) ∈ calls σ →
    ∃ evs, evals σ (Input (heap h)) evs ∧
           ds = Set_from (flat_map deps evs) ∧ ins = value <$> evs
}.

(** Where the frame of an activation comes from, in terms of the
    activations it called: the input activations of a resource were all
    fulfilled before the cache was looked at, the activation on the
    returned value of an [Output] was called after the activation on its
    parent was fulfilled, and a fulfilled activation holds what its
    children returned. *)
Definition origin_ok (σ : state) (t : nat) (a : jsval) (fr : frame) : Prop :=
  match fr with
  | ResCached h q =>
      ∃ cs evs, children σ t cs (Input (heap h)) ∧
                all_fulfilled σ cs = Some evs
  | ResUpdate h ds q =>
      ∃ cs evs, children σ t cs (Input (heap h)) ∧
                all_fulfilled σ cs = Some evs ∧
                ds = Set_from (flat_map deps evs)
  | OutRet pdeps c =>
      ∃ p f c0 pe ret,
        a = Out p f ∧ children σ t [c0] [p] ∧ c0 < c ∧
        result_of σ c0 = Some (Fulfilled pe) ∧ pdeps = deps pe ∧
        fns f (value pe) = Normal ret ∧ children σ t [c] [ret]
  | Settled (Fulfilled ev) =>
      match a with
      | Prim _ => True
      | Res h =>
          ∃ cs evs, children σ t cs (Input (heap h)) ∧
                    all_fulfilled σ cs = Some evs
      | Out p f =>
          ∃ c0 pe ret c rev,
            children σ t [c0] [p] ∧ c0 < c ∧
            result_of σ c0 = Some (Fulfilled pe) ∧
            fns f (value pe) = Normal ret ∧
            children σ t [c] [ret] ∧
            result_of σ c = Some (Fulfilled rev) ∧
            ev = Build_Evaluated (value rev) (deps pe ++ deps rev)
      | Arr items =>
          ∃ cs evs, children σ t cs items ∧
                    all_fulfilled σ cs = Some evs ∧
                    ev = Build_Evaluated (Arr (value <$> evs))
                                         (flat_map deps evs)
      | Obj entries =>
          ∃ cs evs, children σ t cs (entries.*2) ∧
                    all_fulfilled σ cs = Some evs ∧
                    ev = Build_Evaluated
                           (Obj (zip (entries.*1) (value <$> evs)))
                           (flat_map deps evs)
      end
  | _ => True
  end.

Definition Traced (σ : state) : Prop :=
  ∀ t a fr, tasks σ !! t = Some (Task a fr) → origin_ok σ t a fr.

(** The states the module can be in. *)
Definition reachable (σ : state) : Prop :=
  ∃ evs, run heap fns evs init = Some σ.

End Meaning.

Scheme eval_mut := Minimality for eval Sort Prop
  with evals_mut := Minimality for evals Sort Prop.
Combined Scheme eval_evals_ind from eval_mut, evals_mut.

(** ** [extractTypeScriptCode] *)

(** A JavaScript string is a sequence of UTF-16 code units. *)
Definition of_ascii (s : string) : list N :=
  Ascii.N_of_ascii <$> String.list_ascii_of_string s.

(** The characters matched by [\s], which are also those removed by
    [String.prototype.trim]: white space and line terminators. *)
Definition is_space (c : N) : bool :=
  ((9 <=? c) && (c <=? 13) || (c =? 32) || (c =? 160) || (c =? 5760)
   || (8192 <=? c) && (c <=? 8202) || (c =? 8232) || (c =? 8233)
   || (c =? 8239) || (c =? 8287) || (c =? 12288) || (c =? 65279))%N.

(** [[\s\S]]: any code unit. *)
Definition any_char (c : N) : bool := is_space c || negb (is_space c).

(** The fragment of regular expressions the source uses. *)
Inductive regex :=
| Chars (cs : list N)
    (* a sequence of literal characters *)
| Star (greedy : bool) (cls : N → bool)
    (* cls* when greedy, cls*? otherwise *)
| Group (r : regex)
    (* ( r ), a capturing group *)
| Seq (r1 r2 : regex).

(** [s] without the prefix [cs], when it has it. *)
Fixpoint strip (cs s : list N) : option (list N) :=
  match cs, s with
  | [], _ => Some s
  | c :: cs', d :: s' => if (c =? d)%N then strip cs' s' else None
  | _ :: _, [] => None
  end.

(** Backtracking matchers in the style of the language definition: a
    matcher takes the rest of the input and a continuation, and fails
    when no way of matching lets the continuation succeed.  A greedy star
    tries the longest repetition first, a lazy star the shortest. *)
Fixpoint star {R} (greedy : bool) (cls : N → bool) (s : list N)
    (k : list N → option R) : option R :=
  match s with
  | c :: s' =>
      if cls c then
        if greedy then
          match star greedy cls s' k with
          | Some r => Some r
          | None => k s
          end
        else
          match k s with
          | Some r => Some r
          | None => star greedy cls s' k
          end
      else k s
  | [] => k s
  end.

Fixpoint rmatch {R} (r : regex) (s : list N) (caps : list (list N))
    (k : list N → list (list N) → option R) : option R :=
  match r with
  | Chars cs =>
      match strip cs s with
      | Some s' => k s' caps
      | None => None
      end
  | Star g cls => star g cls s (λ s', k s' caps)
  | Group r1 =>
      rmatch r1 s caps
        (λ s' caps', k s' (caps' ++ [take (length s - length s') s]))
  | Seq r1 r2 => rmatch r1 s caps (λ s' caps', rmatch r2 s' caps' k)
  end.

(** One attempt to match [r] at the start of [s]: the match array (the
    matched text, then the captures) and the input after the match. *)
Definition exec (r : regex) (s : list N)
    : option (list (list N) * list N) :=
  rmatch r s []
    (λ s' caps, Some (take (length s - length s') s :: caps, s')).

(** The matches of a global regular expression, from left to right:
    [s] is the text from the current index, [skip] the number of
    characters of it that belong to the previous match.  After an empty
    match the index advances by one. *)
Fixpoint matchAll_from (r : regex) (s : list N) (skip : nat)
    : list (list (list N)) :=
  match skip with
  | S n =>
      match s with
      | [] => []
      | _ :: s' => matchAll_from r s' n
      end
  | 0 =>
      match exec r s with
      | Some (m, rest) =>
          m :: match s with
               | [] => []
               | _ :: s' =>
                   matchAll_from r s' (pred (length s - length rest))
               end
      | None =>
          match s with
          | [] => []
          | _ :: s' => matchAll_from r s' 0
          end
      end
  end.

(** [Array.from(text.matchAll(r))]. *)
Definition matchAll (r : regex) (text : list N) : list (list (list N)) :=
  matchAll_from r text 0.

Fixpoint trimStart (s : list N) : list N :=
  match s with
  | c :: s' => if is_space c then trimStart s' else s
  | [] => []
  end.

Definition trimEnd (s : list N) : list N := reverse (trimStart (reverse s)).

(** [String.prototype.trim]. *)
Definition trim (s : list N) : list N := trimEnd (trimStart s).

(** The literal of the source, with its three backquotes, [ts], [\s*],
    the capturing group around the lazy [[\s\S]*?] and the closing three
    backquotes. *)
Definition tsCodeRegex : regex :=
  Seq (Chars (of_ascii "```ts"))
    (Seq (Star true is_space)
       (Seq (Group (Star false any_char))
          (Chars (of_ascii "```")))).

(** The object [extractTypeScriptCode] returns. *)
Record extracted := { code : list N; error : option string }.

Definition extractTypeScriptCode (text : list N) : extracted :=
  let matches := matchAll tsCodeRegex text in
  if length matches =? 0 then
    {| code := [];
       error := Some "No TypeScript code block found in the response. Please include your code within ```ts fences." |}
  else if 1 <? length matches then
    {| code := [];
       error := Some "Multiple TypeScript code blocks found in the response. Please provide exactly one code block within ```ts fences." |}
  else
    {| code := trim (default [] (matches !! 0 ≫= (.!! 1)));
       error := None |}.

(** The fenced blocks of a text, read without the regular expression:
    a block opens with three backquotes followed by [ts], its content
    starts after the white space that follows and ends before the next
    three backquotes; the search for the next block starts after the
    closing backquotes of the previous one. *)
Definition fence : list N := of_ascii "```".

(** The text before the first three backquotes of [s], and the text
    after them. *)
Fixpoint until_fence (s : list N) : option (list N * list N) :=
  match strip fence s with
  | Some rest => Some ([], rest)
  | None =>
      match s with
      | [] => None
      | c :: s' =>
          match until_fence s' with
          | Some (body, rest) => Some (c :: body, rest)
          | None => None
          end
      end
  end.

(** The block that opens at the start of [s]: its content and the text
    after its closing backquotes. *)
Definition block_at (s : list N) : option (list N * list N) :=
  s0 ← strip (fence ++ of_ascii "ts") s;
  until_fence (trimStart s0).

Fixpoint ts_blocks_from (s : list N) (skip : nat) : list (list N) :=
  match skip with
  | S n =>
      match s with
      | [] => []
      | _ :: s' => ts_blocks_from s' n
      end
  | 0 =>
      match block_at s with
      | Some (body, rest) =>
          body :: match s with
                  | [] => []
                  | _ :: s' =>
                      ts_blocks_from s' (pred (length s - length rest))
                  end
      | None =>
          match s with
          | [] => []
          | _ :: s' => ts_blocks_from s' 0
          end
      end
  end.

(** The contents of the fenced blocks of [text], from left to right. *)
Definition ts_blocks (text : list N) : list (list N) :=
  ts_blocks_from text 0.

(** Modelled from the spec: the blocks the documentation of
    [extractTypeScriptCode] speaks of, "TypeScript code from between
    [```ts] fences".  A fence tagged [ts] is three backquotes, the tag
    [ts] and white space, which ends the tag; the content of the block is
    all that stands between the tag and the next three backquotes.  A
    fence with a longer tag ([```tsx]) opens no such block. *)
Definition fenced_block_at (s : list N) : option (list N * list N) :=
  s0 ← strip (fence ++ of_ascii "ts") s;
  match s0 with
  | c :: _ => if is_space c then until_fence s0 else None
  | [] => None
  end.

Fixpoint ts_fenced_blocks_from (s : list N) (skip : nat) : list (list N) :=
  match skip with
  | S n =>
      match s with
      | [] => []
      | _ :: s' => ts_fenced_blocks_from s' n
      end
  | 0 =>
      match fenced_block_at s with
      | Some (body, rest) =>
          body :: match s with
                  | [] => []
                  | _ :: s' =>
                      ts_fenced_blocks_from s' (pred (length s - length rest))
                  end
      | None =>
          match s with
          | [] => []
          | _ :: s' => ts_fenced_blocks_from s' 0
          end
      end
  end.

Definition ts_fenced_blocks (text : list N) : list (list N) :=
  ts_fenced_blocks_from text 0.

(** Every [```ts] of the text is followed by white space (or ends the
    text): no fence carries a longer tag that starts with [ts]. *)
Fixpoint well_tagged (s : list N) : bool :=
  match s with
  | [] => true
  | c :: s' =>
      match strip (fence ++ of_ascii "ts") (c :: s') with
      | Some (d :: _) => is_space d
      | _ => true
      end && well_tagged s'
  end.

(** Modelled from the spec: what is expected of [extractTypeScriptCode]
    on [text], in terms of the blocks fenced with the tag [ts]: an error
    and no code exactly when their number is not one, else the content of
    the block without the white space around it, and no error. *)
Definition extracts_the_ts_block (text : list N) : Prop :=
  (is_Some (error (extractTypeScriptCode text))
   ↔ length (ts_fenced_blocks text) = 0 ∨ 1 < length (ts_fenced_blocks text)) ∧
  (is_Some (error (extractTypeScriptCode text)) →
   code (extractTypeScriptCode text) = []) ∧
  (∀ content, ts_fenced_blocks text = [content] →
     extractTypeScriptCode text = {| code := trim content; error := None |}).

(** [s] neither starts nor ends with white space. *)
Definition no_space_around (s : list N) : Prop :=
  (∀ c, head s = Some c → is_space c = false) ∧
  (∀ c, last s = Some c → is_space c = false).

Definition line_feed : N := 10.

(** An answer whose only fence is tagged [tsx]. *)
Definition tsx_answer : list N :=
  of_ascii "Here is the component:" ++ [line_feed] ++
  of_ascii "```tsx" ++ [line_feed] ++
  of_ascii "export const App = () => <div />;" ++ [line_feed] ++
  of_ascii "```" ++ [line_feed].

(** An answer with a [ts] block followed by a [tsx] block. *)
Definition ts_and_tsx_answer : list N :=
  of_ascii "```ts" ++ [line_feed] ++
  of_ascii "export const n = 1;" ++ [line_feed] ++
  of_ascii "```" ++ [line_feed] ++
  of_ascii "used as" ++ [line_feed] ++
  of_ascii "```tsx" ++ [line_feed] ++
  of_ascii "<p>{n}</p>" ++ [line_feed] ++
  of_ascii "```" ++ [line_feed].

(** An answer with one [ts] block whose content is surrounded by blank
    lines and indentation. *)
Definition padded_answer : list N :=
  of_ascii "Sure." ++ [line_feed] ++
  of_ascii "```ts" ++ [line_feed; line_feed] ++
  of_ascii "  const x = 1;  " ++ [line_feed; 9%N; line_feed] ++
  of_ascii "```" ++ [line_feed] ++
  of_ascii "Done.".

(** ** Reconciliation *)

(** Modelled from the spec: [finalize], the state store and the persisted
    state record are not among the sources (the README only calls
    [app.finalize()], "triggering deletion of orphaned resources").  The
    definitions below follow sections 3, 4.4 and 6 of the specification:
    the store maps the ids of a scope to records, [list] gives the
    recorded ids, the touched ids are the union of the dependency sets of
    the top-level evaluations of the pass, the orphans are the recorded ids
    that are not touched, and each orphan is deleted through its provider,
    a failed deletion being reported without stopping the others.  The
    order of deletion, which the specification leaves open apart from
    dependencies, is the order of the listing. *)
Inductive status := created | updated | deleted | failed.

(** Modelled from the spec: the persisted state record of section 3. *)
Record StateRecord := {
  record_type : string;
  record_props : jsval;
  record_output : jsval;
  record_deps : list string;
  record_status : status
}.

(** Modelled from the spec: [list(scopePath)] of the state store
    contract (section 6), the ids recorded for the scope. *)
Definition priorRecordIds (store : gmap string StateRecord) : list string :=
  (map_to_list store).*1.

(** Modelled from the spec: "the union of dependency sets collected from
    every top-level evaluation performed in this pass" (section 4.4). *)
Definition touchedIds (results : list Evaluated) : list string :=
  flat_map deps results.

(** Modelled from the spec:
    [orphans = priorRecordIds(scope) - touchedIds(scope)] (section 4.4). *)
Definition orphans (store : gmap string StateRecord)
    (results : list Evaluated) : list string :=
  filter (λ id, id ∉ touchedIds results) (priorRecordIds store).

(** Modelled from the spec: what [finalize] did, namely the ids whose
    provider was invoked with phase [delete], the store afterwards, and
    the orphans that could not be deleted (section 4.4). *)
Record Finalized := {
  delete_calls : list string;
  store_after : gmap string StateRecord;
  not_deleted : list string
}.

(** Modelled from the spec: [finalize] (section 4.4), which is not among
    the sources.  [destroy id] tells whether the provider operation of
    [id] succeeds in phase [delete]. *)
Definition finalize (destroy : string → bool)
    (store : gmap string StateRecord) (results : list Evaluated)
    : Finalized :=
  let os := orphans store results in
  {| delete_calls := os;
     store_after :=
       foldr (λ id st, if destroy id then base.delete id st else st) store os;
     not_deleted := filter (λ id, destroy id = false) os |}.

(** ** The file providers *)

(** Modelled from the spec: the [Context] a provider runs in ([this]) is
    declared in [../context] and [../resource], which are not among the
    sources.  Section 4.3 of the specification gives the three phases a
    provider reads through it. *)
Inductive phase := phase_create | phase_update | phase_delete.

(** A call into [node:fs] returns or throws a system error, of which the
    providers read the [code]. *)
Inductive fs_outcome :=
| FsOk
| FsError (code : string).

(** The world outside the repository, as the providers see it: the
    outcome of each call into [node:fs] and [path.dirname]. *)
Record fs := {
  fs_unlink : string → fs_outcome;
  fs_rmdir : string → fs_outcome;
  fs_mkdir : string → fs_outcome;   (* with { recursive: true } *)
  fs_writeFile : string → string → fs_outcome;
  path_dirname : string → string
}.

(** Modelled from the spec: [this(...)] and [this.destroy()] belong to
    the same missing [Context].  By section 4.3 a resource forced with
    phase [delete] is, on success, removed and terminal.  A provider
    operation ends with [return this({...})], with
    [return this.destroy()], or with an error that propagates. *)
Inductive provided (A : Type) :=
| Returned (out : A)
| Destroyed
| Thrown (code : string).
Arguments Returned {A} out.
Arguments Destroyed {A}.
Arguments Thrown {A} code.

(** Modelled from the spec: [ignore] (imported from [../util/ignore]) is
    not among the sources.  Section 7 of the specification has providers
    "catch specific, named error conditions and treat them as success";
    the call sites pass the code, or the array of codes, to swallow and
    the operation to run: an error whose code is listed is swallowed, any
    other is thrown again. *)
Definition ignore (codes : list string) (r : fs_outcome) : fs_outcome :=
  match r with
  | FsOk => FsOk
  | FsError c => if bool_decide (c ∈ codes) then FsOk else FsError c
  end.

(** [fs::File]. *)
Record FileProps := { file_path : string; file_content : string }.

Definition File (env : fs) (ph : phase) (id : string)
    (props : option FileProps) : provided FileProps :=
  let filePath := default id (file_path <$> props) in
  match ph with
  | phase_delete =>
      match ignore ["ENOENT"] (fs_unlink env filePath) with
      | FsError c => Thrown c
      | FsOk => Destroyed
      end
  | _ =>
      match fs_mkdir env (path_dirname env filePath) with
      | FsError c => Thrown c
      | FsOk =>
          match props with
          | None => Thrown "TypeError"
          | Some pr =>
              match fs_writeFile env filePath (file_content pr) with
              | FsError c => Thrown c
              | FsOk =>
                  Returned {| file_path := filePath;
                              file_content := file_content pr |}
              end
          end
      end
  end.

(** [fs::Folder]. *)
Record FolderProps := {
  folder_path : option string;
  folder_delete : option bool
}.

Definition Folder (env : fs) (ph : phase) (id : string)
    (props : option FolderProps) : provided string :=
  let dirPath := default id (props ≫= folder_path) in
  match ph with
  | phase_delete =>
      if bool_decide (props ≫= folder_delete ≠ Some false) then
        match ignore ["ENOENT"; "ENOTEMPTY"] (fs_rmdir env dirPath) with
        | FsError c => Thrown c
        | FsOk => Destroyed
        end
      else Destroyed
  | _ =>
      match ignore ["EEXIST"] (fs_mkdir env dirPath) with
      | FsError c => Thrown c
      | FsOk => Returned dirPath
      end
  end.

(** [ai::TypeScriptFile]: the directory is made first, in every phase;
    then the delete phase unlinks the file and lets only [ENOENT] pass.
    [generate] stands for the rest of the operation (the calls to the
    model, the formatting and the writing of the file), which the delete
    phase does not reach. *)
Definition TypeScriptFile {A} (env : fs) (ph : phase) (id : string)
    (props_path : string) (generate : provided A) : provided A :=
  match fs_mkdir env (path_dirname env props_path) with
  | FsError c => Thrown c
  | FsOk =>
      match ph with
      | phase_delete =>
          match fs_unlink env props_path with
          | FsError c =>
              if bool_decide (c ≠ "ENOENT") then Thrown c else Destroyed
          | FsOk => Destroyed
          end
      | _ => generate
      end
  end.

(** ** A program to run the model on *)

(** Three resources: [A] without input, [B] whose inputs are [A] and an
    [Output] derived from [A], and [C] without input.  The function [0]
    wraps the value of its parent in an array; any other throws. *)
Definition demo_heap (h : nat) : Resource :=
  match h with
  | 0 => {| ResourceID := "A"; Input := [] |}
  | 1 => {| ResourceID := "B"; Input := [Res 0; Out (Res 0) 0] |}
  | _ => {| ResourceID := "C"; Input := [] |}
  end.

Definition demo_fns (f : nat) (v : jsval) : completion :=
  match f with
  | 0 => Normal (Arr [v; Prim (PStr "x")])
  | _ => Throw (Prim (PStr "boom"))
  end.

Definition demo_run (evs : list event) : state :=
  default init (run demo_heap demo_fns evs init).

(** [evaluate([B, B])] to the end: [B] is reached twice and [A] four
    times. *)
Definition twice_B : list event :=
  [Call (Arr [Res 1; Res 1]); Resume 0; Resume 1; Resume 2;
   Resume 3; Resume 4; Resume 5; Resume 6; Resume 7; Resume 8;
   Resume 3; Resume 5; Resume 7; Resume 8;
   Finish 3 (Normal (Prim (PStr "a")));
   Resume 5; Resume 7; Resume 8; Resume 4; Resume 6; Resume 9; Resume 10;
   Resume 11; Resume 12; Resume 13; Resume 14; Resume 9; Resume 10;
   Resume 4; Resume 6; Resume 2; Resume 1;
   Finish 2 (Normal (Prim (PStr "b"))); Resume 1; Resume 0].

(** [evaluate([A, C])] where the operation of [C] completes before the
    operation of [A]. *)
Definition A_then_C : list event :=
  [Call (Arr [Res 0; Res 2]); Resume 0; Resume 1; Resume 2; Resume 1;
   Resume 2; Finish 2 (Normal (Prim (PStr "c")));
   Finish 1 (Normal (Prim (PStr "a"))); Resume 0].

(** [evaluate([A, A])] up to the point where one activation awaits the
    operation of [A] and the other the promise of the cache; then the
    operation fails and [A] is evaluated once more. *)
Definition twice_A_waiting : list event :=
  [Call (Arr [Res 0; Res 0]); Resume 0; Resume 1; Resume 2; Resume 1;
   Resume 2].

Definition after_failure : list event :=
  [Resume 2; RejectAll 0 1; Call (Res 0); Resume 3; Resume 3; Resume 3].

(** A first pass [evaluate(A)] to the end, and a second pass over the
    same resource. *)
Definition first_pass : list event :=
  [Call (Res 0); Resume 0; Resume 0; Finish 0 (Normal (Prim (PStr "a")))].

Definition second_pass : list event :=
  [Call (Res 0); Resume 1; Resume 1; Resume 1].

(** [evaluate] of an [Output] over [A], and of an object. *)
Definition output_of_A : list event :=
  [Call (Out (Res 0) 0); Resume 0; Resume 1; Resume 1;
   Finish 1 (Normal (Prim (PStr "a"))); Resume 0; Resume 2; Resume 3;
   Resume 4; Resume 2; Resume 0].

Definition object_with_A : list event :=
  [Call (Obj [("k", Res 0); ("n", Prim (PNum 1))]); Resume 0; Resume 1;
   Resume 2; Resume 1; Finish 1 (Normal (Prim (PStr "a"))); Resume 0].

(** The statement that the cache lives for one pass only: when a first
    pass is over, having invoked the provider of [h], and a later pass
    evaluates [h] again to a result, the provider of [h] is invoked again
    in that pass. *)
Definition pass_scoped_cache (heap : nat → Resource)
    (fns : nat → jsval → completion) : Prop :=
  ∀ evs1 σ1 h evs2 σ2 ev,
    run heap fns evs1 init = Some σ1 →
    Forall (λ tk, ∃ o, at_ tk = Settled o) (tasks σ1) →
    invocations σ1 h = 1 →
    run heap fns (Call (Res h) :: evs2) σ1 = Some σ2 →
    result_of σ2 (length (tasks σ1)) = Some (Fulfilled ev) →
    invocations σ1 h < invocations σ2 h.

(** A file system in which the directory of the file cannot be made (its
    parent is read-only) and neither the file nor its directory exists. *)
Definition read_only_parent : fs :=
  {| fs_unlink := λ _, FsError "ENOENT";
     fs_rmdir := λ _, FsError "ENOENT";
     fs_mkdir := λ _, FsError "EACCES";
     fs_writeFile := λ _ _, FsError "EACCES";
     path_dirname := λ _, "out" |}.

(** A file system in which directories can be made and the targets are
    absent. *)
Definition targets_absent : fs :=
  {| fs_unlink := λ _, FsError "ENOENT";
     fs_rmdir := λ _, FsError "ENOENT";
     fs_mkdir := λ _, FsOk;
     fs_writeFile := λ _ _, FsOk;
     path_dirname := λ _, "out" |}.

(** Plain data: primitive values, and arrays and objects of plain data,
    with no resource and no [Output] inside. *)
Fixpoint plain (v : jsval) : bool :=
  match v with
  | Prim _ => true
  | Res _ | Out _ _ => false
  | Arr items => forallb plain items
  | Obj entries => forallb (λ entry, plain (snd entry)) entries
  end.

(** [evaluate({k: ["a", 1]})] to the end. *)
Definition plain_object : list event :=
  [Call (Obj [("k", Arr [Prim (PStr "a"); Prim (PNum 1)])]); Resume 0;
   Resume 1; Resume 2; Resume 3; Resume 1; Resume 0].

(** [evaluate(B)] when the operation of its input [A] fails. *)
Definition B_after_A_fails : list event :=
  [Call (Res 1); Resume 0; Resume 1; Resume 1;
   Finish 1 (Throw (Prim (PStr "boom"))); RejectAll 0 0].

(** Where every provider call of the log comes from: an activation called
    on the resource, whose input activations were all fulfilled, with
    their values as [inputs] and the set of their dependencies as
    [deps]. *)
Definition call_ok (heap : nat → Resource) (σ : state)
    (c : nat * list string * list jsval) : Prop :=
  ∃ t fr cs evs,
    tasks σ !! t = Some (Task (Res c.1.1) fr) ∧
    children σ t cs (Input (heap c.1.1)) ∧
    all_fulfilled σ cs = Some evs ∧
    c.1.2 = Set_from (flat_map deps evs) ∧
    c.2 = value <$> evs.




(** ** Names for AWS resources *)

(** The class [[a-zA-Z0-9\-_]] of the source, on code units. *)
Definition aws_name_char (c : N) : bool :=
  ((97 <=? c) && (c <=? 122) || (65 <=? c) && (c <=? 90)
   || (48 <=? c) && (c <=? 57) || (c =? 45) || (c =? 95))%N.

(** [str.replace(/[^a-zA-Z0-9\-_]/g, "-")]: the expression matches one
    code unit at a time, and every match is replaced by a hyphen. *)
Definition sanitizeForAwsResourceName (str : list N) : list N :=
  (λ c, if aws_name_char c then c else 45%N) <$> str.

(** [BRANCH_PREFIX]: [process.env.BRANCH_PREFIX || os.userInfo().username],
    sanitized.  The variable is [None] when unset; an empty value is
    falsy and gives way to the user name as well. *)
Definition BRANCH_PREFIX (env : option (list N)) (username : list N)
    : list N :=
  sanitizeForAwsResourceName
    match env with
    | Some (c :: s) => c :: s
    | _ => username
    end.

(** ** [alchemy.file] and [alchemy.files] *)

Record FileRef := { ref_kind : string; ref_path : string }.

Definition alchemy_file (path : string) : FileRef :=
  {| ref_kind := "fs::FileRef"; ref_path := path |}.

(** The two ways [alchemy.files] is called: with one array of paths, or
    with the paths as arguments. *)
Inductive files_args :=
| PathsArray (paths : list string)
| PathsSpread (paths : list string).

(** [fs.promises.readFile(path, "utf-8")] returns the content or throws
    an error with a code. *)
Inductive read_outcome :=
| Content (text : string)
| ReadError (code : string).

(** How [alchemy.files] ends: the collection, the [TypeError] of
    [paths.map] on [undefined], or the rejection of the [Promise.all] of
    the reads, whose reason is the error of one of the reads that
    failed; [codes] lists them all. *)
Inductive files_outcome :=
| FileCollection (type : string) (files : gmap string string)
| FilesTypeError
| FilesRejected (codes : list string).

(** [typeof args[0] === "string" ? args : args[0]]: with no argument at
    all, [args[0]] is [undefined]. *)
Definition files_paths (args : files_args) : option (list string) :=
  match args with
  | PathsArray paths => Some paths
  | PathsSpread [] => None
  | PathsSpread paths => Some paths
  end.

(** [Object.fromEntries]: a later entry replaces an earlier one with the
    same key. *)
Definition fromEntries (entries : list (string * string))
    : gmap string string :=
  foldl (λ m kv, <[kv.1 := kv.2]> m) ∅ entries.

Definition read_errors (rs : list read_outcome) : list string :=
  omap (λ r, match r with ReadError c => Some c | Content _ => None end) rs.

Definition read_contents (rs : list read_outcome) : list string :=
  omap (λ r, match r with Content t => Some t | ReadError _ => None end) rs.

(** [readFile i path] is the outcome of the [i]-th read, of [path]. *)
Definition alchemy_files (readFile : nat → string → read_outcome)
    (args : files_args) : files_outcome :=
  match files_paths args with
  | None => FilesTypeError
  | Some paths =>
      let rs := imap readFile paths in
      match read_errors rs with
      | [] => FileCollection "fs::FileCollection"
                (fromEntries (zip paths (read_contents rs)))
      | codes => FilesRejected codes
      end
  end.

(** ** [ai::TypeScriptFile], with the calls it makes *)

(** The calls of [ai::TypeScriptFile] that leave the process. *)
Inductive call :=
| Mkdir (path : string)
| Unlink (path : string)
| GenerateText (system prompt : string)
| PrettierFormat (source : list N)
| ConsoleWarn
| WriteFile (path : string) (data : list N)
| Stat (path : string).

(** A computation that makes calls: the calls made, in order, and how it
    ended.  An error, or [this.destroy()], ends it. *)
Definition traced (A : Type) : Type := list call * provided A.

#[global] Instance traced_ret : MRet traced := λ A a, ([], Returned a).

#[global] Instance traced_bind : MBind traced := λ A B f m,
  match m.2 with
  | Returned a => (m.1 ++ (f a).1, (f a).2)
  | Destroyed => (m.1, Destroyed)
  | Thrown c => (m.1, Thrown c)
  end.

Definition throw {A} (c : string) : traced A := ([], Thrown c).

Definition destroy {A} : traced A := ([], Destroyed).

(** [try { m } catch (error) { handler }]. *)
Definition try_catch {A} (m : traced A) (handler : string → traced A)
    : traced A :=
  match m.2 with
  | Thrown c => (m.1 ++ (handler c).1, (handler c).2)
  | _ => m
  end.

(** One call and its outcome. *)
Definition perform {A} (c : call) (r : A + string) : traced A :=
  ([c], match r with inl a => Returned a | inr e => Thrown e end).

Definition of_fs (r : fs_outcome) : unit + string :=
  match r with FsOk => inl tt | FsError c => inr c end.

(** A value of JavaScript that is a string or [undefined] counts as true
    when it is a string that is not empty. *)
Definition truthy (s : option string) : option string :=
  match s with
  | Some "" => None
  | _ => s
  end.

Definition DEFAULT_TS_SYSTEM_PROMPT : string :=
  "You are a TypeScript code generator. Create TypeScript code based on the user's requirements. Your response MUST include only TypeScript code inside ```ts fences. Do not include any other text, explanations, or multiple code blocks.".

Definition newline : string := String (Ascii.ascii_of_nat 10) "".

(** The system prompt of the second attempt. *)
Definition errorSystem (system error : string) : string :=
  system ++ newline ++ newline ++ "ERROR: " ++ error ++ newline ++ newline
  ++ "Please try again and ensure your response contains exactly one TypeScript code block inside ```ts fences.".

(** The properties the function reads itself; the others ([baseURL],
    [apiKey], [model], [temperature], [prettierConfig]) only reach the
    model and Prettier. *)
Record TypeScriptFileProps := {
  ts_path : string;
  ts_prompt : string;
  ts_system : option string
}.

(** [this.phase === "update"]. *)
Definition is_update (ph : phase) : bool :=
  match ph with
  | phase_update => true
  | _ => false
  end.

Section TypeScriptFile.
Context {number : Type}.

Record Stats := { birthtimeMs : number; mtimeMs : number }.

(** What the function gets from the model, from Prettier and from the
    two calls into [node:fs] that [fs] does not have: [generateText]
    (with [createModel] and the options of the properties) returns the
    text for a system prompt and a prompt or throws, [prettier.format]
    returns the formatted code or throws. *)
Record ai := {
  generateText : string → string → list N + string;
  prettier_format : list N → list N + string;
  fs_writeFile_code : string → list N → fs_outcome;
  fs_stat : string → Stats + string
}.

Record TypeScriptFileOut := {
  out_props : TypeScriptFileProps;
  content : list N;
  createdAt : number;
  updatedAt : number
}.

(** Lines 186 to 226: the code, asked from the model, and asked again
    when the first answer does not hold exactly one block. *)
Definition TypeScriptFile_code (w : ai) (props : TypeScriptFileProps)
    : traced (list N) :=
  let system := default DEFAULT_TS_SYSTEM_PROMPT (truthy (ts_system props)) in
  text ← perform (GenerateText system (ts_prompt props))
           (generateText w system (ts_prompt props));
  let first := extractTypeScriptCode text in
  match truthy (error first) with
  | Some err =>
      let errorSystem := errorSystem system err in
      retryText ← perform (GenerateText errorSystem (ts_prompt props))
                    (generateText w errorSystem (ts_prompt props));
      let retryResult := extractTypeScriptCode retryText in
      match truthy (error retryResult) with
      | Some err' =>
          throw ("Failed to generate valid TypeScript code: " ++ err')
      | None => mret (code retryResult)
      end
  | None => mret (code first)
  end.

(** Lines 228 to 259: the code is formatted, the file written and its
    times read.  [old_path] is [this.props.path], read in the phase
    [update] only. *)
Definition TypeScriptFile_write (env : fs) (w : ai) (ph : phase)
    (props : TypeScriptFileProps) (old_path : string) (code : list N)
    : traced TypeScriptFileOut :=
  code ← try_catch
            (perform (PrettierFormat code) (prettier_format w code))
            (λ _, perform ConsoleWarn (of_fs FsOk);; mret code);
  (if is_update ph && bool_decide (ts_path props ≠ old_path)
   then perform (Unlink old_path)
          (of_fs (ignore ["ENOENT"] (fs_unlink env old_path)))
   else mret tt);;
  perform (WriteFile (ts_path props) code)
    (of_fs (fs_writeFile_code w (ts_path props) code));;
  stats ← perform (Stat (ts_path props)) (fs_stat w (ts_path props));
  mret {| out_props := props; content := code;
          createdAt := birthtimeMs stats; updatedAt := mtimeMs stats |}.

(** Lines 186 to 259: the phases [create] and [update]. *)
Definition TypeScriptFile_generate (env : fs) (w : ai) (ph : phase)
    (props : TypeScriptFileProps) (old_path : string)
    : traced TypeScriptFileOut :=
  code ← TypeScriptFile_code w props;
  TypeScriptFile_write env w ph props old_path code.

(** The whole function, lines 166 to 260. *)
Definition TypeScriptFile_calls (env : fs) (w : ai) (ph : phase)
    (id : string) (props : TypeScriptFileProps) (old_path : string)
    : traced TypeScriptFileOut :=
  perform (Mkdir (path_dirname env (ts_path props)))
    (of_fs (fs_mkdir env (path_dirname env (ts_path props))));;
  match ph with
  | phase_delete =>
      try_catch
        (perform (Unlink (ts_path props))
           (of_fs (fs_unlink env (ts_path props))))
        (λ c, if bool_decide (c ≠ "ENOENT") then throw c else mret tt);;
      destroy
  | _ => TypeScriptFile_generate env w ph props old_path
  end.

End TypeScriptFile.
Arguments Stats : clear implicits.
Arguments ai : clear implicits.
Arguments TypeScriptFileOut : clear implicits.

Definition is_GenerateText (c : call) : bool :=
  match c with
  | GenerateText _ _ => true
  | _ => false
  end.

(** A file that cannot be read among files that can. *)
Definition one_missing (i : nat) (path : string) : read_outcome :=
  if bool_decide (path = "missing.txt") then ReadError "ENOENT"
  else Content path.

(** An answer without fences and an answer with one block. *)
Definition answer_without_fence : list N := of_ascii "const x = 1;".

Definition answer_with_fence : list N := of_ascii "```ts const x = 1; ```".

(** A model that forgets the fences until it is told of the error, with
    a Prettier that fails. *)
Definition forgetful_model : ai Z :=
  {| generateText := λ system _,
       if bool_decide (system = DEFAULT_TS_SYSTEM_PROMPT)
       then inl answer_without_fence else inl answer_with_fence;
     prettier_format := λ _, inr "SyntaxError";
     fs_writeFile_code := λ _ _, FsOk;
     fs_stat := λ _, inl {| birthtimeMs := 1%Z; mtimeMs := 2%Z |} |}.

(** A model that never sets the fences. *)
Definition fenceless_model : ai Z :=
  {| generateText := λ _ _, inl answer_without_fence;
     prettier_format := λ _, inr "SyntaxError";
     fs_writeFile_code := λ _ _, FsOk;
     fs_stat := λ _, inl {| birthtimeMs := 1%Z; mtimeMs := 2%Z |} |}.

Definition gen_props : TypeScriptFileProps :=
  {| ts_path := "out/gen.ts"; ts_prompt := "a constant";
     ts_system := None |}.

(** ** [waitForFunctionStabilization] *)

(** What the function reads of the answer to
    [GetFunctionConfigurationCommand]. *)
Record FunctionConfiguration := {
  cfg_State : option string;
  cfg_LastUpdateStatus : option string;
  cfg_StateReason : option string;
  cfg_LastUpdateStatusReason : option string
}.

(** [config.State === "Active" && config.LastUpdateStatus === "Successful"]. *)
Definition is_stable (config : FunctionConfiguration) : bool :=
  bool_decide (cfg_State config = Some "Active")
  && bool_decide (cfg_LastUpdateStatus config = Some "Successful").

(** [config.State === "Failed" || config.LastUpdateStatus === "Failed"]. *)
Definition is_failed (config : FunctionConfiguration) : bool :=
  bool_decide (cfg_State config = Some "Failed")
  || bool_decide (cfg_LastUpdateStatus config = Some "Failed").

(** [${config.StateReason || config.LastUpdateStatusReason}]: the first
    reason when it is a string that is not empty, else the second one,
    and [undefined] is printed as such. *)
Definition failure_reason (config : FunctionConfiguration) : string :=
  match truthy (cfg_StateReason config) with
  | Some reason => reason
  | None => default "undefined" (cfg_LastUpdateStatusReason config)
  end.

(** The loop of the function.  [send i] is the answer to the request
    number [i], from [0], or the error it throws; [polls] counts the
    requests sent so far.  Between two requests the function sleeps one
    second; [fuel] bounds the number of requests that are looked at, and
    the result is [None] when the loop is still running after them. *)
Fixpoint waitForFunctionStabilization
    (send : nat → FunctionConfiguration + string) (fuel polls : nat)
    : option (nat * provided unit) :=
  match fuel with
  | 0 => None
  | S fuel =>
      match send polls with
      | inr e => Some (S polls, Thrown e)
      | inl config =>
          if is_stable config then Some (S polls, Returned tt)
          else if is_failed config then
            Some (S polls,
                  Thrown ("Function failed to stabilize: "
                          ++ failure_reason config))
          else waitForFunctionStabilization send fuel (S polls)
      end
  end.

(** A request whose answer makes the loop go on. *)
Definition in_progress (r : FunctionConfiguration + string) : Prop :=
  ∃ config, r = inl config ∧ is_stable config = false
            ∧ is_failed config = false.

(** A function that is three seconds in progress and then active. *)
Definition active_after_three (i : nat) : FunctionConfiguration + string :=
  inl {| cfg_State := Some "Active";
         cfg_LastUpdateStatus :=
           Some (if bool_decide (i < 3) then "InProgress" else "Successful");
         cfg_StateReason := None; cfg_LastUpdateStatusReason := None |}.

(** A function that stays in progress. *)
Definition always_pending (i : nat) : FunctionConfiguration + string :=
  inl {| cfg_State := Some "Pending"; cfg_LastUpdateStatus := None;
         cfg_StateReason := None; cfg_LastUpdateStatusReason := None |}.

(** ** [aws.iam.Role] *)

(** A policy document reaches the function through [JSON.stringify]
    only: it is held as its JSON text. *)
Record RolePolicy := { policyName : string; policyDocument : string }.

(** [tags] holds the entries of the object in the order of
    [Object.entries]. *)
Record RoleInput := {
  roleName : string;
  assumeRolePolicy : string;
  description : option string;
  role_path : option string;
  maxSessionDuration : option Z;
  permissionsBoundary : option string;
  policies : option (list RolePolicy);
  managedPolicyArns : option (list string);
  tags : option (list (string * string))
}.

Record RoleOutput := {
  role_props : RoleInput;
  role_id : string;
  role_arn : option string;
  uniqueId : option string;
  roleId : option string;
  createDate : option Z
}.

(** The commands sent to IAM, with their input. *)
Inductive iam_command :=
| DeleteRolePolicyCommand (RoleName PolicyName : string)
| DeleteRoleCommand (RoleName : string)
| CreateRoleCommand (RoleName AssumeRolePolicyDocument : string)
    (Description Path : option string) (MaxSessionDuration : option Z)
    (PermissionsBoundary : option string) (Tags : list (string * string))
| GetRoleCommand (RoleName : string)
| UpdateAssumeRolePolicyCommand (RoleName PolicyDocument : string)
| UpdateRoleCommand (RoleName : string) (Description : option string)
    (MaxSessionDuration : option Z)
| TagRoleCommand (RoleName : string) (Tags : list (string * string))
| PutRolePolicyCommand (RoleName PolicyName PolicyDocument : string).

(** The [Role] of the answer to [GetRoleCommand], as far as it is read. *)
Record IamRole := {
  iam_AssumeRolePolicyDocument : option string;
  iam_Description : option string;
  iam_MaxSessionDuration : option Z;
  iam_Tags : option (list (string * string));
  iam_Arn : option string;
  iam_RoleId : option string;
  iam_CreateDate : option Z
}.

(** An error: its name (for the error the function makes itself, its
    message), and whether it is an instance of
    [EntityAlreadyExistsException]. *)
Record sdk_error := {
  error_name : string;
  instanceof_EntityAlreadyExistsException : bool
}.

(** A computation that sends commands: from the commands sent so far to
    the commands sent in the end and the value or the error thrown. *)
Definition iam (A : Type) : Type :=
  list iam_command → list iam_command * (A + sdk_error).

#[global] Instance iam_ret : MRet iam := λ A a sent, (sent, inl a).

#[global] Instance iam_bind : MBind iam := λ A B f m sent,
  match m sent with
  | (sent', inl a) => f a sent'
  | (sent', inr e) => (sent', inr e)
  end.

Definition iam_throw {A} (e : sdk_error) : iam A := λ sent, (sent, inr e).

(** [try { m } catch (error) { handler }]. *)
Definition iam_try {A} (m : iam A) (handler : sdk_error → iam A) : iam A :=
  λ sent,
    match m sent with
    | (sent', inr e) => handler e sent'
    | r => r
    end.

(** [for (const x of xs) { await body(x) }]. *)
Fixpoint iam_for {A} (xs : list A) (body : A → iam unit) : iam unit :=
  match xs with
  | [] => mret tt
  | x :: xs => body x;; iam_for xs body
  end.

(** Modelled from the spec: [await ignore(name, () => m)], with the
    [ignore] above ([../error] is not among the sources either); the
    name of the error is what is compared with the name given. *)
Definition iam_ignore (name : string) (m : iam unit) : iam unit :=
  iam_try m (λ e,
    match ignore [name] (FsError (error_name e)) with
    | FsOk => mret tt
    | FsError _ => iam_throw e
    end).

(** [tags.reduce((acc, tag) => { acc[tag.Key] = tag.Value; return acc },
    {})[key]]: the value of the last tag with the key. *)
Definition tag_value (key : string) (tags : list (string * string))
    : option string :=
  snd <$> last (filter (λ tag, tag.1 = key) tags).

(** [{...tags, [key]: value}], as [Object.entries] lists it: the entry of
    the key is replaced where it stands, or added at the end. *)
Fixpoint set_tag (key value : string) (tags : list (string * string))
    : list (string * string) :=
  match tags with
  | [] => [(key, value)]
  | tag :: tags =>
      if bool_decide (tag.1 = key) then (key, value) :: tags
      else tag :: set_tag key value tags
  end.

(** A computation that only adds commands to those sent, each of them
    one that [P] allows. *)
Definition sends_only {A} (P : iam_command → Prop) (m : iam A) : Prop :=
  ∀ sent, ∃ more, (m sent).1 = sent ++ more ∧ Forall P more.

(** [ctx.event === "update" ? ctx.output.policies || [] : []]. *)
Definition previousPolicies (event : phase)
    (output_policies : option (list RolePolicy)) : list RolePolicy :=
  if is_update event then default [] output_policies else [].

(** [props.policies || []]. *)
Definition currentPolicies (props : RoleInput) : list RolePolicy :=
  default [] (policies props).

(** A policy is new or changed when no previous policy has its name, or
    when the document of the first one that has differs. *)
Definition new_or_changed (previous : list RolePolicy) (policy : RolePolicy)
    : Prop :=
  ∀ old,
    find (λ p, bool_decide (policyName p = policyName policy)) previous
    = Some old →
    policyDocument old ≠ policyDocument policy.

Definition is_create (event : phase) : bool :=
  match event with
  | phase_create => true
  | _ => false
  end.

Section Role.
(** The client: the answer to a command, given the commands sent
    before.  Only the answer to [GetRoleCommand] is read. *)
Variable client_send :
  list iam_command → iam_command → option IamRole + sdk_error.
(** [process.env.AWS_ACCOUNT_ID] and [new Date()]. *)
Variable AWS_ACCOUNT_ID : option string.
Variable now : Z.

Definition send (c : iam_command) : iam (option IamRole) :=
  λ sent, (sent ++ [c], client_send sent c).

(** Lines 193 to 233: the inline policies. *)
Definition Role_policies (event : phase)
    (output_policies : option (list RolePolicy)) (props : RoleInput)
    : iam unit :=
  let previousPolicies := previousPolicies event output_policies in
  let currentPolicies := currentPolicies props in
  iam_for previousPolicies (λ oldPolicy,
    if negb (existsb (λ p, bool_decide (policyName p = policyName oldPolicy))
               currentPolicies)
    then iam_ignore "NoSuchEntityException"
           (send (DeleteRolePolicyCommand (roleName props)
                    (policyName oldPolicy));; mret tt)
    else mret tt);;
  iam_for currentPolicies (λ policy,
    let oldPolicy :=
      find (λ p, bool_decide (policyName p = policyName policy))
        previousPolicies in
    if match oldPolicy with
       | None => true
       | Some oldPolicy =>
           bool_decide (policyDocument oldPolicy ≠ policyDocument policy)
       end
    then send (PutRolePolicyCommand (roleName props) (policyName policy)
                 (policyDocument policy));; mret tt
    else mret tt).

(** The provider, lines 44 to 247.  [stage] and [resourceID] are those
    of the context, [output_policies] is [ctx.output.policies], read in
    an update only. *)
Definition Role (event : phase) (stage resourceID : string)
    (output_policies : option (list RolePolicy)) (props : RoleInput)
    : iam RoleOutput :=
  if match event with phase_delete => true | _ => false end then
    iam_for (default [] (policies props)) (λ policy,
      iam_ignore "NoSuchEntityException"
        (send (DeleteRolePolicyCommand (roleName props) (policyName policy));;
         mret tt));;
    iam_ignore "NoSuchEntityException"
      (send (DeleteRoleCommand (roleName props));; mret tt);;
    mret {| role_props := props; role_id := roleName props;
            role_arn := Some ("arn:aws:iam::"
                              +:+ default "undefined" AWS_ACCOUNT_ID
                              +:+ ":role/" +:+ roleName props);
            uniqueId := Some ""; roleId := Some "";
            createDate := Some now |}
  else
    let assumeRolePolicyDocument := assumeRolePolicy props in
    iam_try
      (if is_create event then
         send (CreateRoleCommand (roleName props) assumeRolePolicyDocument
                 (description props) (role_path props)
                 (maxSessionDuration props) (permissionsBoundary props)
                 (default [] (tags props)
                  ++ [("alchemy_stage", stage);
                      ("alchemy_resource", resourceID)]));;
         mret tt
       else mret tt)
      (λ error,
         if instanceof_EntityAlreadyExistsException error && is_create event
         then
           existingRole ← send (GetRoleCommand (roleName props));
           let roleTags := default [] (existingRole ≫= iam_Tags) in
           if bool_decide (tag_value "alchemy_stage" roleTags ≠ Some stage)
              || bool_decide (tag_value "alchemy_resource" roleTags
                              ≠ Some resourceID)
           then iam_throw error
           else mret tt
         else if bool_decide (error_name error ≠ "NoSuchEntityException")
         then iam_throw error
         else mret tt);;
    role ← send (GetRoleCommand (roleName props));
    (if bool_decide (role ≫= iam_AssumeRolePolicyDocument
                     ≠ Some assumeRolePolicyDocument)
     then send (UpdateAssumeRolePolicyCommand (roleName props)
                  assumeRolePolicyDocument);; mret tt
     else mret tt);;
    (if bool_decide (role ≫= iam_Description ≠ description props)
        || bool_decide (role ≫= iam_MaxSessionDuration
                        ≠ maxSessionDuration props)
     then send (UpdateRoleCommand (roleName props) (description props)
                  (maxSessionDuration props));; mret tt
     else mret tt);;
    send (TagRoleCommand (roleName props)
            (set_tag "alchemy_resource" resourceID
               (set_tag "alchemy_stage" stage (default [] (tags props)))));;
    Role_policies event output_policies props;;
    match role with
    | None =>
        iam_throw
          {| error_name := "Failed to create or update role "
                           +:+ roleName props;
             instanceof_EntityAlreadyExistsException := false |}
    | Some role =>
        mret {| role_props := props; role_id := roleName props;
                role_arn := iam_Arn role; uniqueId := iam_RoleId role;
                roleId := iam_RoleId role;
                createDate := iam_CreateDate role |}
    end.

End Role.

(** The commands the function may send outside a deletion. *)
Definition allowed (event : phase) (output_policies : option (list RolePolicy))
    (props : RoleInput) (c : iam_command) : Prop :=
  match c with
  | DeleteRolePolicyCommand rn n =>
      rn = roleName props ∧
      n ∈ policyName <$> previousPolicies event output_policies ∧
      n ∉ policyName <$> currentPolicies props
  | PutRolePolicyCommand rn n d =>
      rn = roleName props ∧
      ∃ policy, policy ∈ currentPolicies props ∧ policyName policy = n ∧
                policyDocument policy = d ∧
                new_or_changed (previousPolicies event output_policies) policy
  | DeleteRoleCommand _ => False
  | CreateRoleCommand _ _ _ _ _ _ _ => event = phase_create
  | _ => True
  end.

(** An IAM in which nothing exists: every command is answered by
    [NoSuchEntityException]. *)
Definition nothing_exists (sent : list iam_command) (c : iam_command)
    : option IamRole + sdk_error :=
  inr {| error_name := "NoSuchEntityException";
         instanceof_EntityAlreadyExistsException := false |}.

Definition reader_policy (document : string) : RolePolicy :=
  {| policyName := "reader"; policyDocument := document |}.

Definition writer_policy : RolePolicy :=
  {| policyName := "writer"; policyDocument := "{}" |}.

Definition demo_role (ps : list RolePolicy) : RoleInput :=
  {| roleName := "app"; assumeRolePolicy := "{}"; description := None;
     role_path := None; maxSessionDuration := None;
     permissionsBoundary := None; policies := Some ps;
     managedPolicyArns := None; tags := None |}.

(** An IAM that holds the role [app] as a stage [dev] and a resource
    [role] of some program made it, and accepts every command but
    [CreateRoleCommand]. *)
Definition app_exists (stage resourceID : string)
    (sent : list iam_command) (c : iam_command)
    : option IamRole + sdk_error :=
  match c with
  | CreateRoleCommand _ _ _ _ _ _ _ =>
      inr {| error_name := "EntityAlreadyExistsException";
             instanceof_EntityAlreadyExistsException := true |}
  | _ =>
      inl (Some {| iam_AssumeRolePolicyDocument := Some "{}";
                   iam_Description := None;
                   iam_MaxSessionDuration := None;
                   iam_Tags := Some [("alchemy_stage", stage);
                                     ("alchemy_resource", resourceID)];
                   iam_Arn := Some "arn:aws:iam::1:role/app";
                   iam_RoleId := Some "AROA1";
                   iam_CreateDate := Some 0%Z |})
  end.

(** ** The router of a static site *)

(** What [getWithMetadata] returns: the text under the key, or [null],
    and the metadata stored with it, or [null]. *)
Record KVMetadata := {
  contentType : option string;
  cacheControl : option string
}.

Record KVObject := {
  kv_value : option string;
  kv_metadata : option KVMetadata
}.

(** The bindings.  [ASSETS i key] is the answer to the request number
    [i] of the call, from [0], for [key], or the error it throws. *)
Record Env := {
  ASSETS : nat → string → KVObject + string;
  INDEX_PAGE : string;
  ERROR_PAGE : option string
}.

(** A response: one that the cache returned, of which the router reads
    [headers.get("etag")] only, or one that the router built, with the
    headers it set, in order. *)
Record CachedResponse := { cached_etag : option string }.

Inductive Response :=
| FromCache (r : CachedResponse)
| Built (status : nat) (headers : list (string * string)) (body : string).

(** The request, as far as it is read: [new URL(request.url).pathname]
    and the method. *)
Record Request := { url_pathname : string; request_method : string }.

(** [caches.default]: what [match] returns for the request ([None] for
    [undefined]) or throws, and the error [put] throws, if any. *)
Record Cache := {
  cache_match : option CachedResponse + string;
  cache_put : Response → option string
}.

(** How a call ends: the keys asked from [ASSETS], in order, the response
    given to [cache.put], if any, and the response or the error. *)
Record Fetched := {
  kv_reads : list string;
  cache_saved : option Response;
  fetch_result : Response + string
}.

Definition slash : Ascii.ascii := Ascii.ascii_of_nat 47.

(** [pathname.replace(/^\//, "")]. *)
Definition strip_slash (pathname : string) : string :=
  match pathname with
  | String c rest => if Ascii.eqb c slash then rest else pathname
  | "" => ""
  end.

(** [filePath.endsWith("/")]. *)
Fixpoint endsWith_slash (filePath : string) : bool :=
  match filePath with
  | "" => false
  | String c "" => Ascii.eqb c slash
  | String _ rest => endsWith_slash rest
  end.

(** [headers.set(name, value)] with a value that may be [undefined]. *)
Definition String_of (value : option string) : string :=
  default "undefined" value.

Section Router.
(** The manifest: [manifest key] is the entry it holds itself under
    [key], if any.  The read [__ASSET_MANIFEST__[key]] also finds what
    the manifest inherits ([constructor], [toString] and the other
    members of [Object.prototype], when it is an ordinary object):
    [inherited key] is such a member, as [headers.set] writes it, for a
    key the manifest does not hold itself.  These members are functions
    and objects: they count as true and are never equal to a string. *)
Variable manifest : string → option string.
Variable inherited : string → option string.
Variable caches_default : Cache.
Variable request : Request.
Variable env : Env.

(** [__ASSET_MANIFEST__[key]] where [respond] tests it and sets it as
    the [etag]: the text of the header when the read counts as true. *)
Definition manifest_etag (key : string) : option string :=
  match manifest key with
  | Some entry => truthy (Some entry)
  | None => inherited key
  end.

(** [respond]; [reads] are the keys asked before. *)
Definition respond (reads : list string) (status : nat) (filePath : string)
    (object : KVObject) : Fetched :=
  match
    match manifest_etag filePath with
    | Some etag =>
        match kv_metadata object with
        | None => inr "TypeError"
        | Some metadata =>
            inl [("etag", etag);
                 ("content-type", String_of (contentType metadata));
                 ("cache-control", String_of (cacheControl metadata))]
        end
    | None => inl []
    end
  with
  | inr e => {| kv_reads := reads; cache_saved := None; fetch_result := inr e |}
  | inl headers =>
      let response := Built status headers (default "" (kv_value object)) in
      if bool_decide (request_method request = "GET") then
        match cache_put caches_default response with
        | Some e =>
            {| kv_reads := reads; cache_saved := Some response;
               fetch_result := inr e |}
        | None =>
            {| kv_reads := reads; cache_saved := Some response;
               fetch_result := inl response |}
        end
      else
        {| kv_reads := reads; cache_saved := None;
           fetch_result := inl response |}
  end.

(** One block of [fetch]: the key is asked for and, when it holds a
    value, answered with; [otherwise] is the rest of the function. *)
Definition serve (reads : list string) (status : nat) (key : string)
    (otherwise : list string → Fetched) : Fetched :=
  match ASSETS env (length reads) key with
  | inr e =>
      {| kv_reads := reads ++ [key]; cache_saved := None;
         fetch_result := inr e |}
  | inl object =>
      match truthy (kv_value object) with
      | Some _ => respond (reads ++ [key]) status key object
      | None => otherwise (reads ++ [key])
      end
  end.

(** [filePath] of [fetch]. *)
Definition filePath_of : string :=
  let pathname := strip_slash (url_pathname request) in
  if bool_decide (pathname = "") then INDEX_PAGE env else pathname.

(** [lookupCache]. *)
Definition lookupCache : option CachedResponse + string :=
  match cache_match caches_default with
  | inr e => inr e
  | inl None => inl None
  | inl (Some r) =>
      match cached_etag r, manifest filePath_of with
      | Some etag, Some etag' =>
          if bool_decide (etag = etag') then inl (Some r) else inl None
      | _, _ => inl None
      end
  end.

Definition fetch : Fetched :=
  let filePath := filePath_of in
  match lookupCache with
  | inr e => {| kv_reads := []; cache_saved := None; fetch_result := inr e |}
  | inl (Some cachedResponse) =>
      {| kv_reads := []; cache_saved := None;
         fetch_result := inl (FromCache cachedResponse) |}
  | inl None =>
      serve [] 200 filePath (λ reads,
      serve reads 200
        (filePath +:+ (if endsWith_slash filePath then "" else "/")
         +:+ "index.html") (λ reads,
      serve reads 200 (filePath +:+ ".html") (λ reads,
      match truthy (ERROR_PAGE env) with
      | Some error_page =>
          serve reads 404 error_page (λ reads,
            {| kv_reads := reads; cache_saved := None;
               fetch_result := inl (Built 404 [] "Page Not Found") |})
      | None =>
          serve reads 200 (INDEX_PAGE env) (λ reads,
            {| kv_reads := reads; cache_saved := None;
               fetch_result := inl (Built 404 [] "Page Not Found") |})
      end)))
  end.


(** The headers [respond] sets for a key: none when the manifest holds
    an empty entry, or holds none and inherits nothing under the key;
    else the entry, or the inherited member, as [etag], and the two of
    the metadata. *)
Definition headers_for (key : string) (object : KVObject)
    (headers : list (string * string)) : Prop :=
  ((manifest key = Some "" ∨ manifest key = None ∧ inherited key = None) ∧
   headers = []) ∨
  (∃ etag metadata,
     (manifest key = Some etag ∧ etag ≠ "" ∨
      manifest key = None ∧ inherited key = Some etag) ∧
     kv_metadata object = Some metadata ∧
     headers = [("etag", etag);
                ("content-type", String_of (contentType metadata));
                ("cache-control", String_of (cacheControl metadata))]).

End Router.

(** A site with two pages, [index.html] and [about.html]; the manifest
    names both. *)
Definition site_manifest (key : string) : option string :=
  if bool_decide (key = "index.html") then Some "v1"
  else if bool_decide (key = "about.html") then Some "v2"
  else None.

(** What an ordinary object inherits under [constructor]. *)
Definition Object_prototype (key : string) : option string :=
  if bool_decide (key = "constructor")
  then Some "function Object() { [native code] }"
  else None.

(** A site that also holds an asset under the key [constructor]. *)
Definition constructor_env : Env :=
  {| ASSETS := λ _ key,
       inl (if bool_decide (key = "constructor") then
              {| kv_value := Some "<p>c</p>";
                 kv_metadata := Some {| contentType := Some "text/html";
                                        cacheControl := None |} |}
            else {| kv_value := None; kv_metadata := None |});
     INDEX_PAGE := "index.html";
     ERROR_PAGE := None |}.

Definition get_constructor : Request :=
  {| url_pathname := "/constructor"; request_method := "HEAD" |}.


(** A cache that holds the page [about.html] for the request. *)
Definition warm_cache : Cache :=
  {| cache_match := inl (Some {| cached_etag := Some "v2" |});
     cache_put := λ _, None |}.


Definition get_about_html : Request :=
  {| url_pathname := "/about.html"; request_method := "GET" |}.

(* ===================================================================== *)
(** * Part II: properties                                                 *)
(* ===================================================================== *)

(** ** Sets of ids *)

Lemma Set_from_acc (l acc : list string) (x : string) :
  x ∈ foldl (λ acc x, if bool_decide (x ∈ acc) then acc else acc ++ [x]) acc l
  ↔ x ∈ acc ∨ x ∈ l.
Proof.
  revert acc. induction l as [|y l IH]; intros acc; simpl.
  - rewrite elem_of_nil. tauto.
  - rewrite IH, elem_of_cons. case_bool_decide as Hy.
    + split; [tauto|]. intros [?|[->|?]]; auto.
    + rewrite elem_of_app, list_elem_of_singleton. tauto.
Qed.

Lemma elem_of_Set_from (l : list string) (x : string) :
  x ∈ Set_from l ↔ x ∈ l.
Proof.
  unfold Set_from. rewrite Set_from_acc, elem_of_nil. tauto.
Qed.

Lemma Set_from_acc_NoDup (l acc : list string) :
  NoDup acc →
  NoDup (foldl (λ acc x, if bool_decide (x ∈ acc) then acc else acc ++ [x])
           acc l).
Proof.
  revert acc. induction l as [|y l IH]; intros acc Hacc; simpl; [done|].
  apply IH. case_bool_decide as Hy; [done|].
  apply NoDup_app. split_and!; [done| |apply NoDup_singleton].
  intros z Hz ->%list_elem_of_singleton. done.
Qed.

Lemma Set_from_NoDup (l : list string) : NoDup (Set_from l).
Proof. apply Set_from_acc_NoDup, NoDup_nil_2. Qed.

Lemma list_to_set_Set_from (l : list string) :
  list_to_set (C := gset string) (Set_from l) = list_to_set l.
Proof.
  apply set_eq. intros x. rewrite !elem_of_list_to_set.
  apply elem_of_Set_from.
Qed.

Lemma list_to_set_flat_map {A} (f : A → list string) (l : list A) :
  list_to_set (C := gset string) (flat_map f l)
  = ⋃ ((λ x, list_to_set (f x)) <$> l).
Proof.
  induction l as [|x l IH]; simpl; [done|].
  by rewrite list_to_set_app_L, IH.
Qed.

(** ** Later states *)

Lemma extends_refl σ : extends σ σ.
Proof. unfold extends. naive_solver. Qed.

Lemma extends_trans σ1 σ2 σ3 :
  extends σ1 σ2 → extends σ2 σ3 → extends σ1 σ3.
Proof.
  intros (A1 & B1 & C1 & D1 & E1) (A2 & B2 & C2 & D2 & E2).
  split_and!; eauto.
  - intros c v fr H. destruct (A1 _ _ _ H) as [fr' H']. eauto.
  - etrans; eauto.
  - etrans; eauto.
Qed.

(** ** The meaning of a settled activation *)

Section Properties.

Variable heap : nat → Resource.
Variable fns : nat → jsval → completion.

Notation eval := (eval heap fns).
Notation evals := (evals heap fns).
Notation step := (step heap fns).
Notation run := (run heap fns).
Notation Inv := (Inv heap fns).
Notation frame_ok := (frame_ok heap fns).
Notation reachable := (reachable heap fns).

Lemma eval_evals_mono σ σ' :
  extends σ σ' →
  (∀ v o, eval σ v o → eval σ' v o) ∧
  (∀ vs evs, evals σ vs evs → evals σ' vs evs).
Proof.
  intros (_ & _ & Hc & Hp & _).
  apply eval_evals_ind; intros; try (econstructor; eauto; fail).
  eapply eval_res; eauto. eapply lookup_weaken; eauto.
Qed.

Lemma eval_mono σ σ' v o : extends σ σ' → eval σ v o → eval σ' v o.
Proof. intros H. by apply (eval_evals_mono σ σ' H). Qed.

Lemma evals_mono σ σ' vs evs : extends σ σ' → evals σ vs evs → evals σ' vs evs.
Proof. intros H. by apply (eval_evals_mono σ σ' H). Qed.

Lemma evals_Forall2 σ vs evs :
  evals σ vs evs ↔ Forall2 (λ v ev, eval σ v (Fulfilled ev)) vs evs.
Proof.
  split.
  - induction 1; constructor; auto.
  - induction 1; constructor; auto.
Qed.

Lemma evals_length σ vs evs : evals σ vs evs → length evs = length vs.
Proof. rewrite evals_Forall2. intros H. symmetry. by eapply Forall2_length. Qed.

Lemma eval_prim_inv σ p o :
  eval σ (Prim p) o → o = Fulfilled (Build_Evaluated (Prim p) []).
Proof. by inversion 1. Qed.

Lemma eval_res_inv σ h o :
  eval σ (Res h) o →
  (∃ evs q, evals σ (Input (heap h)) evs ∧ cache σ !! h = Some q ∧
            promises σ !! q = Some (Some o)) ∨
  (∃ v e, v ∈ Input (heap h) ∧ eval σ v (Rejected e) ∧ o = Rejected e).
Proof. inversion 1; subst; [left|right]; eauto 10. Qed.

Lemma eval_out_inv σ p f o :
  eval σ (Out p f) o →
  (∃ e, eval σ p (Rejected e) ∧ o = Rejected e) ∨
  (∃ pe, eval σ p (Fulfilled pe) ∧
     ((∃ e, fns f (value pe) = Throw e ∧ o = Rejected e) ∨
      (∃ ret, fns f (value pe) = Normal ret ∧
         ((∃ e, eval σ ret (Rejected e) ∧ o = Rejected e) ∨
          (∃ ev, eval σ ret (Fulfilled ev) ∧
             o = Fulfilled
                   (Build_Evaluated (value ev) (deps pe ++ deps ev))))))).
Proof. inversion 1; subst; [right|left|right|right]; eauto 12. Qed.

Lemma eval_arr_inv σ items o :
  eval σ (Arr items) o →
  (∃ evs, evals σ items evs ∧
     o = Fulfilled (Build_Evaluated (Arr (value <$> evs))
                                    (flat_map deps evs))) ∨
  (∃ v e, v ∈ items ∧ eval σ v (Rejected e) ∧ o = Rejected e).
Proof. inversion 1; subst; [left|right]; eauto 10. Qed.

Lemma eval_obj_inv σ entries o :
  eval σ (Obj entries) o →
  (∃ evs, evals σ (entries.*2) evs ∧
     o = Fulfilled
           (Build_Evaluated (Obj (zip (entries.*1) (value <$> evs)))
                            (flat_map deps evs))) ∨
  (∃ v e, v ∈ entries.*2 ∧ eval σ v (Rejected e) ∧ o = Rejected e).
Proof. inversion 1; subst; [left|right]; eauto 10. Qed.

(** A fulfilled evaluation is the only way the evaluation of the same
    value can settle against the same cache. *)
Lemma eval_evals_det σ :
  (∀ v o, eval σ v o →
     ∀ ev, o = Fulfilled ev → ∀ o', eval σ v o' → o' = Fulfilled ev) ∧
  (∀ vs evs, evals σ vs evs →
     (∀ evs', evals σ vs evs' → evs' = evs) ∧
     (∀ v e, v ∈ vs → ¬ eval σ v (Rejected e))).
Proof.
  apply eval_evals_ind.
  - intros p ev [= <-] o' H. by apply eval_prim_inv in H.
  - intros h evs q o _ [_ IH] Hq Ho ev -> o' H.
    apply eval_res_inv in H as [(evs' & q' & _ & Hq' & Ho')|(v & e & Hv & He & _)].
    + congruence.
    + exfalso. eapply IH; eauto.
  - done.
  - intros p f pe ret ev _ IHp Hf _ IHr ev' [= <-] o' H.
    apply eval_out_inv in H
      as [(e & He & _)|(pe' & Hpe & [(e & Hf' & _)|(ret' & Hf' & Hr)])].
    + by specialize (IHp _ eq_refl _ He).
    + specialize (IHp _ eq_refl _ Hpe) as [= ->]. congruence.
    + specialize (IHp _ eq_refl _ Hpe) as [= ->].
      assert (ret' = ret) as -> by congruence.
      destruct Hr as [(e & He & _)|(ev' & Hev & ->)].
      * by specialize (IHr _ eq_refl _ He).
      * by specialize (IHr _ eq_refl _ Hev) as [= ->].
  - done.
  - done.
  - done.
  - intros items evs _ [IH1 IH2] ev [= <-] o' H.
    apply eval_arr_inv in H as [(evs' & Hevs & ->)|(v & e & Hv & He & _)].
    + by rewrite (IH1 _ Hevs).
    + exfalso. eapply IH2; eauto.
  - done.
  - intros entries evs _ [IH1 IH2] ev [= <-] o' H.
    apply eval_obj_inv in H as [(evs' & Hevs & ->)|(v & e & Hv & He & _)].
    + by rewrite (IH1 _ Hevs).
    + exfalso. eapply IH2; eauto.
  - done.
  - split.
    + intros evs' H. by inversion H.
    + intros v e Hv. by apply elem_of_nil in Hv.
  - intros v vs ev evs _ IHv _ [IH1 IH2]. split.
    + intros evs' H. inversion H as [|? ? ev' evs'' Hev Hevs]; subst.
      specialize (IHv _ eq_refl _ Hev) as [= ->].
      f_equal. eauto.
    + intros w e [->|Hw]%elem_of_cons Hrej.
      * by specialize (IHv _ eq_refl _ Hrej).
      * eapply IH2; eauto.
Qed.

Lemma eval_det σ v ev o :
  eval σ v (Fulfilled ev) → eval σ v o → o = Fulfilled ev.
Proof. intros H. by eapply (proj1 (eval_evals_det σ)). Qed.

Lemma evals_det σ vs evs evs' :
  evals σ vs evs → evals σ vs evs' → evs' = evs.
Proof. intros H. by apply (proj2 (eval_evals_det σ) _ _ H). Qed.

Lemma evals_not_rejected σ vs evs v e :
  evals σ vs evs → v ∈ vs → ¬ eval σ v (Rejected e).
Proof. intros H. by apply (proj2 (eval_evals_det σ) _ _ H). Qed.

End Properties.

(** ** The shape of a transition *)

Lemma spawn_nil σ : (spawn [] σ).2 = σ.
Proof. destruct σ. unfold spawn. simpl. by rewrite app_nil_r. Qed.

Lemma moved_cases (L : list task) (vs : list jsval) t tk i x :
  t < length L →
  (<[t := tk]> (L ++ ((λ v, Task v Start) <$> vs))) !! i = Some x →
  (i = t ∧ x = tk) ∨ (i ≠ t ∧ L !! i = Some x) ∨
  (length L ≤ i ∧ ∃ v, vs !! (i - length L) = Some v ∧ x = Task v Start).
Proof.
  intros Ht H. destruct (decide (i = t)) as [->|Hne].
  - rewrite list_lookup_insert_eq in H by (rewrite length_app; lia).
    left. by simplify_eq.
  - rewrite list_lookup_insert_ne in H by done.
    apply lookup_app_Some in H as [H|[Hle H]]; [by right; left|].
    right; right. split; [done|].
    rewrite list_lookup_fmap in H.
    destruct (vs !! (i - length L)) as [v|]; simplify_eq/=. eauto.
Qed.

Lemma moved_old (L N : list task) t tk i x :
  i ≠ t → L !! i = Some x → (<[t := tk]> (L ++ N)) !! i = Some x.
Proof.
  intros Hne H. rewrite list_lookup_insert_ne by done.
  by apply lookup_app_l_Some.
Qed.

Lemma moved_self (L N : list task) t tk :
  t < length L → (<[t := tk]> (L ++ N)) !! t = Some tk.
Proof. intros Ht. apply list_lookup_insert_eq. rewrite length_app. lia. Qed.

Lemma moved_new (L : list task) (vs : list jsval) t tk k v :
  t < length L → vs !! k = Some v →
  (<[t := tk]> (L ++ ((λ v, Task v Start) <$> vs))) !! (length L + k)
  = Some (Task v Start).
Proof.
  intros Ht Hk. rewrite list_lookup_insert_ne by lia.
  rewrite lookup_app_r by lia.
  replace (length L + k - length L) with k by lia.
  by rewrite list_lookup_fmap, Hk.
Qed.

(** A transition that moves activation [t] (not settled before) and calls
    [evaluate] on [vs] leads to a later state, whatever it does to the
    stores as long as they only grow. *)
Lemma extends_moved σ σ' t a fr fr' vs :
  tasks σ !! t = Some (Task a fr) →
  (∀ o, fr ≠ Settled o) →
  tasks σ' = <[t := Task a fr']> (tasks σ ++ ((λ v, Task v Start) <$> vs)) →
  cache σ ⊆ cache σ' →
  (∀ q o, promises σ !! q = Some (Some o) →
          promises σ' !! q = Some (Some o)) →
  calls σ `prefix_of` calls σ' →
  extends σ σ'.
Proof.
  intros Ht Hfr Htasks Hc Hp Hcalls.
  assert (t < length (tasks σ)) as Hlt by (by eapply lookup_lt_Some).
  split_and!; try done.
  - intros c v fr0 H. rewrite Htasks. destruct (decide (c = t)) as [->|Hne].
    + exists fr'. rewrite moved_self by done. congruence.
    + exists fr0. by apply moved_old.
  - intros c v o H. rewrite Htasks. apply moved_old; [|done].
    intros ->. rewrite Ht in H. simplify_eq. by edestruct Hfr.
Qed.

Section Preservation.

Variable heap : nat → Resource.
Variable fns : nat → jsval → completion.

Notation eval := (eval heap fns).
Notation evals := (evals heap fns).
Notation step := (step heap fns).
Notation run := (run heap fns).
Notation Inv := (Inv heap fns).
Notation frame_ok := (frame_ok heap fns).
Notation reachable := (reachable heap fns).

Lemma children_mono σ σ' t cs vs :
  extends σ σ' → children σ t cs vs → children σ' t cs vs.
Proof.
  intros (Ha & _) H. eapply Forall2_impl; [exact H|].
  intros c v [Hlt [fr Hc]]. split; [done|]. eauto.
Qed.

Lemma frame_ok_mono σ σ' t a fr :
  extends σ σ' → frame_ok σ t a fr → frame_ok σ' t a fr.
Proof.
  intros Hext. pose proof Hext as (_ & _ & Hc & _).
  destruct fr; simpl; try done.
  - intros [-> H]. eauto using children_mono.
  - intros (-> & Hq & evs & Hevs). split_and!; [done|by eapply lookup_weaken|].
    eauto using evals_mono.
  - intros (-> & Hq & evs & Hevs & ->).
    split_and!; [done|by eapply lookup_weaken|].
    eauto using evals_mono.
  - intros (p & -> & H). eauto using children_mono.
  - intros (p & f & pe & ret & -> & Hp & -> & Hf & H).
    exists p, f, pe, ret.
    split_and!; eauto using children_mono, eval_mono.
  - intros (items & -> & H). eauto using children_mono.
  - intros (entries & -> & Hk & H). eauto using children_mono.
  - by apply eval_mono.
Qed.

(** The children of a frame that are all fulfilled give the evaluation
    of the values they were called on. *)
Lemma children_evals σ t cs vs evs :
  Inv σ → children σ t cs vs → all_fulfilled σ cs = Some evs →
  evals σ vs evs.
Proof.
  intros HI Hch Hall. apply mapM_Some in Hall.
  apply evals_Forall2. revert evs Hall.
  induction Hch as [|c v cs vs [_ [fr Hc]] _ IH]; intros evs Hall.
  - inversion Hall. constructor.
  - inversion Hall as [|? ev ? evs' Hful Hrest]; subst.
    constructor; [|by apply IH].
    unfold fulfilled, result_of in Hful. rewrite Hc in Hful.
    destruct fr as [| | | | | | | |[ev'|]]; simplify_eq.
    by apply (inv_frames _ _ _ HI) in Hc.
Qed.

Lemma children_rejected σ t cs vs k c e :
  Inv σ → children σ t cs vs → cs !! k = Some c →
  result_of σ c = Some (Rejected e) →
  ∃ v, v ∈ vs ∧ eval σ v (Rejected e).
Proof.
  intros HI Hch Hk Hres.
  destruct (Forall2_lookup_l _ _ _ _ _ Hch Hk) as (v & Hv & _ & fr & Hc).
  exists v. split; [by eapply list_elem_of_lookup_2|].
  unfold result_of in Hres. rewrite Hc in Hres.
  destruct fr; simplify_eq.
  by apply (inv_frames _ _ _ HI) in Hc.
Qed.

(** A transition that touches no store and neither leaves nor enters
    the wait for a provider. *)
Lemma Inv_move σ t a fr fr' vs :
  Inv σ →
  tasks σ !! t = Some (Task a fr) →
  (∀ o, fr ≠ Settled o) →
  (∀ h ds q, fr ≠ ResUpdate h ds q) →
  (∀ h ds q, fr' ≠ ResUpdate h ds q) →
  (extends σ (goto t a fr' (spawn vs σ).2) →
   frame_ok (goto t a fr' (spawn vs σ).2) t a fr') →
  Inv (goto t a fr' (spawn vs σ).2) ∧
  extends σ (goto t a fr' (spawn vs σ).2).
Proof.
  intros HI Ht Hns Hnu Hnu' Hok.
  set (σ' := goto t a fr' (spawn vs σ).2) in *.
  assert (t < length (tasks σ)) as Hlt by (by eapply lookup_lt_Some).
  assert (tasks σ' =
          <[t := Task a fr']> (tasks σ ++ ((λ v, Task v Start) <$> vs)))
    as Htasks by done.
  assert (extends σ σ') as Hext by (by eapply extends_moved).
  split; [|done]. specialize (Hok Hext).
  split.
  - intros i a0 fr0 Hi. rewrite Htasks in Hi.
    destruct (moved_cases _ _ _ _ _ _ Hlt Hi)
      as [[-> ?]|[[Hne Hi']|[_ (v & _ & ?)]]]; simplify_eq; [done| |done].
    eapply frame_ok_mono; [done|]. by apply (inv_frames _ _ _ HI).
  - apply (inv_cache_bound _ _ _ HI).
  - apply (inv_cache_inj _ _ _ HI).
  - intros q Hq. destruct (inv_pending _ _ _ HI q Hq) as (t0 & h & ds & Ht0).
    exists t0, h, ds. rewrite Htasks. apply moved_old; [|done].
    intros ->. rewrite Ht in Ht0. simplify_eq. by edestruct Hnu.
  - intros i a0 h ds q Hi. rewrite Htasks in Hi.
    destruct (moved_cases _ _ _ _ _ _ Hlt Hi)
      as [[-> ?]|[[Hne Hi']|[_ (v & _ & ?)]]]; simplify_eq; [by edestruct Hnu'|].
    by eapply (inv_updating _ _ _ HI).
  - intros t1 t2 a1 a2 h1 h2 ds1 ds2 q H1 H2. rewrite Htasks in H1, H2.
    destruct (moved_cases _ _ _ _ _ _ Hlt H1)
      as [[-> ?]|[[Hne1 H1']|[_ (v & _ & ?)]]]; simplify_eq; [by edestruct Hnu'|].
    destruct (moved_cases _ _ _ _ _ _ Hlt H2)
      as [[-> ?]|[[Hne2 H2']|[_ (v & _ & ?)]]]; simplify_eq; [by edestruct Hnu'|].
    by eapply (inv_update_unique _ _ _ HI).
  - intros h q o Hq Ho.
    destruct (inv_promise _ _ _ HI h q o Hq Ho) as (evs & r & Hevs & ->).
    exists evs, r. split; [|done]. by eapply evals_mono.
  - apply (inv_invoked_nodup _ _ _ HI).
  - apply (inv_invoked_cache _ _ _ HI).
  - intros h ds ins Hin.
    destruct (inv_call_args _ _ _ HI h ds ins Hin) as (evs & Hevs & -> & ->).
    exists evs. split; [|done]. by eapply evals_mono.
Qed.

(** The resource branch on a cache miss: the pending promise enters the
    cache and the provider is called, in one transition. *)
Lemma Inv_miss σ t a h cs evs :
  Inv σ →
  tasks σ !! t = Some (Task a (ResInputs h cs)) →
  all_fulfilled σ cs = Some evs →
  cache σ !! h = None →
  Inv (lookup_or_update t a h evs σ) ∧
  extends σ (lookup_or_update t a h evs σ).
Proof.
  intros HI Ht Hall Hmiss. unfold lookup_or_update. rewrite Hmiss.
  set (q := length (promises σ)).
  set (ds := Set_from (flat_map deps evs)).
  set (σ' := goto _ _ _ _).
  assert (t < length (tasks σ)) as Hlt by (by eapply lookup_lt_Some).
  assert (tasks σ' =
          <[t := Task a (ResUpdate h ds q)]>
            (tasks σ ++ ((λ v, Task v Start) <$> [])))
    as Htasks by (simpl; by rewrite app_nil_r).
  assert (cache σ' = <[h := q]> (cache σ)) as Hcache by done.
  assert (promises σ' = promises σ ++ [None]) as Hprom by done.
  assert (calls σ' = calls σ ++ [(h, ds, value <$> evs)]) as Hcalls by done.
  destruct (inv_frames _ _ _ HI _ _ _ Ht) as [-> Hch].
  assert (evals σ (Input (heap h)) evs) as Hevs
    by (by eapply children_evals).
  assert (extends σ σ') as Hext.
  { eapply extends_moved; [done|done|done| | |].
    - rewrite Hcache. by apply insert_subseteq.
    - intros q' o Hq'. rewrite Hprom. by apply lookup_app_l_Some.
    - rewrite Hcalls. by apply prefix_app_r. }
  split; [|done]. split.
  - intros i a0 fr0 Hi. rewrite Htasks in Hi.
    destruct (moved_cases _ _ _ _ _ _ Hlt Hi)
      as [[-> ?]|[[Hne Hi']|[_ (v & Hv & ?)]]]; simplify_eq.
    + simpl. split_and!; [done|by rewrite lookup_insert_eq|].
      exists evs. split; [|done]. by eapply evals_mono.
    + eapply frame_ok_mono; [done|]. by apply (inv_frames _ _ _ HI).
  - intros h' q' Hq'. rewrite Hprom, length_app. simpl.
    rewrite Hcache in Hq'. apply lookup_insert_Some in Hq' as [[-> <-]|[_ Hq']].
    + unfold q. lia.
    + apply (inv_cache_bound _ _ _ HI) in Hq'. lia.
  - intros h1 h2 q' H1 H2. rewrite Hcache in H1, H2.
    apply lookup_insert_Some in H1 as [[-> <-]|[Hn1 H1]];
      apply lookup_insert_Some in H2 as [[-> E]|[Hn2 H2]]; try done.
    + apply (inv_cache_bound _ _ _ HI) in H2. unfold q in *. lia.
    + apply (inv_cache_bound _ _ _ HI) in H1. unfold q in *. lia.
    + by eapply (inv_cache_inj _ _ _ HI).
  - intros q' Hq'. rewrite Hprom in Hq'.
    apply lookup_app_Some in Hq' as [Hq'|[Hle Hq']].
    + destruct (inv_pending _ _ _ HI q' Hq') as (t0 & h0 & ds0 & Ht0).
      exists t0, h0, ds0. rewrite Htasks. apply moved_old; [|done].
      intros ->. rewrite Ht in Ht0. by simplify_eq.
    + apply list_lookup_singleton_Some in Hq' as [Hq' _].
      assert (q' = q) as -> by (unfold q; lia).
      exists t, h, ds. rewrite Htasks. by apply moved_self.
  - intros i a0 h' ds' q' Hi. rewrite Htasks in Hi. rewrite Hprom.
    destruct (moved_cases _ _ _ _ _ _ Hlt Hi)
      as [[-> ?]|[[Hne Hi']|[_ (v & Hv & ?)]]]; simplify_eq.
    + rewrite lookup_app_r by done. by rewrite Nat.sub_diag.
    + apply lookup_app_l_Some. by eapply (inv_updating _ _ _ HI).
  - intros t1 t2 a1 a2 h1 h2 ds1 ds2 q' H1 H2. rewrite Htasks in H1, H2.
    destruct (moved_cases _ _ _ _ _ _ Hlt H1)
      as [[-> ?]|[[Hne1 H1']|[_ (v & ? & ?)]]];
      destruct (moved_cases _ _ _ _ _ _ Hlt H2)
      as [[-> ?]|[[Hne2 H2']|[_ (v' & ? & ?)]]]; simplify_eq; try done.
    + apply (inv_updating _ _ _ HI) in H2'.
      apply lookup_lt_Some in H2'. unfold q in *. lia.
    + apply (inv_updating _ _ _ HI) in H1'.
      apply lookup_lt_Some in H1'. unfold q in *. lia.
    + by eapply (inv_update_unique _ _ _ HI).
  - intros h' q' o Hq' Ho. rewrite Hcache in Hq'. rewrite Hprom in Ho.
    apply lookup_insert_Some in Hq' as [[-> <-]|[_ Hq']].
    + rewrite lookup_app_r in Ho by done.
      rewrite Nat.sub_diag in Ho. by simplify_eq/=.
    + rewrite lookup_app_l in Ho by (by eapply (inv_cache_bound _ _ _ HI)).
      destruct (inv_promise _ _ _ HI _ _ _ Hq' Ho) as (evs' & r & Hevs' & ->).
      exists evs', r. split; [|done]. by eapply evals_mono.
  - unfold invoked. rewrite Hcalls, fmap_app. simpl.
    apply NoDup_app. split_and!.
    + apply (inv_invoked_nodup _ _ _ HI).
    + intros h' Hin ->%list_elem_of_singleton.
      apply (inv_invoked_cache _ _ _ HI) in Hin as [? Hin]. congruence.
    + apply NoDup_singleton.
  - intros h'. unfold invoked. rewrite Hcalls, Hcache, fmap_app. simpl.
    rewrite elem_of_app, list_elem_of_singleton.
    fold (invoked σ). rewrite (inv_invoked_cache _ _ _ HI).
    destruct (decide (h' = h)) as [->|Hne].
    + rewrite lookup_insert_eq. split; [by eauto|by right].
    + rewrite lookup_insert_ne by done. split; [|by left].
      by intros [?|?].
  - intros h' ds' ins Hin. rewrite Hcalls in Hin.
    apply elem_of_app in Hin as [Hin|Hin%list_elem_of_singleton].
    + destruct (inv_call_args _ _ _ HI _ _ _ Hin) as (evs' & Hevs' & -> & ->).
      exists evs'. split; [|done]. by eapply evals_mono.
    + simplify_eq. exists evs. split; [|done]. by eapply evals_mono.
Qed.

(** The provider operation awaited by [t] completes: the promise of the
    cache is settled and [t] returns it. *)
Lemma Inv_finish σ t a h ds q r :
  Inv σ →
  tasks σ !! t = Some (Task a (ResUpdate h ds q)) →
  let o := settle_update heap h ds r in
  let σ' := goto t a (Settled o)
              (State (tasks σ) (<[q := Some o]> (promises σ))
                     (cache σ) (calls σ)) in
  Inv σ' ∧ extends σ σ'.
Proof.
  intros HI Ht o σ'.
  assert (t < length (tasks σ)) as Hlt by (by eapply lookup_lt_Some).
  assert (tasks σ' =
          <[t := Task a (Settled o)]>
            (tasks σ ++ ((λ v, Task v Start) <$> [])))
    as Htasks by (simpl; by rewrite app_nil_r).
  assert (promises σ' = <[q := Some o]> (promises σ)) as Hprom by done.
  pose proof (inv_updating _ _ _ HI _ _ _ _ _ Ht) as Hpend.
  assert (q < length (promises σ)) as Hq by (by eapply lookup_lt_Some).
  destruct (inv_frames _ _ _ HI _ _ _ Ht) as (-> & Hc & evs & Hevs & ->).
  assert (extends σ σ') as Hext.
  { eapply extends_moved; [done|done|done|done| |done].
    intros q' o' Hq'. rewrite Hprom. rewrite list_lookup_insert_ne; [done|].
    intros ->. congruence. }
  split; [|done]. split.
  - intros i a0 fr0 Hi. rewrite Htasks in Hi.
    destruct (moved_cases _ _ _ _ _ _ Hlt Hi)
      as [[-> ?]|[[Hne Hi']|[_ (v & Hv & ?)]]]; simplify_eq.
    + simpl. eapply eval_res; [by eapply evals_mono|done|].
      simpl. by apply list_lookup_insert_eq.
    + eapply frame_ok_mono; [done|]. by apply (inv_frames _ _ _ HI).
  - intros h' q' Hq'. rewrite Hprom, length_insert.
    by eapply (inv_cache_bound _ _ _ HI).
  - apply (inv_cache_inj _ _ _ HI).
  - intros q' Hq'. rewrite Hprom in Hq'.
    destruct (decide (q' = q)) as [->|Hne].
    { rewrite list_lookup_insert_eq in Hq' by done. done. }
    rewrite list_lookup_insert_ne in Hq' by done.
    destruct (inv_pending _ _ _ HI q' Hq') as (t0 & h0 & ds0 & Ht0).
    exists t0, h0, ds0. rewrite Htasks. apply moved_old; [|done].
    intros ->. rewrite Ht in Ht0. by simplify_eq.
  - intros i a0 h' ds' q' Hi. rewrite Htasks in Hi. rewrite Hprom.
    destruct (moved_cases _ _ _ _ _ _ Hlt Hi)
      as [[-> ?]|[[Hne Hi']|[_ (v & Hv & ?)]]]; simplify_eq.
    rewrite list_lookup_insert_ne; [by eapply (inv_updating _ _ _ HI)|].
    intros <-. apply Hne. by eapply (inv_update_unique _ _ _ HI).
  - intros t1 t2 a1 a2 h1 h2 ds1 ds2 q' H1 H2. rewrite Htasks in H1, H2.
    destruct (moved_cases _ _ _ _ _ _ Hlt H1)
      as [[-> ?]|[[Hne1 H1']|[_ (v & ? & ?)]]];
      destruct (moved_cases _ _ _ _ _ _ Hlt H2)
      as [[-> ?]|[[Hne2 H2']|[_ (v' & ? & ?)]]]; simplify_eq.
    by eapply (inv_update_unique _ _ _ HI).
  - intros h' q' o' Hq' Ho. rewrite Hprom in Ho.
    destruct (decide (q' = q)) as [->|Hne].
    + rewrite list_lookup_insert_eq in Ho by done. simplify_eq.
      assert (h' = h) as -> by (by eapply (inv_cache_inj _ _ _ HI)).
      exists evs, r. split; [|done]. by eapply evals_mono.
    + rewrite list_lookup_insert_ne in Ho by done.
      destruct (inv_promise _ _ _ HI _ _ _ Hq' Ho) as (evs' & r' & Hevs' & ->).
      exists evs', r'. split; [|done]. by eapply evals_mono.
  - apply (inv_invoked_nodup _ _ _ HI).
  - apply (inv_invoked_cache _ _ _ HI).
  - intros h' ds' ins Hin.
    destruct (inv_call_args _ _ _ HI _ _ _ Hin) as (evs' & Hevs' & -> & ->).
    exists evs'. split; [|done]. by eapply evals_mono.
Qed.

(** A call of [evaluate] from outside. *)
Lemma Inv_call σ v :
  Inv σ → Inv (spawn [v] σ).2 ∧ extends σ (spawn [v] σ).2.
Proof.
  intros HI. set (σ' := (spawn [v] σ).2).
  assert (tasks σ' = tasks σ ++ [Task v Start]) as Htasks by done.
  assert (extends σ σ') as Hext.
  { split_and!; try done.
    - intros c w fr Hc. exists fr. rewrite Htasks. by apply lookup_app_l_Some.
    - intros c w o Hc. rewrite Htasks. by apply lookup_app_l_Some. }
  assert (∀ i a fr, tasks σ' !! i = Some (Task a fr) →
            tasks σ !! i = Some (Task a fr) ∨ fr = Start) as Hcases.
  { intros i a fr Hi. rewrite Htasks in Hi.
    apply lookup_app_Some in Hi as [Hi|[_ Hi]]; [by left|right].
    apply list_lookup_singleton_Some in Hi as [_ Hi]. by simplify_eq. }
  split; [|done]. split.
  - intros i a fr Hi. destruct (Hcases _ _ _ Hi) as [Hi'| ->]; [|done].
    eapply frame_ok_mono; [done|]. by apply (inv_frames _ _ _ HI).
  - apply (inv_cache_bound _ _ _ HI).
  - apply (inv_cache_inj _ _ _ HI).
  - intros q Hq. destruct (inv_pending _ _ _ HI q Hq) as (t0 & h & ds & Ht0).
    exists t0, h, ds. rewrite Htasks. by apply lookup_app_l_Some.
  - intros i a h ds q Hi. destruct (Hcases _ _ _ Hi) as [Hi'|?]; [|done].
    by eapply (inv_updating _ _ _ HI).
  - intros t1 t2 a1 a2 h1 h2 ds1 ds2 q H1 H2.
    destruct (Hcases _ _ _ H1) as [H1'|?]; [|done].
    destruct (Hcases _ _ _ H2) as [H2'|?]; [|done].
    by eapply (inv_update_unique _ _ _ HI).
  - intros h q o Hq Ho.
    destruct (inv_promise _ _ _ HI h q o Hq Ho) as (evs & r & Hevs & ->).
    exists evs, r. split; [|done]. by eapply evals_mono.
  - apply (inv_invoked_nodup _ _ _ HI).
  - apply (inv_invoked_cache _ _ _ HI).
  - intros h ds ins Hin.
    destruct (inv_call_args _ _ _ HI h ds ins Hin) as (evs & Hevs & -> & ->).
    exists evs. split; [|done]. by eapply evals_mono.
Qed.

Lemma Inv_move0 σ t a fr fr' :
  Inv σ →
  tasks σ !! t = Some (Task a fr) →
  (∀ o, fr ≠ Settled o) →
  (∀ h ds q, fr ≠ ResUpdate h ds q) →
  (∀ h ds q, fr' ≠ ResUpdate h ds q) →
  (extends σ (goto t a fr' σ) → frame_ok (goto t a fr' σ) t a fr') →
  Inv (goto t a fr' σ) ∧ extends σ (goto t a fr' σ).
Proof.
  intros HI Ht H1 H2 H3 H4.
  pose proof (Inv_move σ t a fr fr' [] HI Ht H1 H2 H3) as H.
  rewrite spawn_nil in H. by apply H.
Qed.

Lemma task_result σ c v fr o :
  Inv σ → tasks σ !! c = Some (Task v fr) → result_of σ c = Some o →
  eval σ v o.
Proof.
  intros HI Hc Hr. unfold result_of in Hr. rewrite Hc in Hr.
  destruct fr; simplify_eq. by apply (inv_frames _ _ _ HI) in Hc.
Qed.

Lemma child_result σ t c v o :
  Inv σ → children σ t [c] [v] → result_of σ c = Some o → eval σ v o.
Proof.
  intros HI Hch Hr. apply Forall2_cons_1 in Hch as [[_ [fr Hc]] _].
  by eapply task_result.
Qed.

Lemma children_spawn σ t a fr vs :
  t < length (tasks σ) →
  children (goto t a fr (spawn vs σ).2) t
           (seq (length (tasks σ)) (length vs)) vs.
Proof.
  intros Hlt. apply Forall2_same_length_lookup.
  split; [by rewrite length_seq|].
  intros i c v Hc Hv. apply lookup_seq in Hc as [-> _]. split; [lia|].
  exists Start. simpl. by apply moved_new.
Qed.

(** Every transition keeps the invariant and leads to a later state. *)
Lemma step_Inv σ ev σ' :
  Inv σ → step ev σ = Some σ' → Inv σ' ∧ extends σ σ'.
Proof.
  intros HI Hstep. destruct ev as [v|t|t k|t r]; simpl in Hstep.
  - simplify_eq. by apply Inv_call.
  - destruct (tasks σ !! t) as [[a fr]|] eqn:Ht; simplify_eq/=.
    assert (t < length (tasks σ)) as Hlt by (by eapply lookup_lt_Some).
    pose proof (inv_frames _ _ _ HI _ _ _ Ht) as Hok.
    destruct fr as [|h cs|h q|h ds q|f c|pd c|cs|kcs|o]; simplify_eq/=.
    + destruct a as [p|h|p f|items|entries]; simpl.
      * eapply Inv_move0; [done..|]. intros _. simpl. constructor.
      * eapply Inv_move; [done..|]. intros _. simpl.
        split; [done|]. by apply children_spawn.
      * eapply (Inv_move _ _ _ _ _ [p]); [done..|]. intros _. simpl.
        exists p. split; [done|]. by apply (children_spawn _ _ _ _ [p]).
      * eapply Inv_move; [done..|]. intros _. simpl.
        exists items. split; [done|]. by apply children_spawn.
      * eapply Inv_move; [done..|]. intros _.
        exists entries.
        assert (length (entries.*1)
                = length (seq (length (tasks σ)) (length (entries.*2))))
          as Hlen by (by rewrite length_seq, !length_fmap).
        split; [done|]. split; [by rewrite fst_zip by lia|].
        rewrite snd_zip by lia. by apply children_spawn.
    + destruct (all_fulfilled σ cs) as [evs|] eqn:Hall; simplify_eq/=.
      destruct Hok as [-> Hch].
      destruct (cache σ !! h) as [q|] eqn:Hq.
      * unfold lookup_or_update. rewrite Hq.
        eapply Inv_move0; [done..|]. intros Hext. simpl.
        split_and!; [done|done|].
        exists evs. eapply evals_mono; [done|]. by eapply children_evals.
      * by eapply Inv_miss.
    + destruct (promises σ !! q) as [[o|]|] eqn:Hq; simplify_eq/=.
      destruct Hok as (-> & Hc & evs & Hevs).
      eapply Inv_move0; [done..|]. intros Hext. simpl.
      eapply eval_mono; [done|]. by eapply eval_res.
    + destruct (result_of σ c) as [o|] eqn:Hres; simplify_eq/=.
      destruct Hok as (p & -> & Hch).
      pose proof (child_result _ _ _ _ _ HI Hch Hres) as Hp.
      destruct o as [pe|e]; simplify_eq/=.
      * destruct (fns f (value pe)) as [ret|e] eqn:Hf; simplify_eq/=.
        -- eapply (Inv_move _ _ _ _ _ [ret]); [done..|]. intros Hext. simpl.
           exists p, f, pe, ret. split_and!; try done.
           ++ by eapply eval_mono.
           ++ by apply (children_spawn _ _ _ _ [ret]).
        -- eapply Inv_move0; [done..|]. intros Hext. simpl.
           eapply eval_mono; [done|]. by eapply eval_out_throw.
      * eapply Inv_move0; [done..|]. intros Hext. simpl.
        eapply eval_mono; [done|]. by eapply eval_out_parent.
    + destruct (result_of σ c) as [o|] eqn:Hres; simplify_eq/=.
      destruct Hok as (p & f & pe & ret & -> & Hp & -> & Hf & Hch).
      pose proof (child_result _ _ _ _ _ HI Hch Hres) as Hr.
      destruct o as [ev|e]; simplify_eq/=.
      * eapply Inv_move0; [done..|]. intros Hext. simpl.
        eapply eval_mono; [done|]. by eapply eval_out.
      * eapply Inv_move0; [done..|]. intros Hext. simpl.
        eapply eval_mono; [done|]. by eapply eval_out_ret.
    + destruct (all_fulfilled σ cs) as [evs|] eqn:Hall; simplify_eq/=.
      destruct Hok as (items & -> & Hch).
      eapply Inv_move0; [done..|]. intros Hext. simpl.
      eapply eval_mono; [done|]. apply eval_arr. by eapply children_evals.
    + destruct (all_fulfilled σ (kcs.*2)) as [evs|] eqn:Hall; simplify_eq/=.
      destruct Hok as (entries & -> & Hk & Hch).
      eapply Inv_move0; [done..|]. intros Hext. simpl.
      eapply eval_mono; [done|]. rewrite Hk. apply eval_obj.
      by eapply children_evals.
  - destruct (tasks σ !! t) as [[a fr]|] eqn:Ht; simplify_eq/=.
    pose proof (inv_frames _ _ _ HI _ _ _ Ht) as Hok.
    destruct (awaited_all fr) as [cs|] eqn:Hcs; simplify_eq/=.
    destruct (cs !! k) as [c|] eqn:Hk; simplify_eq/=.
    destruct (result_of σ c) as [[ev|e]|] eqn:Hres; simplify_eq/=.
    destruct fr as [|h cs'|h q|h ds q|f c'|pd c'|cs'|kcs|o]; simplify_eq/=.
    + destruct Hok as [-> Hch].
      destruct (children_rejected _ _ _ _ _ _ _ HI Hch Hk Hres)
        as (v & Hv & Hrej).
      eapply Inv_move0; [done..|]. intros Hext. simpl.
      eapply eval_mono; [done|]. by eapply eval_res_rejected.
    + destruct Hok as (items & -> & Hch).
      destruct (children_rejected _ _ _ _ _ _ _ HI Hch Hk Hres)
        as (v & Hv & Hrej).
      eapply Inv_move0; [done..|]. intros Hext. simpl.
      eapply eval_mono; [done|]. by eapply eval_arr_rejected.
    + destruct Hok as (entries & -> & Hkeys & Hch).
      destruct (children_rejected _ _ _ _ _ _ _ HI Hch Hk Hres)
        as (v & Hv & Hrej).
      eapply Inv_move0; [done..|]. intros Hext. simpl.
      eapply eval_mono; [done|]. by eapply eval_obj_rejected.
  - destruct (tasks σ !! t) as [[a fr]|] eqn:Ht; simplify_eq/=.
    destruct fr as [|h cs'|h q|h ds q|f c'|pd c'|cs'|kcs|o]; simplify_eq/=.
    by apply Inv_finish.
Qed.

Lemma Inv_init : Inv init.
Proof.
  split; try done.
  - apply NoDup_nil_2.
  - intros h. unfold invoked. simpl. rewrite lookup_empty.
    split; [by intros ?%elem_of_nil|by intros [? ?]].
  - intros h ds ins Hin. by apply elem_of_nil in Hin.
Qed.

Lemma run_Inv evs σ σ' :
  Inv σ → run evs σ = Some σ' → Inv σ' ∧ extends σ σ'.
Proof.
  revert σ. induction evs as [|ev evs IH]; intros σ HI Hrun; simpl in Hrun.
  - simplify_eq. split; [done|apply extends_refl].
  - destruct (step ev σ) as [σ1|] eqn:Hstep; simplify_eq/=.
    destruct (step_Inv _ _ _ HI Hstep) as [HI1 Hext1].
    destruct (IH _ HI1 Hrun) as [HI' Hext']. split; [done|].
    by eapply extends_trans.
Qed.

Lemma reachable_Inv σ : reachable σ → Inv σ.
Proof. intros [evs Hrun]. by eapply run_Inv; [apply Inv_init|]. Qed.

End Preservation.

(** ** The activations behind a frame *)

Lemma result_of_mono σ σ' c o :
  extends σ σ' → result_of σ c = Some o → result_of σ' c = Some o.
Proof.
  intros (_ & Hs & _) H. unfold result_of in *.
  destruct (tasks σ !! c) as [[v [| | | | | | | |o']]|] eqn:Hc; simplify_eq.
  by rewrite (Hs _ _ _ Hc).
Qed.

Lemma all_fulfilled_mono σ σ' cs evs :
  extends σ σ' → all_fulfilled σ cs = Some evs →
  all_fulfilled σ' cs = Some evs.
Proof.
  intros Hext. unfold all_fulfilled. rewrite !mapM_Some.
  intros H. eapply Forall2_impl; [exact H|].
  intros c ev Hc. unfold fulfilled in *.
  destruct (result_of σ c) as [[ev'|]|] eqn:Hr; simplify_eq.
  by rewrite (result_of_mono _ _ _ _ Hext Hr).
Qed.

Section Tracing.

Variable heap : nat → Resource.
Variable fns : nat → jsval → completion.

Notation eval := (eval heap fns).
Notation evals := (evals heap fns).
Notation step := (step heap fns).
Notation run := (run heap fns).
Notation Inv := (Inv heap fns).
Notation frame_ok := (frame_ok heap fns).
Notation origin_ok := (origin_ok heap fns).
Notation Traced := (Traced heap fns).
Notation reachable := (reachable heap fns).

Lemma origin_ok_mono σ σ' t a fr :
  extends σ σ' → origin_ok σ t a fr → origin_ok σ' t a fr.
Proof.
  intros Hext.
  destruct fr as [|h cs|h q|h ds q|f c|pd c|cs|kcs|[ev|e]]; simpl; try done.
  - intros (cs & evs & H1 & H2). exists cs, evs.
    eauto using children_mono, all_fulfilled_mono.
  - intros (cs & evs & H1 & H2 & H3). exists cs, evs.
    eauto using children_mono, all_fulfilled_mono.
  - intros (p & f & c0 & pe & ret & H1 & H2 & H3 & H4 & H5 & H6 & H7).
    exists p, f, c0, pe, ret.
    split_and!; eauto using children_mono, result_of_mono.
  - destruct a as [p|h|p f|items|entries]; try done.
    + intros (cs & evs & H1 & H2). exists cs, evs.
      eauto using children_mono, all_fulfilled_mono.
    + intros (c0 & pe & ret & c & rev & H1 & H2 & H3 & H4 & H5 & H6 & H7).
      exists c0, pe, ret, c, rev.
      split_and!; eauto using children_mono, result_of_mono.
    + intros (cs & evs & H1 & H2 & H3). exists cs, evs.
      eauto using children_mono, all_fulfilled_mono.
    + intros (cs & evs & H1 & H2 & H3). exists cs, evs.
      eauto using children_mono, all_fulfilled_mono.
Qed.

Lemma Traced_moved σ σ' t a fr' vs :
  Traced σ →
  extends σ σ' →
  t < length (tasks σ) →
  tasks σ' = <[t := Task a fr']> (tasks σ ++ ((λ v, Task v Start) <$> vs)) →
  origin_ok σ' t a fr' →
  Traced σ'.
Proof.
  intros HT Hext Hlt Htasks Hok i a0 fr0 Hi. rewrite Htasks in Hi.
  destruct (moved_cases _ _ _ _ _ _ Hlt Hi)
    as [[-> ?]|[[Hne Hi']|[_ (v & _ & ?)]]]; simplify_eq; [done| |done].
  eapply origin_ok_mono; [done|]. by apply HT.
Qed.

Lemma Traced_moved0 σ σ' t a fr' :
  Traced σ →
  extends σ σ' →
  t < length (tasks σ) →
  tasks σ' = <[t := Task a fr']> (tasks σ) →
  origin_ok σ' t a fr' →
  Traced σ'.
Proof.
  intros HT Hext Hlt Htasks. apply (Traced_moved σ σ' t a fr' []); try done.
  simpl. by rewrite app_nil_r.
Qed.

Lemma child_lt σ t c v : children σ t [c] [v] → c < length (tasks σ).
Proof.
  intros [[_ [fr Hc]] _]%Forall2_cons_1. by eapply lookup_lt_Some.
Qed.

Lemma step_Traced σ ev σ' :
  Inv σ → Traced σ → step ev σ = Some σ' → Traced σ'.
Proof.
  intros HI HT Hstep.
  destruct (step_Inv _ _ _ _ _ HI Hstep) as [HI' Hext].
  destruct ev as [v|t|t k|t r]; simpl in Hstep.
  - simplify_eq. intros i a fr Hi. simpl in Hi.
    apply lookup_app_Some in Hi as [Hi|[_ Hi]].
    + eapply origin_ok_mono; [done|]. by apply HT.
    + apply list_lookup_singleton_Some in Hi as [_ Hi]. by simplify_eq.
  - destruct (tasks σ !! t) as [[a fr]|] eqn:Ht; simplify_eq/=.
    assert (t < length (tasks σ)) as Hlt by (by eapply lookup_lt_Some).
    pose proof (inv_frames _ _ _ HI _ _ _ Ht) as Hok.
    pose proof (HT _ _ _ Ht) as Hor.
    destruct fr as [|h cs|h q|h ds q|f c|pd c|cs|kcs|o]; simplify_eq/=.
    + destruct a as [p|h|p f|items|entries].
      * by eapply Traced_moved0.
      * by eapply Traced_moved.
      * by eapply (Traced_moved _ _ _ _ _ [p]).
      * by eapply Traced_moved.
      * by eapply Traced_moved.
    + destruct (all_fulfilled σ cs) as [evs|] eqn:Hall; simplify_eq/=.
      destruct Hok as [-> Hch].
      unfold lookup_or_update in *.
      destruct (cache σ !! h) as [q|] eqn:Hq.
      * eapply Traced_moved0; [done..|]. simpl. exists cs, evs.
        eauto using children_mono, all_fulfilled_mono.
      * eapply Traced_moved0; [done..|]. simpl. exists cs, evs.
        split_and!; eauto using children_mono, all_fulfilled_mono.
    + destruct (promises σ !! q) as [[o|]|] eqn:Hq; simplify_eq/=.
      destruct Hok as (-> & _).
      eapply Traced_moved0; [done..|]. simpl.
      destruct o as [ev|e]; [|done].
      destruct Hor as (cs & evs & H1 & H2). exists cs, evs.
      eauto using children_mono, all_fulfilled_mono.
    + destruct (result_of σ c) as [o|] eqn:Hres; simplify_eq/=.
      destruct Hok as (p & -> & Hch).
      destruct o as [pe|e]; simplify_eq/=.
      * destruct (fns f (value pe)) as [ret|e] eqn:Hf; simplify_eq/=.
        -- eapply (Traced_moved _ _ _ _ _ [ret]); [done..|]. simpl.
           exists p, f, c, pe, ret.
           split_and!; eauto using children_mono, result_of_mono, child_lt.
           by apply (children_spawn _ _ _ _ [ret]).
        -- by eapply Traced_moved0.
      * by eapply Traced_moved0.
    + destruct (result_of σ c) as [o|] eqn:Hres; simplify_eq/=.
      destruct Hor as (p & f & c0 & pe & ret & -> & H2 & H3 & H4 & -> & H6 & H7).
      destruct o as [ev|e]; simplify_eq/=.
      * eapply Traced_moved0; [done..|]. simpl.
        exists c0, pe, ret, c, ev.
        split_and!; eauto using children_mono, result_of_mono.
      * by eapply Traced_moved0.
    + destruct (all_fulfilled σ cs) as [evs|] eqn:Hall; simplify_eq/=.
      destruct Hok as (items & -> & Hch).
      eapply Traced_moved0; [done..|]. simpl. exists cs, evs.
      split_and!; eauto using children_mono, all_fulfilled_mono.
    + destruct (all_fulfilled σ (kcs.*2)) as [evs|] eqn:Hall; simplify_eq/=.
      destruct Hok as (entries & -> & Hk & Hch).
      eapply Traced_moved0; [done..|]. simpl. exists (kcs.*2), evs.
      split_and!; [by eapply children_mono|by eapply all_fulfilled_mono
                  |by rewrite Hk].
  - destruct (tasks σ !! t) as [[a fr]|] eqn:Ht; simplify_eq/=.
    assert (t < length (tasks σ)) as Hlt by (by eapply lookup_lt_Some).
    destruct (awaited_all fr) as [cs|] eqn:Hcs; simplify_eq/=.
    destruct (cs !! k) as [c|] eqn:Hk; simplify_eq/=.
    destruct (result_of σ c) as [[ev|e]|] eqn:Hres; simplify_eq/=.
    by eapply Traced_moved0.
  - destruct (tasks σ !! t) as [[a fr]|] eqn:Ht; simplify_eq/=.
    assert (t < length (tasks σ)) as Hlt by (by eapply lookup_lt_Some).
    pose proof (inv_frames _ _ _ HI _ _ _ Ht) as Hok.
    pose proof (HT _ _ _ Ht) as Hor.
    destruct fr as [|h cs'|h q|h ds q|f c'|pd c'|cs'|kcs|o]; simplify_eq/=.
    destruct Hok as (-> & _).
    eapply Traced_moved0; [done..|]. simpl.
    destruct r as [v|e]; simpl; [|done].
    destruct Hor as (cs & evs & H1 & H2 & _). exists cs, evs.
    eauto using children_mono, all_fulfilled_mono.
Qed.

Lemma run_Traced evs σ σ' :
  Inv σ → Traced σ → run evs σ = Some σ' → Traced σ'.
Proof.
  revert σ. induction evs as [|ev evs IH]; intros σ HI HT Hrun; simpl in Hrun.
  - by simplify_eq.
  - destruct (step ev σ) as [σ1|] eqn:Hstep; simplify_eq/=.
    destruct (step_Inv _ _ _ _ _ HI Hstep) as [HI1 _].
    apply (IH σ1); [done| |done]. exact (step_Traced _ _ _ HI HT Hstep).
Qed.

Lemma reachable_Traced σ : reachable σ → Traced σ.
Proof.
  intros [evs Hrun]. eapply run_Traced; [apply Inv_init| |done].
  intros t a fr Ht. done.
Qed.

End Tracing.

(** ** Counting invocations *)

Lemma filter_eq_NoDup_length (l : list nat) (x : nat) :
  NoDup l → length (filter (λ y, y = x) l) = if bool_decide (x ∈ l) then 1 else 0.
Proof.
  induction 1 as [|y l Hy Hl IH]; [done|].
  rewrite filter_cons. destruct (decide (y = x)) as [->|Hne]; simpl.
  - rewrite IH. rewrite (bool_decide_eq_false_2 _ Hy).
    rewrite bool_decide_eq_true_2; [done|]. by left.
  - rewrite IH. apply (f_equal (λ b : bool, if b then 1 else 0)).
    apply bool_decide_ext. rewrite elem_of_cons.
    split; [by right|]. intros [?|?]; [congruence|done].
Qed.

Section Guarantees.

Variable heap : nat → Resource.
Variable fns : nat → jsval → completion.

Notation eval := (eval heap fns).
Notation evals := (evals heap fns).
Notation step := (step heap fns).
Notation run := (run heap fns).
Notation Inv := (Inv heap fns).
Notation frame_ok := (frame_ok heap fns).
Notation reachable := (reachable heap fns).

Lemma reachable_run σ evs σ' :
  reachable σ → run evs σ = Some σ' → reachable σ'.
Proof.
  intros [evs0 H0] H. exists (evs0 ++ evs). revert H0.
  generalize init. induction evs0 as [|ev evs0 IH]; intros σ0 H0; simpl in *.
  - by simplify_eq.
  - destruct (step ev σ0); simplify_eq/=. by apply IH.
Qed.

Lemma invocations_le_1 σ h : Inv σ → invocations σ h ≤ 1.
Proof.
  intros HI. unfold invocations.
  rewrite filter_eq_NoDup_length by apply (inv_invoked_nodup _ _ _ HI).
  case_bool_decide; lia.
Qed.

Lemma invocations_cached σ h q :
  Inv σ → cache σ !! h = Some q → invocations σ h = 1.
Proof.
  intros HI Hq. unfold invocations.
  rewrite filter_eq_NoDup_length by apply (inv_invoked_nodup _ _ _ HI).
  rewrite bool_decide_eq_true_2; [done|].
  apply (inv_invoked_cache _ _ _ HI). eauto.
Qed.

(** Once the promise of the cache for [h] is settled, the evaluation of
    [h] can settle in no other way. *)
Lemma resource_settles_as_cached σ h q o o' :
  Inv σ →
  cache σ !! h = Some q →
  promises σ !! q = Some (Some o) →
  eval σ (Res h) o' →
  o' = o.
Proof.
  intros HI Hq Ho H.
  apply eval_res_inv in H as [(evs & q' & _ & Hq' & Ho')|(v & e & Hv & He & _)].
  - congruence.
  - destruct (inv_promise _ _ _ HI _ _ _ Hq Ho) as (evs & r & Hevs & _).
    by destruct (evals_not_rejected _ _ _ _ _ _ _ Hevs Hv He).
Qed.

Lemma settled_eval σ t a o :
  Inv σ → tasks σ !! t = Some (Task a (Settled o)) → eval σ a o.
Proof. intros HI Ht. by apply (inv_frames _ _ _ HI) in Ht. Qed.

(** C8. A value that is neither a resource, an [Output], an array nor
    an object is returned unchanged with an empty dependency list: the
    activation called on it settles in one transition, without touching
    the cache, the promises or the providers, and in every state the
    module can reach such an activation is either not yet run or
    fulfilled with the value itself and no dependency. *)
Theorem C8_primitive_unchanged_no_deps (v : jsval) :
  isResource v = false →
  instanceof_Output v = false →
  Array_isArray v = false →
  is_object v = false →
  (∀ σ t, tasks σ !! t = Some (Task v Start) →
     ∃ σ', step (Resume t) σ = Some σ' ∧
           result_of σ' t = Some (Fulfilled (Build_Evaluated v [])) ∧
           apply σ' t = Some v ∧
           promises σ' = promises σ ∧ cache σ' = cache σ ∧
           calls σ' = calls σ) ∧
  (∀ σ t fr, reachable σ → tasks σ !! t = Some (Task v fr) →
     fr = Start ∨ fr = Settled (Fulfilled (Build_Evaluated v []))).
Proof.
  intros H1 H2 H3 H4. destruct v as [p| | | |]; try done. split.
  - intros σ t Ht. eexists. simpl. rewrite Ht. simpl. split; [done|].
    assert (t < length (tasks σ)) as Hlt by (by eapply lookup_lt_Some).
    unfold apply, fulfilled, result_of. simpl.
    by rewrite list_lookup_insert_eq.
  - intros σ t fr Hreach Ht. apply reachable_Inv in Hreach.
    pose proof (inv_frames _ _ _ Hreach _ _ _ Ht) as Hok.
    destruct fr; simpl in Hok;
      [by left|by destruct Hok|by destruct Hok|by destruct Hok
      |by destruct Hok as (?&?&?)|by destruct Hok as (?&?&?&?&?&?)
      |by destruct Hok as (?&?&?)|by destruct Hok as (?&?&?)|].
    right. by apply eval_prim_inv in Hok as ->.
Qed.

(** An activation that waits for the elements of an array stays there
    until it is settled. *)
Lemma array_frame_step σ ev σ' t items cs :
  step ev σ = Some σ' →
  tasks σ !! t = Some (Task (Arr items) (ArrItems cs)) →
  tasks σ' !! t = Some (Task (Arr items) (ArrItems cs)) ∨
  ∃ o, tasks σ' !! t = Some (Task (Arr items) (Settled o)).
Proof.
  intros Hstep Ht.
  assert (t < length (tasks σ)) as Hlt by (by eapply lookup_lt_Some).
  assert (∀ t0 tk N, t0 ≠ t →
            (<[t0 := tk]> (tasks σ ++ N)) !! t
            = Some (Task (Arr items) (ArrItems cs))) as Hother.
  { intros t0 tk N Hne. by apply moved_old. }
  assert (∀ t0 tk, t0 ≠ t →
            (<[t0 := tk]> (tasks σ)) !! t
            = Some (Task (Arr items) (ArrItems cs))) as Hother0.
  { intros t0 tk Hne. by rewrite list_lookup_insert_ne. }
  destruct ev as [v|t0|t0 k|t0 r]; simpl in Hstep.
  - simplify_eq. left. simpl. by apply lookup_app_l_Some.
  - destruct (decide (t0 = t)) as [->|Hne].
    + rewrite Ht in Hstep. simpl in Hstep.
      destruct (all_fulfilled σ cs) as [evs|]; simplify_eq/=.
      right. eexists. by apply list_lookup_insert_eq.
    + destruct (tasks σ !! t0) as [[a fr]|] eqn:Ht0; simplify_eq/=. left.
      destruct fr as [|h cs0|h q|h ds q|f c|pd c|cs0|kcs|o]; simplify_eq/=.
      * destruct a as [p|h|p f|items0|entries]; simpl; auto.
      * destruct (all_fulfilled σ cs0) as [evs|]; simplify_eq/=.
        unfold lookup_or_update. destruct (cache σ !! h); simpl; auto.
      * destruct (promises σ !! q) as [[o|]|]; simplify_eq/=. auto.
      * destruct (result_of σ c) as [[pe|e]|]; simplify_eq/=; auto.
        destruct (fns f (value pe)); simplify_eq/=; auto.
      * destruct (result_of σ c) as [[ev|e]|]; simplify_eq/=; auto.
      * destruct (all_fulfilled σ cs0) as [evs|]; simplify_eq/=. auto.
      * destruct (all_fulfilled σ (kcs.*2)) as [evs|]; simplify_eq/=. auto.
  - destruct (tasks σ !! t0) as [[a fr]|] eqn:Ht0; simplify_eq/=.
    destruct (awaited_all fr) as [cs0|]; simplify_eq/=.
    destruct (cs0 !! k) as [c|]; simplify_eq/=.
    destruct (result_of σ c) as [[ev|e]|]; simplify_eq/=.
    destruct (decide (t0 = t)) as [->|Hne]; [|by left; apply Hother0].
    right. eexists. simpl. rewrite list_lookup_insert_eq by done.
    by simplify_eq.
  - destruct (tasks σ !! t0) as [[a fr]|] eqn:Ht0; simplify_eq/=.
    destruct fr as [|h cs0|h q|h ds q|f c|pd c|cs0|kcs|o]; simplify_eq/=.
    left. destruct (decide (t0 = t)) as [->|Hne]; [|by apply Hother0].
    by simplify_eq.
Qed.

Lemma array_frame_run evs σ σ' t items cs :
  run evs σ = Some σ' →
  tasks σ !! t = Some (Task (Arr items) (ArrItems cs)) →
  tasks σ' !! t = Some (Task (Arr items) (ArrItems cs)) ∨
  ∃ o, tasks σ' !! t = Some (Task (Arr items) (Settled o)).
Proof.
  revert σ. induction evs as [|ev evs IH]; intros σ Hrun Ht; simpl in Hrun.
  { simplify_eq. by left. }
  destruct (step ev σ) as [σ1|] eqn:Hstep; simplify_eq/=.
  destruct (array_frame_step _ _ _ _ _ _ Hstep Ht) as [Ht1|[o Ht1]]; [eauto|].
  right. exists o.
  revert Hrun Ht1. clear. revert σ1.
  induction evs as [|ev evs IH]; intros σ1 Hrun Ht1; simpl in Hrun.
  { by simplify_eq. }
  destruct (step ev σ1) as [σ2|] eqn:Hstep; simplify_eq/=.
  apply (IH σ2); [done|].
  assert (t < length (tasks σ1)) as Hlt by (by eapply lookup_lt_Some).
  destruct ev as [v|t0|t0 k|t0 r]; simpl in Hstep.
  - simplify_eq. simpl. by apply lookup_app_l_Some.
  - destruct (decide (t0 = t)) as [->|Hne].
    { rewrite Ht1 in Hstep. by simpl in Hstep. }
    destruct (tasks σ1 !! t0) as [[a fr]|] eqn:Ht0; simplify_eq/=.
    destruct fr as [|h cs0|h q|h ds q|f c|pd c|cs0|kcs|o0]; simplify_eq/=.
    + destruct a as [p|h|p f|items0|entries]; simpl;
        (apply moved_old || rewrite list_lookup_insert_ne); done.
    + destruct (all_fulfilled σ1 cs0) as [evs0|]; simplify_eq/=.
      unfold lookup_or_update. destruct (cache σ1 !! h); simpl;
        by rewrite list_lookup_insert_ne.
    + destruct (promises σ1 !! q) as [[o0|]|]; simplify_eq/=.
      by rewrite list_lookup_insert_ne.
    + destruct (result_of σ1 c) as [[pe|e]|]; simplify_eq/=;
        [|by rewrite list_lookup_insert_ne].
      destruct (fns f (value pe)); simplify_eq/=;
        [by apply moved_old|by rewrite list_lookup_insert_ne].
    + destruct (result_of σ1 c) as [[ev0|e]|]; simplify_eq/=;
        by rewrite list_lookup_insert_ne.
    + destruct (all_fulfilled σ1 cs0) as [evs0|]; simplify_eq/=.
      by rewrite list_lookup_insert_ne.
    + destruct (all_fulfilled σ1 (kcs.*2)) as [evs0|]; simplify_eq/=.
      by rewrite list_lookup_insert_ne.
  - destruct (tasks σ1 !! t0) as [[a fr]|] eqn:Ht0; simplify_eq/=.
    destruct (awaited_all fr) as [cs0|] eqn:Haw; simplify_eq/=.
    destruct (cs0 !! k) as [c|]; simplify_eq/=.
    destruct (result_of σ1 c) as [[ev0|e]|]; simplify_eq/=.
    destruct (decide (t0 = t)) as [->|Hne];
      [|by rewrite list_lookup_insert_ne].
    by simplify_eq.
  - destruct (tasks σ1 !! t0) as [[a fr]|] eqn:Ht0; simplify_eq/=.
    destruct fr as [|h cs0|h q|h ds q|f c|pd c|cs0|kcs|o0]; simplify_eq/=.
    destruct (decide (t0 = t)) as [->|Hne];
      [by simplify_eq|by rewrite list_lookup_insert_ne].
Qed.

(** C7. In every state the module can reach, by whatever order of
    resumptions and provider completions: [evaluate] can be called on an
    array, and the call makes an activation; resumed, that activation
    calls [evaluate] on every element, in the order of the elements, and
    waits for these activations; whenever, in whatever later state, they
    are all fulfilled, the activation has returned, or returns as soon as
    it is resumed, the array of the same length whose position [i] holds
    the value the activation called on element [i] returned, with the
    dependencies of the elements in that order.  An activation called on
    an array that is fulfilled has called one activation per element, in
    the order of the elements; all of them are fulfilled, and its result
    is that array.  No activation called on element [i] can settle
    otherwise. *)
Theorem C7_array_order_preserved (σ : state) (t : nat) (items : list jsval) :
  reachable σ →
  (∀ ev, tasks σ !! t = Some (Task (Arr items) (Settled (Fulfilled ev))) →
     ∃ cs evs,
       children σ t cs items ∧
       all_fulfilled σ cs = Some evs ∧
       value ev = Arr (value <$> evs) ∧
       length evs = length items ∧
       (∀ i item, items !! i = Some item →
          ∃ c evi, cs !! i = Some c ∧ evs !! i = Some evi ∧
                   (∃ fr, tasks σ !! c = Some (Task item fr)) ∧
                   result_of σ c = Some (Fulfilled evi) ∧
                   ∀ c' o, tasks σ !! c' = Some (Task item (Settled o)) →
                           o = Fulfilled evi) ∧
       deps ev = flat_map deps evs ∧
       list_to_set (C := gset string) (deps ev)
       = ⋃ ((λ e, list_to_set (deps e)) <$> evs)) ∧
  (∀ cs, tasks σ !! t = Some (Task (Arr items) (ArrItems cs)) →
     children σ t cs items ∧
     ∀ evs, all_fulfilled σ cs = Some evs →
       ∃ σ', step (Resume t) σ = Some σ' ∧
             result_of σ' t
             = Some (Fulfilled (Build_Evaluated (Arr (value <$> evs))
                                                (flat_map deps evs)))) ∧
  (∃ σ', step (Call (Arr items)) σ = Some σ' ∧
         tasks σ' !! length (tasks σ) = Some (Task (Arr items) Start)) ∧
  (tasks σ !! t = Some (Task (Arr items) Start) →
     ∃ σ', step (Resume t) σ = Some σ' ∧
           tasks σ' !! t
           = Some (Task (Arr items)
                     (ArrItems (seq (length (tasks σ)) (length items)))) ∧
           ∀ i item, items !! i = Some item →
             tasks σ' !! (length (tasks σ) + i) = Some (Task item Start)) ∧
  (∀ cs evts σ2 evs,
     tasks σ !! t = Some (Task (Arr items) (ArrItems cs)) →
     run evts σ = Some σ2 →
     all_fulfilled σ2 cs = Some evs →
     result_of σ2 t
     = Some (Fulfilled (Build_Evaluated (Arr (value <$> evs))
                                        (flat_map deps evs))) ∨
     tasks σ2 !! t = Some (Task (Arr items) (ArrItems cs)) ∧
     ∃ σ3, step (Resume t) σ2 = Some σ3 ∧
           result_of σ3 t
           = Some (Fulfilled (Build_Evaluated (Arr (value <$> evs))
                                              (flat_map deps evs)))).
Proof.
  intros Hreach. pose proof (reachable_Inv _ _ _ Hreach) as HI.
  pose proof (reachable_Traced _ _ _ Hreach) as HT. split_and!.
  - intros ev Ht. destruct (HT _ _ _ Ht) as (cs & evs & Hch & Hall & ->).
    pose proof (children_evals _ _ _ _ _ _ _ HI Hch Hall) as Hevs.
    exists cs, evs.
    split_and!; [done|done|done|by eapply evals_length| |done|].
    + intros i item Hi.
      destruct (Forall2_lookup_r _ _ _ _ _ Hch Hi) as (c & Hc & _ & Hfr).
      apply mapM_Some in Hall.
      destruct (Forall2_lookup_l _ _ _ _ _ Hall Hc) as (evi & Hevi & Hful).
      exists c, evi. split_and!; [done|done|done| |].
      * unfold fulfilled in Hful.
        by destruct (result_of σ c) as [[?|?]|]; simplify_eq.
      * intros c' o Hc'. apply (settled_eval _ _ _ _ HI) in Hc'.
        apply evals_Forall2 in Hevs.
        destruct (Forall2_lookup_l _ _ _ _ _ Hevs Hi) as (evi' & ? & He).
        simplify_eq. by eapply eval_det.
    + simpl. apply list_to_set_flat_map.
  - intros cs Ht. pose proof (inv_frames _ _ _ HI _ _ _ Ht) as Hok.
    destruct Hok as (items' & [= <-] & Hch). split; [done|].
    intros evs Hall. eexists. simpl. rewrite Ht. simpl. rewrite Hall.
    simpl. split; [done|].
    assert (t < length (tasks σ)) as Hlt by (by eapply lookup_lt_Some).
    unfold result_of. simpl. by rewrite list_lookup_insert_eq.
  - eexists. split; [done|]. simpl.
    by rewrite lookup_app_r, Nat.sub_diag by lia.
  - intros Ht. eexists. simpl. rewrite Ht. simpl. split; [done|].
    assert (t < length (tasks σ)) as Hlt by (by eapply lookup_lt_Some).
    split.
    + by apply moved_self.
    + intros i item Hi. by apply moved_new.
  - intros cs evts σ2 evs Ht Hrun Hall.
    pose proof (reachable_run _ _ _ Hreach Hrun) as Hreach2.
    pose proof (reachable_Inv _ _ _ Hreach2) as HI2.
    destruct (run_Inv _ _ _ _ _ HI Hrun) as [_ Hext].
    pose proof (inv_frames _ _ _ HI _ _ _ Ht) as (items' & [= <-] & Hch).
    pose proof (children_mono _ _ _ _ _ Hext Hch) as Hch2.
    pose proof (children_evals _ _ _ _ _ _ _ HI2 Hch2 Hall) as Hevs.
    destruct (array_frame_run _ _ _ _ _ _ Hrun Ht) as [Ht2|[o Ht2]].
    + right. split; [done|]. eexists. simpl. rewrite Ht2. simpl.
      rewrite Hall. simpl. split; [done|].
      assert (t < length (tasks σ2)) as Hlt by (by eapply lookup_lt_Some).
      unfold result_of. simpl. by rewrite list_lookup_insert_eq.
    + left. unfold result_of. rewrite Ht2. f_equal.
      apply (settled_eval _ _ _ _ HI2) in Ht2.
      apply eval_arr_inv in Ht2
        as [(evs' & Hevs' & ->)|(v & e & Hin & Hrej & _)].
      * by rewrite (evals_det _ _ _ _ _ _ Hevs Hevs').
      * by destruct (evals_not_rejected _ _ _ _ _ _ _ Hevs Hin Hrej).
Qed.

(** C2. In every state the module can reach, a fulfilled activation
    called on an array or on an object has called one activation per
    element, all fulfilled, and its dependencies are, as a set, the union
    of the dependencies they returned; a fulfilled activation called on a
    resource has called one activation per input, all fulfilled, and its
    dependencies are the id of the resource followed by the set of the
    dependencies they returned: as a set, its own id together with the
    union of the dependencies of its inputs. *)
Theorem C2_dependency_closure (σ : state) (t : nat) (ev : Evaluated) :
  reachable σ →
  (∀ items,
     tasks σ !! t = Some (Task (Arr items) (Settled (Fulfilled ev))) →
     ∃ cs evs, children σ t cs items ∧ all_fulfilled σ cs = Some evs ∧
       list_to_set (C := gset string) (deps ev)
       = ⋃ ((λ e, list_to_set (deps e)) <$> evs)) ∧
  (∀ entries,
     tasks σ !! t = Some (Task (Obj entries) (Settled (Fulfilled ev))) →
     ∃ cs evs, children σ t cs (entries.*2) ∧
       all_fulfilled σ cs = Some evs ∧
       list_to_set (C := gset string) (deps ev)
       = ⋃ ((λ e, list_to_set (deps e)) <$> evs)) ∧
  (∀ h,
     tasks σ !! t = Some (Task (Res h) (Settled (Fulfilled ev))) →
     ∃ cs evs, children σ t cs (Input (heap h)) ∧
       all_fulfilled σ cs = Some evs ∧
       deps ev = ResourceID (heap h) :: Set_from (flat_map deps evs) ∧
       list_to_set (C := gset string) (deps ev)
       = {[ ResourceID (heap h) ]}
         ∪ ⋃ ((λ e, list_to_set (deps e)) <$> evs)).
Proof.
  intros Hreach. pose proof (reachable_Inv _ _ _ Hreach) as HI.
  pose proof (reachable_Traced _ _ _ Hreach) as HT. split_and!.
  - intros items Ht. destruct (HT _ _ _ Ht) as (cs & evs & Hch & Hall & ->).
    exists cs, evs. split_and!; [done..|]. apply list_to_set_flat_map.
  - intros entries Ht.
    destruct (HT _ _ _ Ht) as (cs & evs & Hch & Hall & ->).
    exists cs, evs. split_and!; [done..|]. apply list_to_set_flat_map.
  - intros h Ht. destruct (HT _ _ _ Ht) as (cs & evs & Hch & Hall).
    pose proof (children_evals _ _ _ _ _ _ _ HI Hch Hall) as Hevs.
    apply (settled_eval _ _ _ _ HI) in Ht.
    apply eval_res_inv in Ht
      as [(evs0 & q & _ & Hq & Ho)|(? & ? & _ & _ & ?)]; [|done].
    destruct (inv_promise _ _ _ HI _ _ _ Hq Ho) as (evs1 & r & Hevs1 & Hr).
    assert (evs1 = evs) as -> by (by eapply evals_det).
    exists cs, evs. split_and!; [done|done| |].
    + destruct r as [v|e]; simpl in Hr; [|done]. by injection Hr as ->.
    + destruct r as [v|e]; simpl in Hr; [|done]. injection Hr as ->.
      simpl. by rewrite list_to_set_Set_from, list_to_set_flat_map.
Qed.


Lemma finish_settles σ t a h ds q r σ' :
  Inv σ →
  tasks σ !! t = Some (Task a (ResUpdate h ds q)) →
  step (Finish t r) σ = Some σ' →
  cache σ' !! h = Some q ∧
  promises σ' !! q = Some (Some (settle_update heap h ds r)) ∧
  result_of σ' t = Some (settle_update heap h ds r).
Proof.
  intros HI Ht Hstep. simpl in Hstep. rewrite Ht in Hstep. simplify_eq/=.
  destruct (inv_frames _ _ _ HI _ _ _ Ht) as (_ & Hc & _).
  pose proof (inv_updating _ _ _ HI _ _ _ _ _ Ht) as Hq%lookup_lt_Some.
  assert (t < length (tasks σ)) as Hlt by (by eapply lookup_lt_Some).
  split_and!; [done|by apply list_lookup_insert_eq|].
  unfold result_of. simpl. by rewrite list_lookup_insert_eq.
Qed.

(** What persists of a settled entry of the cache. *)
Lemma cached_forever σ h q o evs σ' :
  Inv σ →
  cache σ !! h = Some q →
  promises σ !! q = Some (Some o) →
  run evs σ = Some σ' →
  cache σ' !! h = Some q ∧
  promises σ' !! q = Some (Some o) ∧
  invocations σ h = 1 ∧
  invocations σ' h = 1 ∧
  (∀ t o', tasks σ' !! t = Some (Task (Res h) (Settled o')) → o' = o) ∧
  (∀ t a q', tasks σ' !! t = Some (Task a (ResCached h q')) →
     ∃ σ'', step (Resume t) σ' = Some σ'' ∧ calls σ'' = calls σ' ∧
            result_of σ'' t = Some o).
Proof.
  intros HI Hq Ho Hrun.
  destruct (run_Inv _ _ _ _ _ HI Hrun) as [HI' (_ & _ & Hc & Hp & _)].
  assert (cache σ' !! h = Some q) as Hq' by (by eapply lookup_weaken).
  assert (promises σ' !! q = Some (Some o)) as Ho' by eauto.
  split_and!; [done|done|by eapply invocations_cached
              |by eapply invocations_cached| |].
  - intros t o' Ht. apply (settled_eval _ _ _ _ HI') in Ht.
    by eapply resource_settles_as_cached.
  - intros t a q' Ht.
    destruct (inv_frames _ _ _ HI' _ _ _ Ht) as (_ & Hq'' & _).
    assert (q' = q) as -> by congruence.
    assert (t < length (tasks σ')) as Hlt by (by eapply lookup_lt_Some).
    eexists. simpl. rewrite Ht. simpl. rewrite Ho'.
    split_and!; [done|done|].
    unfold result_of. simpl. by rewrite list_lookup_insert_eq.
Qed.

(** C1. In every state the module can reach, the provider operation of a
    resource has been invoked at most once, however many activations
    refer to the resource.  The transition that invokes it is the one
    that finds no entry in the cache, and it puts the pending promise
    into the cache before the operation is awaited; as long as the
    operation is awaited the entry is there and pending, and it is awaited
    by one activation only.  An activation that finds the entry awaits
    that promise and invokes nothing.  Every fulfilled activation called
    on the resource holds the result of the entry of the cache, so that
    any two of them hold the same result, and the operation was then
    invoked exactly once. *)
Theorem C1_provider_invoked_once (σ : state) (h : nat) :
  reachable σ →
  invocations σ h ≤ 1 ∧
  (∀ t a cs evs,
     tasks σ !! t = Some (Task a (ResInputs h cs)) →
     all_fulfilled σ cs = Some evs →
     match cache σ !! h with
     | None =>
         ∃ σ', step (Resume t) σ = Some σ' ∧
           cache σ' !! h = Some (length (promises σ)) ∧
           promises σ' !! length (promises σ) = Some None ∧
           invoked σ' = invoked σ ++ [h] ∧
           tasks σ' !! t
           = Some (Task a (ResUpdate h (Set_from (flat_map deps evs))
                                     (length (promises σ))))
     | Some q =>
         ∃ σ', step (Resume t) σ = Some σ' ∧
           calls σ' = calls σ ∧
           tasks σ' !! t = Some (Task a (ResCached h q))
     end) ∧
  (∀ t a ds q,
     tasks σ !! t = Some (Task a (ResUpdate h ds q)) →
     cache σ !! h = Some q ∧ promises σ !! q = Some None ∧
     invocations σ h = 1 ∧
     ∀ t' a' ds' q',
       tasks σ !! t' = Some (Task a' (ResUpdate h ds' q')) → t' = t) ∧
  (∀ t a q,
     tasks σ !! t = Some (Task a (ResCached h q)) →
     cache σ !! h = Some q ∧ invocations σ h = 1) ∧
  (∀ t ev,
     tasks σ !! t = Some (Task (Res h) (Settled (Fulfilled ev))) →
     invocations σ h = 1 ∧
     ∃ q, cache σ !! h = Some q ∧
          promises σ !! q = Some (Some (Fulfilled ev))) ∧
  (∀ t1 t2 ev1 ev2,
     tasks σ !! t1 = Some (Task (Res h) (Settled (Fulfilled ev1))) →
     tasks σ !! t2 = Some (Task (Res h) (Settled (Fulfilled ev2))) →
     ev1 = ev2).
Proof.
  intros HI%reachable_Inv. split_and!.
  - by apply invocations_le_1.
  - intros t a cs evs Ht Hall.
    assert (t < length (tasks σ)) as Hlt by (by eapply lookup_lt_Some).
    destruct (cache σ !! h) as [q|] eqn:Hq.
    + eexists. simpl. rewrite Ht. simpl. rewrite Hall. simpl.
      unfold lookup_or_update. rewrite Hq. split_and!; [done|done|].
      simpl. by apply list_lookup_insert_eq.
    + eexists. simpl. rewrite Ht. simpl. rewrite Hall. simpl.
      unfold lookup_or_update. rewrite Hq. split_and!; [done| | | |].
      * simpl. by rewrite lookup_insert_eq.
      * simpl. rewrite lookup_app_r by done. by rewrite Nat.sub_diag.
      * unfold invoked. simpl. by rewrite fmap_app.
      * simpl. by apply list_lookup_insert_eq.
  - intros t a ds q Ht.
    destruct (inv_frames _ _ _ HI _ _ _ Ht) as (_ & Hq & _).
    split_and!; [done|by eapply (inv_updating _ _ _ HI)
                |by eapply invocations_cached|].
    intros t' a' ds' q' Ht'.
    destruct (inv_frames _ _ _ HI _ _ _ Ht') as (_ & Hq' & _).
    assert (q' = q) as -> by congruence.
    by eapply (inv_update_unique _ _ _ HI).
  - intros t a q Ht.
    destruct (inv_frames _ _ _ HI _ _ _ Ht) as (_ & Hq & _).
    split; [done|by eapply invocations_cached].
  - intros t ev Ht. apply (settled_eval _ _ _ _ HI) in Ht.
    apply eval_res_inv in Ht
      as [(evs & q & _ & Hq & Ho)|(? & ? & _ & _ & ?)]; [|done].
    split; [by eapply invocations_cached|eauto].
  - intros t1 t2 ev1 ev2 Ht1 Ht2.
    apply (settled_eval _ _ _ _ HI) in Ht1, Ht2.
    pose proof (eval_det _ _ _ _ _ _ Ht1 Ht2). by simplify_eq.
Qed.

(** C5. When the provider operation awaited for a resource fails, the
    promise of the cache is rejected with the error and stays in the
    cache: in every later state the entry is the same rejected promise,
    the activation that awaited the operation and every other settled
    activation called on the resource are rejected with that error, an
    activation that waits for the entry is rejected with it when it
    resumes, and the operation has been invoked once. *)
Theorem C5_failure_is_cached (σ : state) (t : nat) (a : jsval) (h : nat)
    (ds : list string) (q : nat) (e : jsval) (evs : list event)
    (σ' : state) :
  reachable σ →
  tasks σ !! t = Some (Task a (ResUpdate h ds q)) →
  run (Finish t (Throw e) :: evs) σ = Some σ' →
  cache σ' !! h = Some q ∧
  promises σ' !! q = Some (Some (Rejected e)) ∧
  result_of σ' t = Some (Rejected e) ∧
  (∀ t' o, tasks σ' !! t' = Some (Task (Res h) (Settled o)) →
     o = Rejected e) ∧
  (∀ t' a' q', tasks σ' !! t' = Some (Task a' (ResCached h q')) →
     ∃ σ'', step (Resume t') σ' = Some σ'' ∧ calls σ'' = calls σ' ∧
            result_of σ'' t' = Some (Rejected e)) ∧
  invocations σ' h = 1.
Proof.
  intros HI%reachable_Inv Ht Hrun.
  change (step (Finish t (Throw e)) σ ≫= run evs = Some σ') in Hrun.
  destruct (step (Finish t (Throw e)) σ) as [σ1|] eqn:Hstep; [|done].
  change (run evs σ1 = Some σ') in Hrun.
  destruct (step_Inv _ _ _ _ _ HI Hstep) as [HI1 _].
  destruct (finish_settles _ _ _ _ _ _ _ _ HI Ht Hstep) as (Hq & Ho & Hres).
  simpl in Ho, Hres.
  destruct (cached_forever _ _ _ _ _ _ HI1 Hq Ho Hrun)
    as (Hq' & Ho' & _ & Hinv & Hsettled & Hwait).
  split_and!; try done.
  destruct (run_Inv _ _ _ _ _ HI1 Hrun) as [_ (_ & Hs & _)].
  unfold result_of in *.
  destruct (tasks σ1 !! t) as [[a1 [| | | | | | | |o1]]|] eqn:Ht1;
    simplify_eq/=.
  by rewrite (Hs _ _ _ Ht1).
Qed.

(** C4, as the code has it.  The cache belongs to the module, not to a
    pass: a settled entry stays for every later call of [evaluate] in
    the process.  After any further events, among them new passes, the
    entry is the same settled promise, every settled activation called
    on the resource holds its settlement, an activation that waits for
    the entry receives it without any provider call, and the provider
    operation of the resource has still been invoked once. *)
Theorem C4_cache_is_module_wide (σ : state) (h q : nat) (o : settlement)
    (evs : list event) (σ' : state) :
  reachable σ →
  cache σ !! h = Some q →
  promises σ !! q = Some (Some o) →
  run evs σ = Some σ' →
  cache σ' !! h = Some q ∧
  promises σ' !! q = Some (Some o) ∧
  invocations σ h = 1 ∧
  invocations σ' h = 1 ∧
  (∀ t o', tasks σ' !! t = Some (Task (Res h) (Settled o')) → o' = o) ∧
  (∀ t a q', tasks σ' !! t = Some (Task a (ResCached h q')) →
     ∃ σ'', step (Resume t) σ' = Some σ'' ∧ calls σ'' = calls σ' ∧
            result_of σ'' t = Some o).
Proof. intros HI%reachable_Inv. by apply cached_forever. Qed.

End Guarantees.

(** ** No activation waits for ever *)

Lemma all_settled_cases σ cs :
  (∀ c, c ∈ cs → ∃ o, result_of σ c = Some o) →
  (∃ evs, all_fulfilled σ cs = Some evs) ∨
  (∃ k c e, cs !! k = Some c ∧ result_of σ c = Some (Rejected e)).
Proof.
  induction cs as [|c cs IH]; intros Hall.
  - left. by exists [].
  - destruct (Hall c) as [[ev|e] Hc]; [by left| |].
    + destruct IH as [[evs Hevs]|(k & c' & e & Hk & Hc')].
      * intros c' Hc'. apply Hall. by right.
      * left. exists (ev :: evs).
        assert (fulfilled σ c = Some ev) as Hf
          by (unfold fulfilled; by rewrite Hc).
        unfold all_fulfilled in *. cbn [mapM]. rewrite Hf. simpl.
        by rewrite Hevs.
      * right. by exists (S k), c', e.
    + right. by exists 0, c, e.
Qed.

Lemma children_settled_or σ t cs vs :
  children σ t cs vs →
  (∀ c, c ∈ cs → ∃ o, result_of σ c = Some o) ∨
  (∃ c tk, t < c ∧ tasks σ !! c = Some tk ∧ ∀ o, at_ tk ≠ Settled o).
Proof.
  induction 1 as [|c v cs vs [Hlt [fr Hc]] _ IH].
  - left. by intros c ?%elem_of_nil.
  - destruct IH as [IH|IH]; [|by right].
    assert ((∃ o, fr = Settled o) ∨ ∀ o, fr ≠ Settled o) as [[o ->]|Hns]
      by (destruct fr; eauto).
    + left. intros c' [->|Hc']%elem_of_cons; [|by apply IH].
      exists o. unfold result_of. by rewrite Hc.
    + right. by exists c, (Task v fr).
Qed.

Section Progress.

Variable heap : nat → Resource.
Variable fns : nat → jsval → completion.

Notation step := (step heap fns).
Notation Inv := (Inv heap fns).
Notation reachable := (reachable heap fns).

Lemma awaiting_all_enabled σ t a fr cs :
  tasks σ !! t = Some (Task a fr) →
  awaited_all fr = Some cs →
  (∀ c, c ∈ cs → ∃ o, result_of σ c = Some o) →
  ∃ ev, (∀ v, ev ≠ Call v) ∧ is_Some (step ev σ).
Proof.
  intros Ht Hcs Hall.
  destruct (all_settled_cases _ _ Hall) as [[evs Hevs]|(k & c & e & Hk & Hc)].
  - exists (Resume t). split; [done|]. simpl. rewrite Ht. simpl.
    destruct fr; simplify_eq/=; rewrite Hevs; simpl; by eexists.
  - exists (RejectAll t k). split; [done|]. simpl. rewrite Ht. simpl.
    rewrite Hcs. simpl. rewrite Hk. simpl. rewrite Hc. simpl. by eexists.
Qed.

Lemma awaiting_one_enabled σ t a fr c o :
  tasks σ !! t = Some (Task a fr) →
  (∃ f, fr = OutParent f c) ∨ (∃ pd, fr = OutRet pd c) →
  result_of σ c = Some o →
  ∃ ev, (∀ v, ev ≠ Call v) ∧ is_Some (step ev σ).
Proof.
  intros Ht Hfr Hc. exists (Resume t). split; [done|]. simpl.
  rewrite Ht. simpl.
  destruct Hfr as [[f ->]|[pd ->]]; simpl; rewrite Hc; simpl.
  - destruct o as [pe|e]; [|by eexists].
    destruct (fns f (value pe)); by eexists.
  - destruct o; by eexists.
Qed.

Lemma progress_aux σ n :
  Inv σ →
  ∀ t tk, tasks σ !! t = Some tk →
    (∀ o, at_ tk ≠ Settled o) →
    length (tasks σ) - t ≤ n →
    ∃ ev, (∀ v, ev ≠ Call v) ∧ is_Some (step ev σ).
Proof.
  intros HI. induction n as [|n IH]; intros t [a fr] Ht Hns Hn.
  { apply lookup_lt_Some in Ht. lia. }
  assert (t < length (tasks σ)) as Hlt by (by eapply lookup_lt_Some).
  pose proof (inv_frames _ _ _ HI _ _ _ Ht) as Hok.
  assert (∀ cs vs, children σ t cs vs → awaited_all fr = Some cs →
            ∃ ev, (∀ v, ev ≠ Call v) ∧ is_Some (step ev σ)) as Hall.
  { intros cs vs Hch Hcs.
    destruct (children_settled_or _ _ _ _ Hch) as [Hs|(c & tk & Hc & Htk & Hn')].
    - by eapply awaiting_all_enabled.
    - eapply (IH c tk); [done|done|lia]. }
  assert (∀ c v, children σ t [c] [v] →
            (∃ f, fr = OutParent f c) ∨ (∃ pd, fr = OutRet pd c) →
            ∃ ev, (∀ v, ev ≠ Call v) ∧ is_Some (step ev σ)) as Hone.
  { intros c v Hch Hfr.
    destruct (children_settled_or _ _ _ _ Hch) as [Hs|(c' & tk & Hc & Htk & Hn')].
    - destruct (Hs c) as [o Ho]; [by left|]. by eapply awaiting_one_enabled.
    - eapply (IH c' tk); [done|done|lia]. }
  destruct fr as [|h cs|h q|h ds q|f c|pd c|cs|kcs|o]; simpl in Hok.
  - exists (Resume t). split; [done|]. simpl. rewrite Ht. simpl. by eexists.
  - destruct Hok as [_ Hch]. by eapply Hall.
  - destruct Hok as (_ & Hq & _).
    pose proof (inv_cache_bound _ _ _ HI _ _ Hq) as Hb.
    destruct (lookup_lt_is_Some_2 _ _ Hb) as [[o|] Ho].
    + exists (Resume t). split; [done|]. simpl. rewrite Ht. simpl.
      rewrite Ho. by eexists.
    + destruct (inv_pending _ _ _ HI _ Ho) as (t0 & h0 & ds0 & Ht0).
      exists (Finish t0 (Normal (Prim PUndefined))). split; [done|].
      simpl. rewrite Ht0. simpl. by eexists.
  - exists (Finish t (Normal (Prim PUndefined))). split; [done|].
    simpl. rewrite Ht. simpl. by eexists.
  - destruct Hok as (p & _ & Hch). eapply Hone; [done|]. left. by eexists.
  - destruct Hok as (p & f & pe & ret & _ & _ & _ & _ & Hch).
    eapply Hone; [done|]. right. by eexists.
  - destruct Hok as (items & _ & Hch). by eapply Hall.
  - destruct Hok as (entries & _ & _ & Hch). by eapply Hall.
  - by destruct (Hns o).
Qed.

(** X18. As long as some activation is not settled, the evaluator can move
    without any new call from outside: an activation can be resumed, a
    [Promise.all] can reject, or a provider operation is in flight. *)
Theorem evaluate_never_stuck σ t tk :
  reachable σ →
  tasks σ !! t = Some tk →
  (∀ o, at_ tk ≠ Settled o) →
  ∃ ev, (∀ v, ev ≠ Call v) ∧ is_Some (step ev σ).
Proof.
  intros HI%reachable_Inv Ht Hns. by eapply progress_aux.
Qed.

End Progress.

(** ** The evaluator on the example program *)

Lemma twice_B_runs :
  run demo_heap demo_fns twice_B init = Some (demo_run twice_B).
Proof. vm_compute. reflexivity. Qed.

(** [B] is reached twice and [A] four times; each provider is invoked
    once, [A] before [B]. *)
Example twice_B_invoked : invoked (demo_run twice_B) = [0; 1].
Proof. vm_compute. reflexivity. Qed.

Example twice_B_result :
  result_of (demo_run twice_B) 0
  = Some (Fulfilled
            {| value := Arr [Prim (PStr "b"); Prim (PStr "b")];
               deps := ["B"; "A"; "B"; "A"] |}).
Proof. vm_compute. reflexivity. Qed.

(** The operation of [C] completes first; the result keeps the order of
    the input. *)
Example A_then_C_result :
  result_of (demo_run A_then_C) 0
  = Some (Fulfilled
            {| value := Arr [Prim (PStr "a"); Prim (PStr "c")];
               deps := ["A"; "C"] |}).
Proof. vm_compute. reflexivity. Qed.

Example output_of_A_result :
  result_of (demo_run output_of_A) 0
  = Some (Fulfilled
            {| value := Arr [Prim (PStr "a"); Prim (PStr "x")];
               deps := ["A"] |}).
Proof. vm_compute. reflexivity. Qed.

Example object_with_A_result :
  result_of (demo_run object_with_A) 0
  = Some (Fulfilled
            {| value := Obj [("k", Prim (PStr "a")); ("n", Prim (PNum 1))];
               deps := ["A"] |}).
Proof. vm_compute. reflexivity. Qed.

(** C1 at the example: [B] is reached twice, its provider is invoked
    once. *)
Lemma C1_witness :
  reachable demo_heap demo_fns (demo_run twice_B) ∧
  invocations (demo_run twice_B) 1 = 1.
Proof.
  assert (reachable demo_heap demo_fns (demo_run twice_B)) as H
    by (exists twice_B; vm_compute; reflexivity).
  split; [exact H|].
  destruct (C1_provider_invoked_once _ _ _ 1 H) as (_ & _ & _ & _ & H5 & _).
  destruct (H5 1 {| value := Prim (PStr "b"); deps := ["B"; "A"] |})
    as [Hone _]; [vm_compute; reflexivity|exact Hone].
Defined.

(** C2 at the example: the dependencies of [B]. *)
Lemma C2_witness :
  reachable demo_heap demo_fns (demo_run twice_B) ∧
  ∃ cs evs,
    children (demo_run twice_B) 1 cs (Input (demo_heap 1)) ∧
    all_fulfilled (demo_run twice_B) cs = Some evs ∧
    list_to_set (C := gset string) ["B"; "A"]
    = {[ "B" ]} ∪ ⋃ ((λ e, list_to_set (deps e)) <$> evs).
Proof.
  assert (reachable demo_heap demo_fns (demo_run twice_B)) as H
    by (exists twice_B; vm_compute; reflexivity).
  split; [exact H|].
  destruct (C2_dependency_closure _ _ _ 1
              {| value := Prim (PStr "b"); deps := ["B"; "A"] |} H)
    as (_ & _ & H3).
  destruct (H3 1) as (cs & evs & H1 & H2 & _ & H4);
    [vm_compute; reflexivity|].
  exists cs, evs. repeat split; assumption.
Defined.

(** C5 at the example: the operation of [A] fails while a second
    activation waits for the entry of the cache; a third one, called
    afterwards, is rejected with the same error. *)
Lemma C5_witness :
  reachable demo_heap demo_fns (demo_run twice_A_waiting) ∧
  result_of
    (demo_run (twice_A_waiting
               ++ Finish 1 (Throw (Prim (PStr "boom"))) :: after_failure)) 3
  = Some (Rejected (Prim (PStr "boom"))) ∧
  invocations
    (demo_run (twice_A_waiting
               ++ Finish 1 (Throw (Prim (PStr "boom"))) :: after_failure)) 0
  = 1.
Proof.
  assert (reachable demo_heap demo_fns (demo_run twice_A_waiting)) as H
    by (exists twice_A_waiting; vm_compute; reflexivity).
  split; [exact H|].
  destruct (C5_failure_is_cached demo_heap demo_fns
              (demo_run twice_A_waiting) 1 (Res 0) 0 [] 0
              (Prim (PStr "boom")) after_failure
              (demo_run (twice_A_waiting
                 ++ Finish 1 (Throw (Prim (PStr "boom"))) :: after_failure))
              H)
    as (_ & _ & _ & H4 & _ & H6);
    [vm_compute; reflexivity|vm_compute; reflexivity|].
  split; [|exact H6].
  vm_compute. reflexivity.
Defined.


(** C7 at the example, where the second element completes first. *)
Lemma C7_witness :
  reachable demo_heap demo_fns (demo_run A_then_C) ∧
  (∃ cs evs,
     children (demo_run A_then_C) 0 cs [Res 0; Res 2] ∧
     all_fulfilled (demo_run A_then_C) cs = Some evs ∧
     tasks (demo_run A_then_C) !! 0
     = Some (Task (Arr [Res 0; Res 2])
               (Settled (Fulfilled {| value := Arr (value <$> evs);
                                      deps := ["A"; "C"] |}))) ∧
     value <$> evs = [Prim (PStr "a"); Prim (PStr "c")]) ∧
  (∃ σ', step demo_heap demo_fns (Resume 0)
           (demo_run [Call (Arr [Res 0; Res 2])]) = Some σ' ∧
         tasks σ' !! 0
         = Some (Task (Arr [Res 0; Res 2]) (ArrItems [1; 2]))) ∧
  (∃ σ3, step demo_heap demo_fns (Resume 0)
           (demo_run (removelast A_then_C)) = Some σ3 ∧
         result_of σ3 0
         = Some (Fulfilled
                   {| value := Arr [Prim (PStr "a"); Prim (PStr "c")];
                      deps := ["A"; "C"] |})).
Proof.
  assert (reachable demo_heap demo_fns (demo_run A_then_C)) as H
    by (exists A_then_C; vm_compute; reflexivity).
  assert (reachable demo_heap demo_fns
            (demo_run [Call (Arr [Res 0; Res 2])])) as H0
    by (exists [Call (Arr [Res 0; Res 2])]; vm_compute; reflexivity).
  assert (reachable demo_heap demo_fns
            (demo_run [Call (Arr [Res 0; Res 2]); Resume 0])) as H1
    by (exists [Call (Arr [Res 0; Res 2]); Resume 0]; vm_compute;
        reflexivity).
  split_and!; [exact H| | |].
  - destruct (C7_array_order_preserved _ _ _ 0 [Res 0; Res 2] H)
      as (Hdone & _).
    destruct (Hdone {| value := Arr [Prim (PStr "a"); Prim (PStr "c")];
                       deps := ["A"; "C"] |})
      as (cs & evs & Hch & Hall & Hv & _); [vm_compute; reflexivity|].
    simpl in Hv. injection Hv as Hv.
    exists cs, evs. split_and!; [exact Hch|exact Hall| |by symmetry].
    rewrite <- Hv. vm_compute. reflexivity.
  - destruct (C7_array_order_preserved _ _ _ 0 [Res 0; Res 2] H0)
      as (_ & _ & _ & Hstart & _).
    destruct Hstart as (σ' & Hs & Ht & _); [vm_compute; reflexivity|].
    exists σ'. split; [exact Hs|exact Ht].
  - destruct (C7_array_order_preserved _ _ _ 0 [Res 0; Res 2] H1)
      as (_ & _ & _ & _ & Hlater).
    destruct (Hlater [1; 2]
                [Resume 1; Resume 2; Resume 1; Resume 2;
                 Finish 2 (Normal (Prim (PStr "c")));
                 Finish 1 (Normal (Prim (PStr "a")))]
                (demo_run (removelast A_then_C))
                [{| value := Prim (PStr "a"); deps := ["A"] |};
                 {| value := Prim (PStr "c"); deps := ["C"] |}])
      as [Hres|(_ & σ3 & Hs & Hr)]; try (vm_compute; reflexivity).
    + vm_compute in Hres. discriminate Hres.
    + exists σ3. split; [exact Hs|exact Hr].
Defined.

(** C8 at a string. *)
Lemma C8_witness :
  ∃ σ', step demo_heap demo_fns (Resume 0)
          (demo_run [Call (Prim (PStr "x"))]) = Some σ' ∧
        apply σ' 0 = Some (Prim (PStr "x")).
Proof.
  destruct (C8_primitive_unchanged_no_deps demo_heap demo_fns
              (Prim (PStr "x")) eq_refl eq_refl eq_refl eq_refl) as [H _].
  destruct (H (demo_run [Call (Prim (PStr "x"))]) 0 eq_refl)
    as (σ' & Hs & _ & Ha & _).
  exists σ'. split; assumption.
Defined.

(** C4 refuted as stated: the second pass over [A] is fulfilled from the
    cache of the first, without any call of the provider. *)
Lemma C4_counterexample : ¬ pass_scoped_cache demo_heap demo_fns.
Proof.
  intros H.
  specialize (H first_pass (demo_run first_pass) 0
                [Resume 1; Resume 1; Resume 1]
                (demo_run (first_pass ++ second_pass))
                {| value := Prim (PStr "a"); deps := ["A"] |}).
  assert (invocations (demo_run first_pass) 0
          < invocations (demo_run (first_pass ++ second_pass)) 0) as Hlt.
  { apply H.
    - vm_compute. reflexivity.
    - vm_compute. repeat constructor. by eexists.
    - vm_compute. reflexivity.
    - vm_compute. reflexivity.
    - vm_compute. reflexivity. }
  vm_compute in Hlt. lia.
Qed.

(** C4 at the example: one invocation over both passes. *)
Lemma C4_witness :
  reachable demo_heap demo_fns (demo_run first_pass) ∧
  invocations (demo_run (first_pass ++ second_pass)) 0 = 1 ∧
  result_of (demo_run (first_pass ++ second_pass)) 1
  = Some (Fulfilled {| value := Prim (PStr "a"); deps := ["A"] |}).
Proof.
  assert (reachable demo_heap demo_fns (demo_run first_pass)) as H
    by (exists first_pass; vm_compute; reflexivity).
  split; [exact H|].
  destruct (C4_cache_is_module_wide demo_heap demo_fns
              (demo_run first_pass) 0 0
              (Fulfilled {| value := Prim (PStr "a"); deps := ["A"] |})
              second_pass (demo_run (first_pass ++ second_pass)) H)
    as (_ & _ & _ & H4 & _ & _);
    [vm_compute; reflexivity..|].
  split; [exact H4|]. vm_compute. reflexivity.
Defined.

(** ** Reconciliation *)

Lemma NoDup_singleton_list {A} (l : list A) (b : A) :
  NoDup l → (∀ x, x ∈ l ↔ x = b) → l = [b].
Proof.
  intros Hnd Hl. destruct l as [|x l].
  - exfalso. eapply elem_of_nil. by apply Hl.
  - assert (x = b) as -> by (apply Hl; by left).
    destruct l as [|y l]; [done|].
    assert (y = b) as -> by (apply Hl; right; by left).
    apply NoDup_cons_1_1 in Hnd. exfalso. apply Hnd. by left.
Qed.

Lemma elem_of_priorRecordIds (store : gmap string StateRecord) (id : string) :
  id ∈ priorRecordIds store ↔ id ∈ dom store.
Proof.
  unfold priorRecordIds. rewrite elem_of_dom, list_elem_of_fmap. split.
  - intros ([i r] & -> & Hin). apply elem_of_map_to_list in Hin. by eexists.
  - intros [r Hr]. exists (id, r). split; [done|].
    by apply elem_of_map_to_list.
Qed.

Lemma NoDup_priorRecordIds (store : gmap string StateRecord) :
  NoDup (priorRecordIds store).
Proof. apply NoDup_fst_map_to_list. Qed.

Lemma elem_of_orphans store results id :
  id ∈ orphans store results ↔ id ∈ dom store ∧ id ∉ touchedIds results.
Proof.
  unfold orphans. rewrite list_elem_of_filter, elem_of_priorRecordIds. tauto.
Qed.

(** C3 (on the reconciler as the specification describes it).  When the
    store of the scope records [A] and [B] from the previous run and the
    dependency sets of the top-level evaluations of this pass hold [A]
    and not [B], [finalize] invokes the delete operation for [B] and for
    nothing else, in particular not for [A]; the record of [A] stays, and
    the record of [B] is removed when its deletion succeeds. *)
Theorem C3_finalize_deletes_orphan (destroy : string → bool)
    (store : gmap string StateRecord) (results : list Evaluated)
    (A B : string) :
  A ≠ B →
  dom store = {[A; B]} →
  A ∈ touchedIds results →
  B ∉ touchedIds results →
  orphans store results = [B] ∧
  delete_calls (finalize destroy store results) = [B] ∧
  (A ∉ delete_calls (finalize destroy store results)) ∧
  store_after (finalize destroy store results) !! A = store !! A ∧
  (destroy B = true →
   store_after (finalize destroy store results) !! B = None) ∧
  (destroy B = false →
   (not_deleted (finalize destroy store results) = [B] ∧
    store_after (finalize destroy store results) = store)).
Proof.
  intros Hne Hdom HA HB.
  assert (orphans store results = [B]) as Ho.
  { apply NoDup_singleton_list.
    - apply NoDup_filter, NoDup_priorRecordIds.
    - intros x. rewrite elem_of_orphans, Hdom, elem_of_union.
      rewrite !elem_of_singleton. split.
      + intros [[->| ->] Hx]; [done|done].
      + intros ->. split; [by right|done]. }
  unfold finalize. rewrite Ho. simpl. split_and!; try done.
  - by intros ->%list_elem_of_singleton.
  - destruct (destroy B); [|done]. by rewrite lookup_delete_ne.
  - intros ->. by rewrite lookup_delete_eq.
  - intros Hd. rewrite Hd. split; [|done]. rewrite filter_cons.
    by case_decide.
Qed.

(** C3 at a store with two records, when the pass touched [A] only. *)
Lemma C3_witness :
  delete_calls
    (finalize (λ _, true)
       {[ "A" := Build_StateRecord "fs::File" (Prim PNull) (Prim PNull) []
                   created;
          "B" := Build_StateRecord "fs::File" (Prim PNull) (Prim PNull) []
                   created ]}
       [ {| value := Prim (PStr "a"); deps := ["A"] |} ])
  = ["B"].
Proof.
  apply (C3_finalize_deletes_orphan (λ _, true) _ _ "A" "B").
  - discriminate.
  - vm_compute. reflexivity.
  - vm_compute. left.
  - vm_compute. intros H. inversion H as [|? ? ? H']. inversion H'.
Defined.

(** ** The file providers in phase [delete] *)

Lemma File_delete_absent env id props :
  fs_unlink env (default id (file_path <$> props)) = FsError "ENOENT" →
  File env phase_delete id props = Destroyed.
Proof. intros H. unfold File. by rewrite H. Qed.

Lemma Folder_delete_absent env id props :
  fs_rmdir env (default id (props ≫= folder_path)) = FsError "ENOENT" →
  Folder env phase_delete id props = Destroyed.
Proof. intros H. unfold Folder. rewrite H. simpl. by case_bool_decide. Qed.

Lemma TypeScriptFile_delete_absent {A} env id path (generate : provided A) :
  fs_mkdir env (path_dirname env path) = FsOk →
  fs_unlink env path = FsError "ENOENT" →
  TypeScriptFile env phase_delete id path generate = Destroyed.
Proof. intros H1 H2. unfold TypeScriptFile. by rewrite H1, H2. Qed.

(** Whatever the phase, [ai::TypeScriptFile] fails when the directory of
    the file cannot be made. *)
Lemma TypeScriptFile_mkdir_fails {A} env ph id path (generate : provided A) c :
  fs_mkdir env (path_dirname env path) = FsError c →
  TypeScriptFile env ph id path generate = Thrown c.
Proof. intros H. unfold TypeScriptFile. by rewrite H. Qed.

(** C9, where the code departs from it.  With the target absent and its
    directory impossible to make, [fs::File] and [fs::Folder] swallow
    [ENOENT] and destroy the resource, while [ai::TypeScriptFile], which
    makes the directory before it looks at the phase, fails with the
    error of [mkdir] and does not reach [this.destroy()]. *)
Theorem C9_delete_when_absent :
  File read_only_parent phase_delete "gen"
    (Some {| file_path := "out/gen.ts"; file_content := "" |}) = Destroyed ∧
  Folder read_only_parent phase_delete "out" None = Destroyed ∧
  TypeScriptFile read_only_parent phase_delete "gen" "out/gen.ts"
    (Returned tt) = Thrown "EACCES" ∧
  TypeScriptFile targets_absent phase_delete "gen" "out/gen.ts"
    (Returned tt) = Destroyed.
Proof. split_and!; reflexivity. Qed.

(** ** [extractTypeScriptCode] *)

Lemma any_char_true c : any_char c = true.
Proof. unfold any_char. by destruct (is_space c). Qed.

Lemma strip_app cs s s' : strip cs s = Some s' → s = cs ++ s'.
Proof.
  revert s. induction cs as [|c cs IH]; intros [|d s]; simpl; try done.
  - by intros [= ->].
  - by intros [= ->].
  - destruct (N.eqb_spec c d) as [->|]; [|done].
    intros H. by rewrite (IH _ H).
Qed.

Lemma strip_fence_space c s : is_space c = true → strip fence (c :: s) = None.
Proof.
  intros Hc. change fence with [96; 96; 96]%N. cbn [strip].
  destruct (N.eqb_spec 96 c) as [<-|]; [|done].
  vm_compute in Hc. discriminate.
Qed.

Lemma until_fence_app s body rest :
  until_fence s = Some (body, rest) → s = body ++ fence ++ rest.
Proof.
  revert body. induction s as [|c s IH]; intros body; cbn [until_fence].
  - destruct (strip fence []) as [r|] eqn:E; [|done].
    intros [= <- <-]. by apply strip_app in E.
  - destruct (strip fence (c :: s)) as [r|] eqn:E.
    + intros [= <- <-]. by apply strip_app in E.
    + destruct (until_fence s) as [[b r]|]; [|done].
      intros [= <- <-]. by rewrite (IH b eq_refl).
Qed.

Lemma until_fence_space c s :
  is_space c = true → until_fence s = None → until_fence (c :: s) = None.
Proof.
  intros Hc Hs. cbn [until_fence]. rewrite (strip_fence_space _ _ Hc).
  by rewrite Hs.
Qed.

(** The lazy [[\s\S]*?] followed by the closing backquotes stops at the
    first three backquotes. *)
Lemma star_lazy_until_fence {R} (F : nat → list N → R) u :
  star false any_char u
    (λ s3, match strip fence s3 with
           | Some s4 => Some (F (length s3) s4)
           | None => None
           end)
  = match until_fence u with
    | Some (body, rest) => Some (F (length u - length body) rest)
    | None => None
    end.
Proof.
  induction u as [|c u IH].
  - cbn [star until_fence]. by destruct (strip fence []).
  - cbn [star until_fence]. rewrite any_char_true.
    destruct (strip fence (c :: u)) as [s4|] eqn:E.
    + by rewrite Nat.sub_0_r.
    + rewrite IH. by destruct (until_fence u) as [[body rest]|].
Qed.

(** The greedy [\s*] gives nothing back when what follows fails after the
    white space and cannot succeed from inside it. *)
Lemma star_greedy_space {R} (k : list N → option R) s :
  (∀ c u, is_space c = true → k u = None → k (c :: u) = None) →
  star true is_space s k = k (trimStart s).
Proof.
  intros Hk.
  assert (∀ u, k (trimStart u) = None → k u = None) as Hback.
  { induction u as [|c u IH]; simpl; [done|].
    destruct (is_space c) eqn:Hc; [|done]. intros H. apply Hk; auto. }
  induction s as [|c s IH]; simpl; [done|].
  destruct (is_space c) eqn:Hc; [|done].
  rewrite IH. destruct (k (trimStart s)) eqn:E; [done|].
  apply Hk; auto.
Qed.

(** One attempt of the regular expression finds the block that opens at
    the start of the text. *)
Lemma exec_tsCodeRegex s :
  exec tsCodeRegex s
  = (λ br : list N * list N,
       ([take (length s - length br.2) s; br.1], br.2)) <$> block_at s.
Proof.
  unfold exec, tsCodeRegex, block_at. cbn [rmatch].
  change (fence ++ of_ascii "ts") with (of_ascii "```ts").
  destruct (strip (of_ascii "```ts") s) as [s1|]; [|done]. simpl.
  change (of_ascii "```") with fence.
  assert (∀ u,
    star false any_char u
      (λ s3, match strip fence s3 with
             | Some s4 =>
                 Some (take (length s - length s4) s
                         :: [] ++ [take (length u - length s3) u], s4)
             | None => None
             end)
    = (λ br : list N * list N,
         ([take (length s - length br.2) s; br.1], br.2)) <$> until_fence u)
    as Hlazy.
  { intros u.
    rewrite (star_lazy_until_fence
               (λ n s4, (take (length s - length s4) s
                           :: [] ++ [take (length u - n) u], s4))).
    destruct (until_fence u) as [[body rest]|] eqn:E; [|done]. simpl.
    do 3 f_equal. apply until_fence_app in E. subst u.
    rewrite length_app.
    replace (length body + length (fence ++ rest)
             - (length body + length (fence ++ rest) - length body))
      with (length body) by lia.
    by rewrite take_app_length. }
  rewrite star_greedy_space.
  - apply Hlazy.
  - intros c u Hc. rewrite !Hlazy.
    destruct (until_fence u) eqn:E; [done|]. intros _.
    by rewrite until_fence_space.
Qed.

Lemma matchAll_from_blocks s skip :
  Forall2 (λ m body, ∃ whole, m = [whole; body])
    (matchAll_from tsCodeRegex s skip) (ts_blocks_from s skip).
Proof.
  revert skip. induction s as [|c s IH]; intros skip.
  - destruct skip; cbn [matchAll_from ts_blocks_from]; [|constructor].
    rewrite exec_tsCodeRegex.
    destruct (block_at []) as [[body rest]|];
      cbn [fmap option_fmap option_map fst snd]; [|constructor].
    constructor; [by eexists|constructor].
  - destruct skip; cbn [matchAll_from ts_blocks_from]; [|by apply IH].
    rewrite exec_tsCodeRegex.
    destruct (block_at (c :: s)) as [[body rest]|]; cbn [fmap option_fmap option_map fst snd];
      [|by apply IH].
    constructor; [by eexists|by apply IH].
Qed.

(** The matches of the regular expression are the fenced blocks of the
    text: as many, in the same order, the capture of each match being
    the content of the block. *)
Lemma matchAll_ts_blocks text :
  Forall2 (λ m body, ∃ whole, m = [whole; body])
    (matchAll tsCodeRegex text) (ts_blocks text).
Proof. apply matchAll_from_blocks. Qed.

Lemma trimStart_spec s :
  ∃ pre, s = pre ++ trimStart s ∧ Forall (λ c, is_space c = true) pre ∧
         ∀ c, head (trimStart s) = Some c → is_space c = false.
Proof.
  induction s as [|c s (pre & Hs & Hpre & Hhd)]; cbn [trimStart].
  - exists []. by split_and!.
  - destruct (is_space c) eqn:Hc.
    + exists (c :: pre). split_and!; [by rewrite Hs at 1|by constructor|done].
    + exists []. split_and!; [done|done|]. by intros ? [= <-].
Qed.

Lemma head_app_cons {A} (l k : list A) c : head l = Some c → head (l ++ k) = Some c.
Proof. by destruct l. Qed.

Lemma trim_spec s :
  ∃ pre post, s = pre ++ trim s ++ post ∧
    Forall (λ c, is_space c = true) pre ∧
    Forall (λ c, is_space c = true) post ∧
    no_space_around (trim s).
Proof.
  destruct (trimStart_spec s) as (pre & Hs & Hpre & Hhd).
  destruct (trimStart_spec (reverse (trimStart s))) as (post & Hr & Hpost & Hlast).
  assert (trimStart s = trim s ++ reverse post) as Hmid.
  { unfold trim, trimEnd. rewrite <- reverse_app, <- Hr. by rewrite reverse_involutive. }
  exists pre, (reverse post). split_and!.
  - by rewrite <- Hmid.
  - done.
  - by apply Forall_reverse.
  - split.
    + intros c Hc. apply Hhd. rewrite Hmid. by apply head_app_cons.
    + intros c Hc. apply Hlast. unfold trim, trimEnd in Hc.
      by rewrite last_reverse in Hc.
Qed.

Lemma trimStart_app_spaces ws s :
  Forall (λ c, is_space c = true) ws → trimStart (ws ++ s) = trimStart s.
Proof. induction 1 as [|c ws Hc _ IH]; [done|]. cbn. by rewrite Hc. Qed.

Lemma trim_app_spaces ws s :
  Forall (λ c, is_space c = true) ws → trim (ws ++ s) = trim s.
Proof. intros H. unfold trim. by rewrite trimStart_app_spaces. Qed.

Lemma until_fence_app_spaces ws s :
  Forall (λ c, is_space c = true) ws →
  until_fence (ws ++ s) = prod_map (app ws) id <$> until_fence s.
Proof.
  induction 1 as [|c ws Hc _ IH].
  - cbn [app]. by destruct (until_fence s) as [[b r]|].
  - cbn [app until_fence]. rewrite (strip_fence_space _ _ Hc), IH.
    by destruct (until_fence s) as [[b r]|].
Qed.

(** Where the tag is followed by white space, the block the source finds
    and the block of the documentation end at the same place and differ
    by leading white space only. *)
Lemma fenced_block_at_block_at s :
  (∀ d r, strip (fence ++ of_ascii "ts") s = Some (d :: r) → is_space d = true) →
  option_Forall2 (λ cr br, trim cr.1 = trim br.1 ∧ cr.2 = br.2)
    (fenced_block_at s) (block_at s).
Proof.
  intros H. unfold fenced_block_at, block_at.
  destruct (strip (fence ++ of_ascii "ts") s) as [[|d r]|]; cbn [mbind option_bind];
    [|rewrite (H d r eq_refl)|constructor].
  { change (trimStart []) with (@nil N). cbn. constructor. }
  destruct (trimStart_spec (d :: r)) as (ws & Hs & Hws & _).
  rewrite Hs at 1. rewrite (until_fence_app_spaces _ _ Hws).
  destruct (until_fence (trimStart (d :: r))) as [[b r']|]; constructor.
  cbn. split; [by apply trim_app_spaces|done].
Qed.

Lemma well_tagged_blocks s skip :
  well_tagged s = true →
  trim <$> ts_fenced_blocks_from s skip = trim <$> ts_blocks_from s skip.
Proof.
  revert skip. induction s as [|c s IH]; intros skip Hw.
  - destruct skip; [|done]. done.
  - cbn [well_tagged] in Hw. apply andb_true_iff in Hw as [Hc Hw].
    destruct skip; cbn [ts_fenced_blocks_from ts_blocks_from]; [|by apply IH].
    destruct (fenced_block_at_block_at (c :: s)) as [[cb cr] [b r] [Ht Hr]|].
    + intros d r E. by rewrite E in Hc.
    + cbn [fst snd] in Ht, Hr. subst r. cbn [fmap list_fmap]. by rewrite Ht, IH.
    + by apply IH.
Qed.

Lemma fmap_trim_length_1 (l k : list (list N)) content :
  trim <$> l = trim <$> k → l = [content] → ∃ body, k = [body] ∧ trim body = trim content.
Proof.
  intros H ->. destruct k as [|b [|? ?]]; try done.
  injection H as H. by exists b.
Qed.

(** C10.  [extractTypeScriptCode] returns an error, with empty code,
    exactly when the number of blocks the regular expression of the source
    matches is zero or greater than one; when there is exactly one, it
    returns no error and the content of that block without the white space
    around it: the content is the returned code between two runs of white
    space, and the returned code neither starts nor ends with white space.
    On a text where every [```ts] is followed by white space these blocks
    are the blocks fenced with the tag [ts] (up to leading white space),
    and [extractTypeScriptCode] does what is expected of it.  It does not
    on an answer fenced with [```tsx]: there is no block tagged [ts], and
    yet the function returns no error and, as code, the letter [x]
    followed by the content of the [tsx] block; and not on an answer with
    one [ts] block and one [tsx] block, where it reports several blocks
    instead of returning the content of the [ts] block. *)
Theorem C10_extract_exactly_one :
  (∀ text,
     length (matchAll tsCodeRegex text) = length (ts_blocks text) ∧
     (is_Some (error (extractTypeScriptCode text))
      ↔ length (ts_blocks text) = 0 ∨ 1 < length (ts_blocks text)) ∧
     (is_Some (error (extractTypeScriptCode text)) →
      code (extractTypeScriptCode text) = []) ∧
     (∀ body, ts_blocks text = [body] →
        extractTypeScriptCode text = {| code := trim body; error := None |} ∧
        ∃ pre post,
          body = pre ++ code (extractTypeScriptCode text) ++ post ∧
          Forall (λ c, is_space c = true) pre ∧
          Forall (λ c, is_space c = true) post ∧
          no_space_around (code (extractTypeScriptCode text))) ∧
     (well_tagged text = true → extracts_the_ts_block text)) ∧
  (well_tagged tsx_answer = false ∧
   ts_fenced_blocks tsx_answer = [] ∧
   extractTypeScriptCode tsx_answer
   = {| code := of_ascii "x" ++ [line_feed] ++
                of_ascii "export const App = () => <div />;";
        error := None |} ∧
   ¬ extracts_the_ts_block tsx_answer) ∧
  (well_tagged ts_and_tsx_answer = false ∧
   ts_fenced_blocks ts_and_tsx_answer
   = [[line_feed] ++ of_ascii "export const n = 1;" ++ [line_feed]] ∧
   code (extractTypeScriptCode ts_and_tsx_answer) = [] ∧
   is_Some (error (extractTypeScriptCode ts_and_tsx_answer)) ∧
   ¬ extracts_the_ts_block ts_and_tsx_answer).
Proof.
  split; [|split].
  2:{ split_and!; [vm_compute; reflexivity..|].
      intros [[_ H] _]. destruct H as [? H]; [by left|].
      vm_compute in H. discriminate. }
  2:{ split_and!; [vm_compute; reflexivity..|vm_compute; by eauto|].
      intros (_ & _ & H).
      specialize (H _ eq_refl). vm_compute in H. discriminate. }
  intros text.
  pose proof (matchAll_ts_blocks text) as H.
  assert (
    (is_Some (error (extractTypeScriptCode text))
      ↔ length (ts_blocks text) = 0 ∨ 1 < length (ts_blocks text)) ∧
    (is_Some (error (extractTypeScriptCode text)) →
      code (extractTypeScriptCode text) = []) ∧
    (∀ body, ts_blocks text = [body] →
        extractTypeScriptCode text = {| code := trim body; error := None |})) as (Hiff & Hcode & Hone).
  { unfold extractTypeScriptCode.
    destruct H as [|m body ms bodies [whole ->] H]; simpl.
    - split_and!; [|done|done]. split; [by left|by eauto].
    - destruct H as [|m' body' ms' bodies' _ _]; simpl.
      + split_and!.
        * split; [by intros [? ?]|intros [?|?]; [done|lia]].
        * by intros [? ?].
        * by intros ? [= ->].
      + split_and!; [|done|done]. split; [intros _; right; lia|by eauto]. }
  split_and!; [by eapply Forall2_length|done|done| |].
  - intros body Hb. split; [by apply Hone|].
    rewrite (Hone _ Hb). apply trim_spec.
  - intros Hw. pose proof (well_tagged_blocks text 0 Hw) as Heq.
    fold (ts_fenced_blocks text) (ts_blocks text) in Heq.
    assert (length (ts_fenced_blocks text) = length (ts_blocks text)) as Hlen.
    { by rewrite <- (length_fmap trim), Heq, length_fmap. }
    split_and!; [by rewrite Hlen|done|].
    intros content Hc.
    destruct (fmap_trim_length_1 _ _ _ Heq Hc) as (body & Hb & <-).
    by apply Hone.
Qed.

Lemma C10_witness :
  well_tagged padded_answer = true ∧
  ts_fenced_blocks padded_answer
  = [[line_feed; line_feed] ++ of_ascii "  const x = 1;  " ++
     [line_feed; 9%N; line_feed]] ∧
  extractTypeScriptCode padded_answer
  = {| code := of_ascii "const x = 1;"; error := None |}.
Proof.
  destruct C10_extract_exactly_one as [Hall _].
  destruct (Hall padded_answer) as (_ & _ & _ & _ & Hclaim).
  assert (well_tagged padded_answer = true) as Hw by (vm_compute; reflexivity).
  destruct (Hclaim Hw) as (_ & _ & Hone).
  split; [exact Hw|].
  split; [vm_compute; reflexivity|].
  rewrite (Hone ([line_feed; line_feed] ++ of_ascii "  const x = 1;  " ++
                 [line_feed; 9%N; line_feed])); [|vm_compute; reflexivity].
  vm_compute. reflexivity.
Defined.

Example extract_one :
  extractTypeScriptCode
    (of_ascii "Here: ```ts const x = 1;  ``` done")
  = {| code := of_ascii "const x = 1;"; error := None |}.
Proof. vm_compute. reflexivity. Qed.

Example extract_two :
  code (extractTypeScriptCode (of_ascii "```ts a``` and ```ts b```")) = [] ∧
  is_Some (error (extractTypeScriptCode
                    (of_ascii "```ts a``` and ```ts b```"))).
Proof. split; [vm_compute; reflexivity|vm_compute; eauto]. Qed.

Example extract_none :
  code (extractTypeScriptCode (of_ascii "```js a```")) = [] ∧
  is_Some (error (extractTypeScriptCode (of_ascii "```js a```"))).
Proof. split; [vm_compute; reflexivity|vm_compute; eauto]. Qed.

Example blocks_of_two :
  ts_blocks (of_ascii "```ts a``` and ```tsx b```")
  = [of_ascii "a"; of_ascii "x b"].
Proof. vm_compute. reflexivity. Qed.

(** ** More on the evaluator *)

Section Evaluation.

Variable heap : nat → Resource.
Variable fns : nat → jsval → completion.

Notation eval := (eval heap fns).
Notation evals := (evals heap fns).
Notation step := (step heap fns).
Notation run := (run heap fns).
Notation Inv := (Inv heap fns).
Notation Traced := (Traced heap fns).
Notation reachable := (reachable heap fns).

(** A transition leaves the log of provider calls as it is, unless it is
    the resumption of a resource activation that misses the cache. *)
Lemma step_calls σ ev σ' :
  step ev σ = Some σ' →
  calls σ' = calls σ ∨
  ∃ t a h cs evs,
    tasks σ !! t = Some (Task a (ResInputs h cs)) ∧
    all_fulfilled σ cs = Some evs ∧
    calls σ' = calls σ
               ++ [(h, Set_from (flat_map deps evs), value <$> evs)].
Proof.
  intros Hstep. destruct ev as [v|t|t k|t r]; simpl in Hstep.
  - left. by simplify_eq.
  - destruct (tasks σ !! t) as [[a fr]|] eqn:Ht; simplify_eq/=.
    destruct fr as [|h cs|h q|h ds q|f c|pd c|cs|kcs|o]; simplify_eq/=.
    + left. by destruct a.
    + destruct (all_fulfilled σ cs) as [evs|] eqn:Hall; simplify_eq/=.
      unfold lookup_or_update. destruct (cache σ !! h); [by left|].
      right. by exists t, a, h, cs, evs.
    + left. by destruct (promises σ !! q) as [[o|]|]; simplify_eq/=.
    + left. destruct (result_of σ c) as [[pe|e]|]; simplify_eq/=; [|done].
      by destruct (fns f (value pe)); simplify_eq/=.
    + left. by destruct (result_of σ c) as [[pe|e]|]; simplify_eq/=.
    + left. by destruct (all_fulfilled σ cs); simplify_eq/=.
    + left. by destruct (all_fulfilled σ (kcs.*2)); simplify_eq/=.
  - left. destruct (tasks σ !! t) as [[a fr]|]; simplify_eq/=.
    destruct (awaited_all fr) as [cs|]; simplify_eq/=.
    destruct (cs !! k) as [c|]; simplify_eq/=.
    by destruct (result_of σ c) as [[ev|e]|]; simplify_eq/=.
  - left. destruct (tasks σ !! t) as [[a fr]|]; simplify_eq/=.
    by destruct fr; simplify_eq/=.
Qed.

Lemma call_ok_mono σ σ' c :
  extends σ σ' → call_ok heap σ c → call_ok heap σ' c.
Proof.
  intros Hext (t & fr & cs & evs & Ht & Hch & Hall & Hd & Hi).
  destruct Hext as (Ha & Hrest). destruct (Ha _ _ _ Ht) as [fr' Ht'].
  exists t, fr', cs, evs. split_and!; try done.
  - eapply children_mono; [|done]. by split.
  - eapply all_fulfilled_mono; [|done]. by split.
Qed.

Lemma run_calls_ok evs σ σ' :
  Inv σ →
  (∀ c, c ∈ calls σ → call_ok heap σ c) →
  run evs σ = Some σ' →
  ∀ c, c ∈ calls σ' → call_ok heap σ' c.
Proof.
  revert σ. induction evs as [|ev evs IH]; intros σ HI Hok Hrun;
    simpl in Hrun; [by simplify_eq|].
  destruct (step ev σ) as [σ1|] eqn:Hstep; simplify_eq/=.
  destruct (step_Inv _ _ _ _ _ HI Hstep) as [HI1 Hext].
  apply (IH σ1); [done| |done].
  intros c Hc.
  destruct (step_calls _ _ _ Hstep)
    as [Heq|(t & a & h & cs & evs' & Ht & Hall & Heq)]; rewrite Heq in Hc.
  - eapply call_ok_mono; [done|]. by apply Hok.
  - apply elem_of_app in Hc as [Hc|Hc%list_elem_of_singleton].
    + eapply call_ok_mono; [done|]. by apply Hok.
    + subst c. destruct (inv_frames _ _ _ HI _ _ _ Ht) as [-> Hch].
      eapply call_ok_mono; [done|].
      by exists t, (ResInputs h cs), cs, evs'.
Qed.

Lemma eval_deps_invoked σ :
  Inv σ →
  (∀ v o, eval σ v o →
     ∀ ev d, o = Fulfilled ev → d ∈ deps ev →
       ∃ h q r, ResourceID (heap h) = d ∧ cache σ !! h = Some q ∧
                promises σ !! q = Some (Some (Fulfilled r))) ∧
  (∀ vs evs, evals σ vs evs →
     ∀ ev d, ev ∈ evs → d ∈ deps ev →
       ∃ h q r, ResourceID (heap h) = d ∧ cache σ !! h = Some q ∧
                promises σ !! q = Some (Some (Fulfilled r))).
Proof.
  intros HI. apply eval_evals_ind; try done.
  - intros p ev d [= <-] Hd. by apply elem_of_nil in Hd.
  - intros h evs q o Hevs IH Hq Ho ev d -> Hd.
    destruct (inv_promise _ _ _ HI _ _ _ Hq Ho) as (evs1 & r & Hevs1 & Hr).
    assert (evs1 = evs) as -> by exact (evals_det _ _ _ _ _ _ Hevs Hevs1).
    destruct r as [v|e]; simpl in Hr; [|done]. injection Hr as ->.
    simpl in Hd. apply elem_of_cons in Hd as [->|Hd];
      [by eexists h, q, _|].
    rewrite elem_of_Set_from, list_elem_of_In, in_flat_map in Hd.
    destruct Hd as (ev' & Hev' & Hd).
    apply (IH ev' d); by apply list_elem_of_In.
  - intros p f pe ret ev _ IHp _ _ IHr ev' d [= <-] Hd. simpl in Hd.
    apply elem_of_app in Hd as [Hd|Hd]; eauto.
  - intros items evs _ IH ev d [= <-] Hd. simpl in Hd.
    rewrite list_elem_of_In, in_flat_map in Hd.
    destruct Hd as (ev' & Hev' & Hd).
    apply (IH ev' d); by apply list_elem_of_In.
  - intros entries evs _ IH ev d [= <-] Hd. simpl in Hd.
    rewrite list_elem_of_In, in_flat_map in Hd.
    destruct Hd as (ev' & Hev' & Hd).
    apply (IH ev' d); by apply list_elem_of_In.
  - intros ev d Hev. by apply elem_of_nil in Hev.
  - intros v vs ev evs _ IHv _ IHvs ev' d [->|Hev]%elem_of_cons Hd; eauto.
Qed.

(** The inputs of a resource that is in the cache all evaluate. *)
Lemma cached_inputs_evaluated σ h q :
  Inv σ → cache σ !! h = Some q → ∃ evs, evals σ (Input (heap h)) evs.
Proof.
  intros HI Hq.
  pose proof (inv_cache_bound _ _ _ HI _ _ Hq) as Hb.
  destruct (lookup_lt_is_Some_2 _ _ Hb) as [[o|] Ho].
  - destruct (inv_promise _ _ _ HI _ _ _ Hq Ho) as (evs & _ & Hevs & _).
    eauto.
  - destruct (inv_pending _ _ _ HI _ Ho) as (t & h0 & ds & Ht).
    destruct (inv_frames _ _ _ HI _ _ _ Ht) as (_ & Hq0 & evs & Hevs & _).
    assert (h0 = h) as -> by (by eapply (inv_cache_inj _ _ _ HI)).
    eauto.
Qed.

(** X1. An object is evaluated to an object of the same shape: a
    fulfilled activation called on an object has called one activation
    per entry, in the order of the entries, all fulfilled, and holds the
    same keys in the same order, the value under each key being the value
    the activation called on that entry returned. *)
Theorem object_same_shape (σ : state) (t : nat)
    (entries : list (string * jsval)) (ev : Evaluated) :
  reachable σ →
  tasks σ !! t = Some (Task (Obj entries) (Settled (Fulfilled ev))) →
  ∃ cs evs res,
    children σ t cs (entries.*2) ∧
    all_fulfilled σ cs = Some evs ∧
    value ev = Obj res ∧
    res.*1 = entries.*1 ∧
    length res = length entries ∧
    (∀ i k v, entries !! i = Some (k, v) →
       ∃ c evi, cs !! i = Some c ∧
                (∃ fr, tasks σ !! c = Some (Task v fr)) ∧
                result_of σ c = Some (Fulfilled evi) ∧
                res !! i = Some (k, value evi)) ∧
    deps ev = flat_map deps evs.
Proof.
  intros Hreach Ht. pose proof (reachable_Inv _ _ _ Hreach) as HI.
  pose proof (reachable_Traced _ _ _ Hreach) as HT.
  destruct (HT _ _ _ Ht) as (cs & evs & Hch & Hall & ->).
  pose proof (children_evals _ _ _ _ _ _ _ HI Hch Hall) as Hevs.
  apply evals_length in Hevs. rewrite length_fmap in Hevs.
  assert (length (entries.*1) = length (value <$> evs)) as Hlen
    by (by rewrite !length_fmap).
  exists cs, evs, (zip (entries.*1) (value <$> evs)).
  split_and!; [done|done|done| | | |done].
  - rewrite fst_zip; [done|lia].
  - rewrite length_zip, !length_fmap. lia.
  - intros i k v Hi.
    assert (entries.*2 !! i = Some v) as Hi2
      by (by rewrite list_lookup_fmap, Hi).
    destruct (Forall2_lookup_r _ _ _ _ _ Hch Hi2) as (c & Hc & _ & Hfr).
    apply mapM_Some in Hall.
    destruct (Forall2_lookup_l _ _ _ _ _ Hall Hc) as (evi & Hevi & Hful).
    exists c, evi. split_and!; [done|done| |].
    + unfold fulfilled in Hful.
      by destruct (result_of σ c) as [[?|?]|]; simplify_eq.
    + apply lookup_zip_with_Some. exists k, (value evi).
      split_and!; [done| |].
      * by rewrite list_lookup_fmap, Hi.
      * by rewrite list_lookup_fmap, Hevi.
Qed.

(** X2. Evaluation is consistent within a process: once an activation
    called on a value is fulfilled, every settled activation called on
    the same value is fulfilled with the same value and dependencies,
    whatever the order of the provider completions. *)
Theorem fulfilled_results_agree (σ : state) (t1 t2 : nat) (a : jsval)
    (ev : Evaluated) (o : settlement) :
  reachable σ →
  tasks σ !! t1 = Some (Task a (Settled (Fulfilled ev))) →
  tasks σ !! t2 = Some (Task a (Settled o)) →
  o = Fulfilled ev.
Proof.
  intros HI%reachable_Inv H1 H2.
  apply (settled_eval _ _ _ _ _ _ HI) in H1, H2. by eapply eval_det.
Qed.

(** ** Where a rejection comes from *)










(** X4. A provider operation is invoked only by an activation called on
    its resource whose input activations, one per input and in the order
    of the inputs, are all fulfilled; it receives their values in that
    order, and as [deps] the set of their dependencies: every dependency
    of an input once, and nothing else. *)
Theorem provider_called_with_inputs (σ : state) (h : nat)
    (ds : list string) (ins : list jsval) :
  reachable σ →
  (h, ds, ins) ∈ calls σ →
  ∃ t fr cs evs,
    tasks σ !! t = Some (Task (Res h) fr) ∧
    children σ t cs (Input (heap h)) ∧
    all_fulfilled σ cs = Some evs ∧
    ins = value <$> evs ∧
    length ins = length (Input (heap h)) ∧
    NoDup ds ∧
    (∀ d, d ∈ ds ↔ ∃ evi, evi ∈ evs ∧ d ∈ deps evi).
Proof.
  intros [evs0 Hrun] Hin.
  assert (call_ok heap σ (h, ds, ins))
    as (t & fr & cs & evs & Ht & Hch & Hall & Hd & Hi).
  { eapply (run_calls_ok evs0 init); [apply Inv_init| |done|done].
    intros c Hc. by apply elem_of_nil in Hc. }
  simpl in *. subst ds ins. exists t, fr, cs, evs.
  split_and!; [done|done|done|done| |apply Set_from_NoDup|].
  - rewrite length_fmap. apply mapM_Some in Hall.
    apply Forall2_length in Hall, Hch. lia.
  - intros d. rewrite elem_of_Set_from, list_elem_of_In, in_flat_map.
    split; intros (evi & H1 & H2); exists evi;
      by rewrite ?list_elem_of_In in *.
Qed.

(** X5. The dependencies of a fulfilled activation are ids of resources
    that were applied: each is the id of a resource whose provider
    operation was invoked once and succeeded, its fulfilled promise being
    in the cache. *)
Theorem deps_are_applied_resources (σ : state) (t : nat) (a : jsval)
    (ev : Evaluated) (d : string) :
  reachable σ →
  tasks σ !! t = Some (Task a (Settled (Fulfilled ev))) →
  d ∈ deps ev →
  ∃ h q r, ResourceID (heap h) = d ∧ invocations σ h = 1 ∧
           cache σ !! h = Some q ∧
           promises σ !! q = Some (Some (Fulfilled r)).
Proof.
  intros HI%reachable_Inv Ht Hd. apply (settled_eval _ _ _ _ _ _ HI) in Ht.
  destruct (proj1 (eval_deps_invoked σ HI) _ _ Ht ev d eq_refl Hd)
    as (h & q & r & H1 & H2 & H3).
  exists h, q, r. split_and!; try done. by eapply invocations_cached.
Qed.

(** X6. The evaluator never removes or overwrites: over any further
    events every activation keeps the value it was called on, a settled
    activation keeps its settlement, an entry of the cache keeps its
    promise, a settled promise keeps its settlement, and the log of
    provider calls only grows at its end. *)
Theorem nothing_is_retracted (σ σ' : state) (evs : list event) :
  reachable σ →
  run evs σ = Some σ' →
  (∀ c v fr, tasks σ !! c = Some (Task v fr) →
             ∃ fr', tasks σ' !! c = Some (Task v fr')) ∧
  (∀ c o, result_of σ c = Some o → result_of σ' c = Some o) ∧
  (∀ h q, cache σ !! h = Some q → cache σ' !! h = Some q) ∧
  (∀ q o, promises σ !! q = Some (Some o) →
          promises σ' !! q = Some (Some o)) ∧
  (∃ more, calls σ' = calls σ ++ more).
Proof.
  intros HI%reachable_Inv Hrun.
  destruct (run_Inv _ _ _ _ _ HI Hrun) as [_ Hext].
  pose proof Hext as (Ha & _ & Hc & Hp & Hcalls).
  split_and!; [done| |by intros; eapply lookup_weaken|done|done].
  intros c o. by apply result_of_mono.
Qed.

(** X7. A resource one of whose inputs failed is never applied: when a
    settled activation called on an input of the resource is rejected,
    the resource has no entry in the cache, its provider operation has
    not been invoked, and every settled activation called on the
    resource is rejected. *)
Theorem failed_input_blocks_provider (σ : state) (h : nat) (v : jsval)
    (c : nat) (e : jsval) :
  reachable σ →
  v ∈ Input (heap h) →
  tasks σ !! c = Some (Task v (Settled (Rejected e))) →
  cache σ !! h = None ∧
  invocations σ h = 0 ∧
  (∀ t o, tasks σ !! t = Some (Task (Res h) (Settled o)) →
          ∃ e', o = Rejected e').
Proof.
  intros HI%reachable_Inv Hv Hc. apply (settled_eval _ _ _ _ _ _ HI) in Hc.
  assert (cache σ !! h = None) as Hnone.
  { destruct (cache σ !! h) as [q|] eqn:Hq; [|done].
    destruct (cached_inputs_evaluated _ _ _ HI Hq) as [evs Hevs].
    by destruct (evals_not_rejected _ _ _ _ _ _ _ Hevs Hv Hc). }
  split_and!; [done| |].
  - unfold invocations.
    rewrite filter_eq_NoDup_length by apply (inv_invoked_nodup _ _ _ HI).
    rewrite bool_decide_eq_false_2; [done|].
    intros [? Hin]%(inv_invoked_cache _ _ _ HI). congruence.
  - intros t o Ht. apply (settled_eval _ _ _ _ _ _ HI) in Ht.
    apply eval_res_inv in Ht as [(? & q & _ & Hq & _)|(? & e' & _ & _ & ->)];
      [congruence|eauto].
Qed.

End Evaluation.

Lemma object_same_shape_witness :
  reachable demo_heap demo_fns (demo_run object_with_A) ∧
  ∃ res, Obj [("k", Prim (PStr "a")); ("n", Prim (PNum 1))] = Obj res ∧
         res.*1 = ["k"; "n"].
Proof.
  assert (reachable demo_heap demo_fns (demo_run object_with_A)) as H
    by (exists object_with_A; vm_compute; reflexivity).
  split; [exact H|].
  destruct (object_same_shape demo_heap demo_fns (demo_run object_with_A) 0
              [("k", Res 0); ("n", Prim (PNum 1))]
              {| value := Obj [("k", Prim (PStr "a")); ("n", Prim (PNum 1))];
                 deps := ["A"] |} H)
    as (cs & evs & res & _ & _ & H3 & H4 & _); [vm_compute; reflexivity|].
  exists res. split; assumption.
Defined.

Lemma fulfilled_results_agree_witness :
  reachable demo_heap demo_fns (demo_run twice_B) ∧
  ∀ o, tasks (demo_run twice_B) !! 2 = Some (Task (Res 1) (Settled o)) →
       o = Fulfilled {| value := Prim (PStr "b"); deps := ["B"; "A"] |}.
Proof.
  assert (reachable demo_heap demo_fns (demo_run twice_B)) as H
    by (exists twice_B; vm_compute; reflexivity).
  split; [exact H|].
  intros o Ho.
  apply (fulfilled_results_agree demo_heap demo_fns (demo_run twice_B)
           1 2 (Res 1) _ o H); [vm_compute; reflexivity|exact Ho].
Defined.


Lemma provider_called_with_inputs_witness :
  ∃ t fr cs evs,
    tasks (demo_run twice_B) !! t = Some (Task (Res 1) fr) ∧
    children (demo_run twice_B) t cs (Input (demo_heap 1)) ∧
    all_fulfilled (demo_run twice_B) cs = Some evs ∧
    [Prim (PStr "a"); Arr [Prim (PStr "a"); Prim (PStr "x")]]
    = value <$> evs.
Proof.
  destruct (provider_called_with_inputs demo_heap demo_fns
              (demo_run twice_B) 1 ["A"]
              [Prim (PStr "a"); Arr [Prim (PStr "a"); Prim (PStr "x")]])
    as (t & fr & cs & evs & H1 & H2 & H3 & H4 & _).
  - exists twice_B. vm_compute. reflexivity.
  - apply list_elem_of_In. vm_compute. right. left. reflexivity.
  - exists t, fr, cs, evs. repeat split; assumption.
Defined.

Lemma deps_are_applied_resources_witness :
  ∃ h q r, ResourceID (demo_heap h) = "A" ∧
           invocations (demo_run twice_B) h = 1 ∧
           cache (demo_run twice_B) !! h = Some q ∧
           promises (demo_run twice_B) !! q = Some (Some (Fulfilled r)).
Proof.
  apply (deps_are_applied_resources demo_heap demo_fns (demo_run twice_B) 0
           (Arr [Res 1; Res 1])
           {| value := Arr [Prim (PStr "b"); Prim (PStr "b")];
              deps := ["B"; "A"; "B"; "A"] |}).
  - exists twice_B. vm_compute. reflexivity.
  - vm_compute. reflexivity.
  - apply list_elem_of_In. vm_compute. right. left. reflexivity.
Defined.

Lemma nothing_is_retracted_witness :
  reachable demo_heap demo_fns (demo_run first_pass) ∧
  ∃ more, calls (demo_run (first_pass ++ second_pass))
          = calls (demo_run first_pass) ++ more.
Proof.
  assert (reachable demo_heap demo_fns (demo_run first_pass)) as H
    by (exists first_pass; vm_compute; reflexivity).
  split; [exact H|].
  destruct (nothing_is_retracted demo_heap demo_fns (demo_run first_pass)
              (demo_run (first_pass ++ second_pass)) second_pass H)
    as (_ & _ & _ & _ & H5); [vm_compute; reflexivity|exact H5].
Defined.

Lemma failed_input_blocks_provider_witness :
  cache (demo_run B_after_A_fails) !! 1 = None ∧
  invocations (demo_run B_after_A_fails) 1 = 0.
Proof.
  destruct (failed_input_blocks_provider demo_heap demo_fns
              (demo_run B_after_A_fails) 1 (Res 0) 1 (Prim (PStr "boom")))
    as (H1 & H2 & _).
  - exists B_after_A_fails. vm_compute. reflexivity.
  - apply list_elem_of_In. vm_compute. left. reflexivity.
  - vm_compute. reflexivity.
  - split; assumption.
Defined.

Lemma evaluate_never_stuck_witness :
  ∃ ev, (∀ v, ev ≠ Call v) ∧
        is_Some (step demo_heap demo_fns ev (demo_run twice_A_waiting)).
Proof.
  apply (evaluate_never_stuck demo_heap demo_fns (demo_run twice_A_waiting) 1
           (Task (Res 0) (ResUpdate 0 [] 0))).
  - exists twice_A_waiting. vm_compute. reflexivity.
  - vm_compute. reflexivity.
  - discriminate.
Defined.

Lemma sanitize_char_valid c :
  aws_name_char (if aws_name_char c then c else 45%N) = true.
Proof. by destruct (aws_name_char c) eqn:E. Qed.

(** ** Names for AWS resources *)

(** X8. [sanitizeForAwsResourceName] returns a name of the same length
    made of letters, digits, hyphens and underscores only, and it leaves
    a string unchanged exactly when the string is already such a name. *)
Theorem sanitized_name_is_valid (str : list N) :
  Forall (λ c, aws_name_char c = true) (sanitizeForAwsResourceName str) ∧
  length (sanitizeForAwsResourceName str) = length str ∧
  (sanitizeForAwsResourceName str = str ↔
   Forall (λ c, aws_name_char c = true) str).
Proof.
  unfold sanitizeForAwsResourceName. split_and!.
  - apply Forall_fmap, Forall_true. intros c. apply sanitize_char_valid.
  - by rewrite length_fmap.
  - induction str as [|c s IH]; [done|]. cbn [fmap list_fmap]. split.
    + intros [= Hc Hs]. constructor; [|by apply IH].
      destruct (aws_name_char c) eqn:E; [done|]. by rewrite <- Hc in E.
    + intros [Hc Hs]%Forall_cons. rewrite Hc. f_equal. by apply IH.
Qed.

(** X9. [BRANCH_PREFIX] is always a valid name.  A variable that is set
    and not empty is what is sanitized; the prefix is empty only when
    the variable is unset or empty and the user name is empty too. *)
Theorem BRANCH_PREFIX_is_valid (env : option (list N)) (username : list N) :
  Forall (λ c, aws_name_char c = true) (BRANCH_PREFIX env username) ∧
  (BRANCH_PREFIX env username = [] ↔
   username = [] ∧ (env = None ∨ env = Some [])) ∧
  (∀ c s, env = Some (c :: s) →
     BRANCH_PREFIX env username = sanitizeForAwsResourceName (c :: s)).
Proof.
  unfold BRANCH_PREFIX. split_and!.
  - exact (proj1 (sanitized_name_is_valid _)).
  - unfold sanitizeForAwsResourceName.
    destruct env as [[|c s]|]; split;
      try (by intros [? [?|?]]; simplify_eq);
      try (by intros ->%fmap_nil_inv; eauto); done.
  - by intros c s ->.
Qed.

(** ** [alchemy.files] *)

Lemma fromEntries_snoc l k v :
  fromEntries (l ++ [(k, v)]) = <[k := v]> (fromEntries l).
Proof. unfold fromEntries. by rewrite foldl_app. Qed.

(** A key of [Object.fromEntries] holds the value of its last entry. *)
Lemma fromEntries_lookup l k v :
  fromEntries l !! k = Some v ↔
  ∃ i, l !! i = Some (k, v) ∧ ∀ j w, i < j → l !! j ≠ Some (k, w).
Proof.
  induction l as [|[k' v'] l IH] using rev_ind.
  - split; [done|]. by intros (i & Hi & _).
  - rewrite fromEntries_snoc. destruct (decide (k' = k)) as [->|Hne].
    + rewrite lookup_insert_eq. split.
      * intros [= ->]. exists (length l). split.
        -- by rewrite lookup_app_r, Nat.sub_diag by lia.
        -- intros j w Hj Hl. apply lookup_lt_Some in Hl.
           rewrite length_app in Hl. simpl in Hl. lia.
      * intros (i & Hi & Hlast).
        destruct (decide (i = length l)) as [->|Hil].
        -- rewrite lookup_app_r, Nat.sub_diag in Hi by lia. by simplify_eq/=.
        -- pose proof (lookup_lt_Some _ _ _ Hi) as Hlt.
           rewrite length_app in Hlt. simpl in Hlt.
           exfalso. apply (Hlast (length l) v'); [lia|].
           by rewrite lookup_app_r, Nat.sub_diag by lia.
    + rewrite lookup_insert_ne by done. rewrite IH. split.
      * intros (i & Hi & Hlast). exists i.
        pose proof (lookup_lt_Some _ _ _ Hi) as Hlt. split.
        -- by rewrite lookup_app_l.
        -- intros j w Hj Hl. destruct (decide (j < length l)).
           ++ rewrite lookup_app_l in Hl by done. by eapply Hlast.
           ++ apply lookup_lt_Some in Hl as Hlt'.
              rewrite length_app in Hlt'. simpl in Hlt'.
              assert (j = length l) as -> by lia.
              rewrite lookup_app_r, Nat.sub_diag in Hl by lia.
              by simplify_eq/=.
      * intros (i & Hi & Hlast).
        destruct (decide (i < length l)) as [Hlt|Hge].
        -- exists i. rewrite lookup_app_l in Hi by done. split; [done|].
           intros j w Hj Hl. apply (Hlast j w Hj).
           rewrite lookup_app_l; [done|]. by eapply lookup_lt_Some.
        -- apply lookup_lt_Some in Hi as Hlt'.
           rewrite length_app in Hlt'. simpl in Hlt'.
           assert (i = length l) as -> by lia.
           rewrite lookup_app_r, Nat.sub_diag in Hi by lia.
           by simplify_eq/=.
Qed.

Lemma read_errors_nil rs :
  read_errors rs = [] → rs = Content <$> read_contents rs.
Proof.
  unfold read_errors, read_contents.
  induction rs as [|[t|c] rs IH]; simpl; [done| |done].
  intros H. f_equal. by apply IH.
Qed.

Lemma read_errors_elem rs c :
  c ∈ read_errors rs ↔ ReadError c ∈ rs.
Proof.
  unfold read_errors. rewrite list_elem_of_omap. split.
  - intros ([t|c'] & Hin & Heq); by simplify_eq.
  - intros Hin. by exists (ReadError c).
Qed.

Lemma files_reads_ok (readFile : nat → string → read_outcome) paths :
  read_errors (imap readFile paths) = [] →
  ∀ i p, paths !! i = Some p →
    ∃ t, readFile i p = Content t ∧
         (zip paths (read_contents (imap readFile paths))) !! i = Some (p, t).
Proof.
  intros Hnil i p Hi. apply read_errors_nil in Hnil.
  assert (imap readFile paths !! i = Some (readFile i p)) as Hr
    by (by rewrite list_lookup_imap, Hi).
  rewrite Hnil, list_lookup_fmap in Hr.
  destruct (read_contents (imap readFile paths) !! i) as [t|] eqn:Ht;
    [|done].
  simpl in Hr. exists t. split; [congruence|].
  rewrite lookup_zip_with, Hi. simpl. by rewrite Ht.
Qed.

(** X11. When [alchemy.files] returns a collection, every read
    succeeded, the keys of the collection are exactly the paths asked
    for, and each path holds the content of the last read of it. *)
Theorem files_collection_holds_every_path
    (readFile : nat → string → read_outcome) (args : files_args)
    (type : string) (files : gmap string string) :
  alchemy_files readFile args = FileCollection type files →
  ∃ paths, files_paths args = Some paths ∧
    (∀ i p, paths !! i = Some p → ∃ t, readFile i p = Content t) ∧
    (∀ p, p ∈ paths ↔ is_Some (files !! p)) ∧
    (∀ p t, files !! p = Some t ↔
       ∃ i, paths !! i = Some p ∧ readFile i p = Content t ∧
            ∀ j, i < j → paths !! j ≠ Some p).
Proof.
  unfold alchemy_files. destruct (files_paths args) as [paths|]; [|done].
  destruct (read_errors (imap readFile paths)) eqn:Hnil; [|done].
  intros [= <- <-]. exists paths. split; [done|].
  pose proof (files_reads_ok _ _ Hnil) as Hok.
  assert (∀ p t, fromEntries (zip paths (read_contents (imap readFile paths)))
                   !! p = Some t ↔
            ∃ i, paths !! i = Some p ∧ readFile i p = Content t ∧
                 ∀ j, i < j → paths !! j ≠ Some p) as Hlook.
  { intros p t. rewrite fromEntries_lookup. split.
    - intros (i & Hi & Hlast). exists i.
      apply lookup_zip_with_Some in Hi as (p' & t' & [= <- <-] & Hp & Ht).
      destruct (Hok _ _ Hp) as (t2 & Hr & Hz). split_and!; [done| |].
      + rewrite lookup_zip_with, Hp in Hz. simpl in Hz. rewrite Ht in Hz.
        simpl in Hz. congruence.
      + intros j Hj Hpj. destruct (Hok _ _ Hpj) as (w & _ & Hw).
        by apply (Hlast j w Hj).
    - intros (i & Hi & Hr & Hlast). exists i.
      destruct (Hok _ _ Hi) as (t2 & Hr2 & Hz). split; [congruence|].
      intros j w Hj Hzj.
      apply lookup_zip_with_Some in Hzj as (p' & t' & [= <- <-] & Hp & _).
      by apply (Hlast j Hj). }
  split_and!; [| |done].
  - intros i p Hi. destruct (Hok _ _ Hi) as (t & Ht & _). eauto.
  - intros p. split.
    + intros Hin. 
      assert (∃ i, paths !! i = Some p ∧ ∀ j, i < j → paths !! j ≠ Some p)
        as (i & Hi & Hlast).
      { clear -Hin. induction paths as [|q paths IH] using rev_ind.
        - by apply elem_of_nil in Hin.
        - destruct (decide (q = p)) as [->|Hne].
          + exists (length paths). split.
            * by rewrite lookup_app_r, Nat.sub_diag by lia.
            * intros j Hj Hl. apply lookup_lt_Some in Hl.
              rewrite length_app in Hl. simpl in Hl. lia.
          + apply elem_of_app in Hin as [Hin|Hin];
              [|apply list_elem_of_singleton in Hin; congruence].
            destruct (IH Hin) as (i & Hi & Hlast). exists i.
            pose proof (lookup_lt_Some _ _ _ Hi). split.
            * by rewrite lookup_app_l.
            * intros j Hj Hl. destruct (decide (j < length paths)).
              -- rewrite lookup_app_l in Hl by done. by eapply Hlast.
              -- apply lookup_lt_Some in Hl as Hlt.
                 rewrite length_app in Hlt. simpl in Hlt.
                 assert (j = length paths) as -> by lia.
                 rewrite lookup_app_r, Nat.sub_diag in Hl by lia.
                 by simplify_eq/=. }
      destruct (Hok _ _ Hi) as (t & Ht & _). exists t. apply Hlook. eauto.
    + intros [t Ht]. apply Hlook in Ht as (i & Hi & _).
      by eapply list_elem_of_lookup_2.
Qed.

(** X12. Once the paths are known, [alchemy.files] either rejects, with
    the error of a read that failed (every failed read is a candidate,
    and there is one), or returns a collection, and then no read
    failed. *)
Theorem files_rejects_iff_a_read_fails
    (readFile : nat → string → read_outcome) (args : files_args)
    (paths : list string) :
  files_paths args = Some paths →
  (∃ codes, alchemy_files readFile args = FilesRejected codes ∧
            codes ≠ [] ∧
            ∀ c, c ∈ codes ↔
              ∃ i p, paths !! i = Some p ∧ readFile i p = ReadError c) ∨
  (∃ files, alchemy_files readFile args
            = FileCollection "fs::FileCollection" files ∧
            ∀ i p, paths !! i = Some p → ∃ t, readFile i p = Content t).
Proof.
  intros Hp. unfold alchemy_files. rewrite Hp.
  destruct (read_errors (imap readFile paths)) as [|c0 cs] eqn:Herr.
  - right. eexists. split; [done|]. intros i p Hi.
    destruct (files_reads_ok _ _ Herr _ _ Hi) as (t & Ht & _). eauto.
  - left. eexists. split_and!; [done|done|]. intros c. rewrite <- Herr.
    rewrite read_errors_elem, list_elem_of_lookup. split.
    + intros (i & Hi). rewrite list_lookup_imap in Hi.
      destruct (paths !! i) as [p|] eqn:Hpi; [|done]. simpl in Hi.
      exists i, p. split; congruence.
    + intros (i & p & Hi & Hr). exists i.
      by rewrite list_lookup_imap, Hi; simpl; rewrite Hr.
Qed.

Lemma files_collection_holds_every_path_witness :
  ∃ paths, files_paths (PathsSpread ["a.txt"; "b.txt"; "a.txt"]) = Some paths ∧
    (∀ i p, paths !! i = Some p → ∃ t, one_missing i p = Content t) ∧
    (∀ p, p ∈ paths ↔
          is_Some (({["a.txt" := "a.txt"; "b.txt" := "b.txt"]}
                      : gmap string string) !! p)) ∧
    (∀ p t, ({["a.txt" := "a.txt"; "b.txt" := "b.txt"]}
               : gmap string string) !! p = Some t ↔
       ∃ i, paths !! i = Some p ∧ one_missing i p = Content t ∧
            ∀ j, i < j → paths !! j ≠ Some p).
Proof.
  apply (files_collection_holds_every_path one_missing
           (PathsSpread ["a.txt"; "b.txt"; "a.txt"]) "fs::FileCollection").
  vm_compute. reflexivity.
Defined.

Lemma files_rejects_iff_a_read_fails_witness :
  (∃ codes, alchemy_files one_missing (PathsArray ["a.txt"; "missing.txt"])
            = FilesRejected codes ∧ codes ≠ [] ∧
            ∀ c, c ∈ codes ↔
              ∃ i p, ["a.txt"; "missing.txt"] !! i = Some p ∧
                     one_missing i p = ReadError c) ∨
  (∃ files, alchemy_files one_missing (PathsArray ["a.txt"; "missing.txt"])
            = FileCollection "fs::FileCollection" files ∧
            ∀ i p, ["a.txt"; "missing.txt"] !! i = Some p →
                   ∃ t, one_missing i p = Content t).
Proof.
  apply (files_rejects_iff_a_read_fails one_missing
           (PathsArray ["a.txt"; "missing.txt"]) ["a.txt"; "missing.txt"]).
  reflexivity.
Defined.

(** ** [ai::TypeScriptFile], with the calls it makes *)

Lemma bind_perform_ok {A B} (c : call) (a : A) (f : A → traced B) :
  perform c (inl a) ≫= f = (c :: (f a).1, (f a).2).
Proof. done. Qed.

Lemma truthy_Some s e : truthy s = Some e → s = Some e ∧ e ≠ "".
Proof. destruct s as [[|a s]|]; by intros [= <-]. Qed.

(** An answer passes [extractTypeScriptCode] exactly when it holds one
    block, whose trimmed content is the code. *)
Lemma extract_cases text :
  (∃ body, ts_blocks text = [body] ∧
           truthy (error (extractTypeScriptCode text)) = None ∧
           code (extractTypeScriptCode text) = trim body) ∨
  (length (ts_blocks text) ≠ 1 ∧
   ∃ e, truthy (error (extractTypeScriptCode text)) = Some e).
Proof.
  pose proof (matchAll_ts_blocks text) as H.
  unfold extractTypeScriptCode.
  destruct H as [|m body ms bodies [whole ->] H]; simpl.
  - right. split; [done|]. eauto.
  - destruct H as [|m' body' ms' bodies' _ H]; simpl.
    + left. exists body. done.
    + right. split; [done|]. eauto.
Qed.

Lemma filter_no_asks (l : list call) :
  (∀ s p, GenerateText s p ∉ l) → List.filter is_GenerateText l = [].
Proof.
  induction l as [|x l IH]; [done|]. intros Hn. cbn [List.filter].
  destruct x; cbn [is_GenerateText];
    try (apply IH; intros ?? ?; eapply Hn; apply elem_of_cons; eauto).
  exfalso. eapply Hn. apply elem_of_cons. by left.
Qed.

Section TypeScriptFileCalls.
Context {number : Type}.
Implicit Types (w : ai number) (env : fs) (props : TypeScriptFileProps).

(** How the code is obtained. *)
Lemma TypeScriptFile_code_cases w props :
  let system := default DEFAULT_TS_SYSTEM_PROMPT (truthy (ts_system props)) in
  let prompt := ts_prompt props in
  let r := TypeScriptFile_code w props in
  (∃ e, generateText w system prompt = inr e ∧
        r = ([GenerateText system prompt], Thrown e)) ∨
  (∃ text body, generateText w system prompt = inl text ∧
        ts_blocks text = [body] ∧
        r = ([GenerateText system prompt], Returned (trim body))) ∨
  (∃ text err, generateText w system prompt = inl text ∧
        length (ts_blocks text) ≠ 1 ∧
        truthy (error (extractTypeScriptCode text)) = Some err ∧
        let again := errorSystem system err in
        ((∃ e, generateText w again prompt = inr e ∧
               r = ([GenerateText system prompt; GenerateText again prompt],
                    Thrown e)) ∨
         (∃ text' body, generateText w again prompt = inl text' ∧
               ts_blocks text' = [body] ∧
               r = ([GenerateText system prompt; GenerateText again prompt],
                    Returned (trim body))) ∨
         (∃ text' err', generateText w again prompt = inl text' ∧
               length (ts_blocks text') ≠ 1 ∧
               truthy (error (extractTypeScriptCode text')) = Some err' ∧
               r = ([GenerateText system prompt; GenerateText again prompt],
                    Thrown ("Failed to generate valid TypeScript code: "
                            ++ err'))))).
Proof.
  intros system prompt r. subst r. unfold TypeScriptFile_code.
  fold system prompt.
  destruct (generateText w system prompt) as [text|e] eqn:Hg;
    [|left; eauto].
  right. rewrite bind_perform_ok.
  destruct (extract_cases text) as [(body & Hb & He & Hc)|(Hn & err & He)].
  - left. exists text, body. rewrite He, Hc. done.
  - right. exists text, err. rewrite He. split_and!; [done..|].
    cbn zeta.
    destruct (generateText w (errorSystem system err) prompt)
      as [text'|e] eqn:Hg'.
    + rewrite bind_perform_ok.
      destruct (extract_cases text')
        as [(body & Hb & He' & Hc)|(Hn' & err' & He')]; rewrite He'.
      * right; left. exists text', body. rewrite Hc. done.
      * right; right. exists text', err'. done.
    + left. exists e. done.
Qed.

Ltac mem :=
  repeat match goal with
  | H : _ ∈ _ :: _ |- _ => apply elem_of_cons in H as [H|H]
  | H : _ ∈ [] |- _ => by apply elem_of_nil in H
  | H : _ ∈ _ ++ _ |- _ => apply elem_of_app in H as [H|H]
  end; simplify_eq.

Lemma TypeScriptFile_write_spec env w ph props old_path c :
  let r := TypeScriptFile_write env w ph props old_path c in
  let c' := match prettier_format w c with inl x => x | inr _ => c end in
  let moved := is_update ph && bool_decide (ts_path props ≠ old_path) in
  (∀ p d, WriteFile p d ∈ r.1 → p = ts_path props ∧ d = c') ∧
  (∀ p, Unlink p ∈ r.1 → moved = true ∧ p = old_path) ∧
  (∀ s p, GenerateText s p ∉ r.1) ∧
  (∀ out, r.2 = Returned out →
     out = {| out_props := props; content := c';
              createdAt := createdAt out; updatedAt := updatedAt out |} ∧
     fs_writeFile_code w (ts_path props) c' = FsOk ∧
     fs_stat w (ts_path props)
     = inl {| birthtimeMs := createdAt out; mtimeMs := updatedAt out |} ∧
     ∃ pre, r.1 = pre ++ [WriteFile (ts_path props) c'; Stat (ts_path props)] ∧
       (∀ p d, WriteFile p d ∉ pre) ∧
       (moved = true →
        ignore ["ENOENT"] (fs_unlink env old_path) = FsOk ∧
        ∃ pre', pre = pre' ++ [Unlink old_path])).
Proof.
  intros r c' moved. subst r c' moved. unfold TypeScriptFile_write.
  destruct (prettier_format w c) as [c'|e] eqn:Hf; cbn;
    (destruct (is_update ph && bool_decide (ts_path props ≠ old_path)); cbn;
     [destruct (ignore ["ENOENT"] (fs_unlink env old_path)) eqn:Hu; cbn|];
     (destruct (fs_writeFile_code w (ts_path props) _) eqn:Hw; cbn;
      [destruct (fs_stat w (ts_path props)) as [[bt mt]|e'] eqn:Hs; cbn|]));
    (split_and!;
      [by intros; mem|by intros; mem|by intros ?? ?; mem|try done]).
   all: intros out [= <-]; cbn; split_and!; try done.
  - exists [PrettierFormat c; Unlink old_path]. split_and!; [done| |].
    + by intros ?? ?; mem.
    + intros _. split; [done|]. by exists [PrettierFormat c].
  - exists [PrettierFormat c]. split_and!; [done| |done].
    by intros ?? ?; mem.
  - exists [PrettierFormat c; ConsoleWarn; Unlink old_path].
    split_and!; [done| |].
    + by intros ?? ?; mem.
    + intros _. split; [done|]. by exists [PrettierFormat c; ConsoleWarn].
  - exists [PrettierFormat c; ConsoleWarn]. split_and!; [done| |done].
    by intros ?? ?; mem.
Qed.

Lemma TypeScriptFile_calls_trace env w ph id props old_path :
  let d := path_dirname env (ts_path props) in
  let r := TypeScriptFile_calls env w ph id props old_path in
  (∃ e, fs_mkdir env d = FsError e ∧ r = ([Mkdir d], Thrown e)) ∨
  (fs_mkdir env d = FsOk ∧ ph = phase_delete ∧
   ∃ res, r = ([Mkdir d; Unlink (ts_path props)], res)) ∨
  (fs_mkdir env d = FsOk ∧ ph ≠ phase_delete ∧
   ∃ e tr, TypeScriptFile_code w props = (tr, Thrown e) ∧
           r = (Mkdir d :: tr, Thrown e)) ∨
  (fs_mkdir env d = FsOk ∧ ph ≠ phase_delete ∧
   ∃ c tr, TypeScriptFile_code w props = (tr, Returned c) ∧
     r = (Mkdir d :: tr ++ (TypeScriptFile_write env w ph props old_path c).1,
          (TypeScriptFile_write env w ph props old_path c).2)).
Proof.
  intros d r. subst d r. unfold TypeScriptFile_calls.
  destruct (fs_mkdir env (path_dirname env (ts_path props))) as [|e] eqn:Hm;
    [right|left; eauto].
  assert (∀ m : traced (TypeScriptFileOut number),
            perform (Mkdir (path_dirname env (ts_path props))) (of_fs FsOk)
            ≫= (λ _, m)
            = (Mkdir (path_dirname env (ts_path props)) :: m.1, m.2)) as Hb
    by done.
  rewrite Hb. clear Hb.
  assert (ph = phase_delete ∨
          ph ≠ phase_delete ∧
          match ph with
          | phase_delete =>
              try_catch
                (perform (Unlink (ts_path props))
                   (of_fs (fs_unlink env (ts_path props))))
                (λ c, if bool_decide (c ≠ "ENOENT") then throw c
                      else mret ()) ≫= λ _ : (), destroy
          | _ => TypeScriptFile_generate env w ph props old_path
          end = TypeScriptFile_generate env w ph props old_path)
    as [->|[Hph ->]] by (destruct ph; auto).
  - left. split_and!; [done..|].
    destruct (fs_unlink env (ts_path props)) as [|e] eqn:Hu; cbn;
      [eauto|].
    destruct (bool_decide (e ≠ "ENOENT")); cbn; eauto.
  - right. unfold TypeScriptFile_generate.
    destruct (TypeScriptFile_code w props) as [tr [c| |e]] eqn:Hc.
    + right. split_and!; [done..|]. exists c, tr. done.
    + exfalso. destruct (TypeScriptFile_code_cases w props)
        as [(?&?&?)|[(?&?&?&?&?)|(?&?&?&?&?&[(?&?&?)|[(?&?&?&?&?)|(?&?&?&?&?&?)]])]];
        congruence.
    + left. split_and!; [done..|]. exists e, tr. done.
Qed.


Lemma TypeScriptFile_code_only_asks w props c :
  c ∈ (TypeScriptFile_code w props).1 → is_GenerateText c = true.
Proof.
  intros Hin.
  destruct (TypeScriptFile_code_cases w props)
    as [(?&?&Hr)|[(?&?&?&?&Hr)|(t&err&?&?&?&[(?&?&Hr)|[(?&?&?&?&Hr)|(?&?&?&?&?&Hr)]])]];
    rewrite Hr in Hin; cbn in Hin; by mem.
Qed.




(** The result is the one the function without its calls gives. *)
Lemma TypeScriptFile_calls_result env w ph id props old_path :
  (TypeScriptFile_calls env w ph id props old_path).2
  = TypeScriptFile env ph id (ts_path props)
      (TypeScriptFile_generate env w ph props old_path).2.
Proof.
  unfold TypeScriptFile_calls, TypeScriptFile.
  destruct (fs_mkdir env (path_dirname env (ts_path props))); [|done].
  destruct ph; try done. cbn.
  destruct (fs_unlink env (ts_path props)) as [|e]; [done|]. cbn.
  by destruct (bool_decide (e ≠ "ENOENT")).
Qed.

(** X15. When [ai::TypeScriptFile] returns, the content it returns is
    what it wrote, by the only write it made, which succeeded and was
    followed by the [stat] that gives the two times; in an update that
    changes the path, the old file is removed just before. *)
Theorem returned_file_was_written env w ph id props old_path out :
  (TypeScriptFile_calls env w ph id props old_path).2 = Returned out →
  ph ≠ phase_delete ∧ out_props out = props ∧
  fs_writeFile_code w (ts_path props) (content out) = FsOk ∧
  fs_stat w (ts_path props)
  = inl {| birthtimeMs := createdAt out; mtimeMs := updatedAt out |} ∧
  ∃ pre, (TypeScriptFile_calls env w ph id props old_path).1
         = pre ++ [WriteFile (ts_path props) (content out);
                   Stat (ts_path props)] ∧
    (∀ p d, WriteFile p d ∉ pre) ∧
    (ph = phase_update → ts_path props ≠ old_path →
     ∃ pre', pre = pre' ++ [Unlink old_path]).
Proof.
  destruct (TypeScriptFile_calls_trace env w ph id props old_path)
    as [(e&?&Hr)|[(?&?&res&Hr)|[(?&?&e&tr&Hc&Hr)|(?&?&c&tr&Hc&Hr)]]];
    rewrite Hr; cbn [fst snd]; intros Hout; [done| |done|].
  - exfalso. subst ph.
    pose proof (TypeScriptFile_calls_result env w phase_delete id props
                  old_path) as Hres.
    rewrite Hr in Hres. cbn [snd] in Hres. rewrite Hout in Hres.
    unfold TypeScriptFile in Hres.
    destruct (fs_mkdir env (path_dirname env (ts_path props))); [|done].
    destruct (fs_unlink env (ts_path props)) as [|e']; [done|].
    by destruct (bool_decide (e' ≠ "ENOENT")).
  - destruct (TypeScriptFile_write_spec env w ph props old_path c)
      as (_ & _ & _ & Hw).
    destruct (Hw _ Hout) as (Ho & Hwr & Hst & pre & Htr & Hpre & Hmv).
    assert (content out = match prettier_format w c with
                          | inl x => x | inr _ => c end) as Hco
      by (by rewrite Ho).
    rewrite <- Hco in *.
    split_and!; [done|by rewrite Ho|done|done|].
    exists (Mkdir (path_dirname env (ts_path props)) :: tr ++ pre).
    rewrite Htr. split_and!.
    + cbn. by rewrite app_assoc.
    + intros p d Hin. apply elem_of_cons in Hin as [?|Hin]; [done|].
      apply elem_of_app in Hin as [Hin|Hin]; [|by apply Hpre in Hin].
      assert ((TypeScriptFile_code w props).1 = tr) as Heq
        by (by rewrite Hc).
      rewrite <- Heq in Hin. by apply TypeScriptFile_code_only_asks in Hin.
    + intros -> Hne. destruct Hmv as (_ & pre' & ->).
      { cbn. by rewrite bool_decide_eq_true_2. }
      exists (Mkdir (path_dirname env (ts_path props)) :: tr ++ pre').
      cbn. by rewrite app_assoc.
Qed.

(** The removal of the old file, among the calls of the last part. *)
Lemma TypeScriptFile_write_unlink env w ph props old_path c p :
  Unlink p ∈ (TypeScriptFile_write env w ph props old_path c).1 →
  p = old_path ∧
  is_update ph && bool_decide (ts_path props ≠ old_path) = true ∧
  ∃ pre post,
    (TypeScriptFile_write env w ph props old_path c).1
    = pre ++ Unlink old_path :: post ∧
    Forall (λ x, x = PrettierFormat c ∨ x = ConsoleWarn) pre ∧
    (∀ s q, GenerateText s q ∉ post).
Proof.
  unfold TypeScriptFile_write.
  destruct (prettier_format w c) as [c'|e] eqn:Hf; cbn;
    (destruct (is_update ph && bool_decide (ts_path props ≠ old_path)); cbn;
     [destruct (ignore ["ENOENT"] (fs_unlink env old_path)) eqn:Hu; cbn|];
     try (destruct (fs_writeFile_code w (ts_path props) _) eqn:Hw; cbn;
          [destruct (fs_stat w (ts_path props)) as [[bt mt]|e'] eqn:Hs;
           cbn|]));
    intros Hin; try (by mem);
    (split; [by mem|]); (split; [done|]).
  1-4: exists [PrettierFormat c]; eexists; (split; [reflexivity|]);
       (split; [apply Forall_forall; intros ? ?; mem; auto
               |by intros ?? ?; mem]).
  all: exists [PrettierFormat c; ConsoleWarn]; eexists;
       (split; [reflexivity|]);
       (split; [apply Forall_forall; intros ? ?; mem; auto
               |by intros ?? ?; mem]).
Qed.

(** The code that is obtained is the one block of the last answer. *)
Lemma TypeScriptFile_code_last w props tr c :
  TypeScriptFile_code w props = (tr, Returned c) →
  ∃ system text body,
    last tr = Some (GenerateText system (ts_prompt props)) ∧
    generateText w system (ts_prompt props) = inl text ∧
    ts_blocks text = [body] ∧ c = trim body.
Proof.
  intros Hc.
  destruct (TypeScriptFile_code_cases w props)
    as [(?&?&Hr)|[(?&?&?&?&Hr)|(t&err&?&?&?&[(?&?&Hr)|[(?&?&?&?&Hr)|(?&?&?&?&?&Hr)]])]];
    rewrite Hr in Hc; simplify_eq; by eexists _, _, _.
Qed.

Lemma filter_asks (l : list call) :
  (∀ c, c ∈ l → is_GenerateText c = true) →
  List.filter is_GenerateText l = l.
Proof.
  induction l as [|x l IH]; intros Hl; [done|]. cbn [List.filter].
  rewrite (Hl x) by by left. f_equal. apply IH. intros c Hc. apply Hl.
  by right.
Qed.

(** X16. A file is removed either in the phase [delete], and it is the
    file of the properties, removed right after the directory was made,
    or in an update that changes the path, and then it is the old file:
    before it is removed the model was asked, the last answer it gave
    holds exactly one block, and nothing was written or removed; after
    it the model is not asked again. *)
Theorem old_file_removed_only_when_moved env w ph id props old_path p :
  Unlink p ∈ (TypeScriptFile_calls env w ph id props old_path).1 →
  (ph = phase_delete ∧ p = ts_path props ∧
   (TypeScriptFile_calls env w ph id props old_path).1
   = [Mkdir (path_dirname env (ts_path props)); Unlink (ts_path props)]) ∨
  (ph = phase_update ∧ p = old_path ∧ ts_path props ≠ old_path ∧
   ∃ pre post system text body,
     (TypeScriptFile_calls env w ph id props old_path).1
     = pre ++ Unlink old_path :: post ∧
     last (List.filter is_GenerateText pre)
     = Some (GenerateText system (ts_prompt props)) ∧
     generateText w system (ts_prompt props) = inl text ∧
     ts_blocks text = [body] ∧
     (∀ x d, WriteFile x d ∉ pre) ∧ (∀ x, Unlink x ∉ pre) ∧
     (∀ s q, GenerateText s q ∉ post)).
Proof.
  destruct (TypeScriptFile_calls_trace env w ph id props old_path)
    as [(e&?&Hr)|[(?&?&res&Hr)|[(?&?&e&tr&Hc&Hr)|(?&?&c&tr&Hc&Hr)]]];
    rewrite Hr; cbn [fst]; intros Hin.
  - by mem.
  - mem. by left.
  - apply elem_of_cons in Hin as [?|Hin]; [done|].
    assert ((TypeScriptFile_code w props).1 = tr) as Htr by (by rewrite Hc).
    rewrite <- Htr in Hin. by apply TypeScriptFile_code_only_asks in Hin.
  - assert (∀ x, x ∈ tr → is_GenerateText x = true) as Hasks.
    { intros x Hx. apply (TypeScriptFile_code_only_asks w props).
      by rewrite Hc. }
    apply elem_of_cons in Hin as [?|Hin]; [done|].
    apply elem_of_app in Hin as [Hin|Hin]; [by apply Hasks in Hin|].
    apply TypeScriptFile_write_unlink in Hin
      as (-> & Hmv & pre & post & Hw & Hpre & Hpost).
    right. apply andb_true_iff in Hmv as [Hup Hne].
    apply bool_decide_eq_true_1 in Hne.
    destruct (TypeScriptFile_code_last _ _ _ _ Hc)
      as (system & text & body & Hlast & Ht & Hb & _).
    split_and!; [by destruct ph|done|done|].
    exists (Mkdir (path_dirname env (ts_path props)) :: tr ++ pre), post,
      system, text, body.
    rewrite Forall_forall in Hpre.
    split_and!; [|  |done|done| | |done].
    + rewrite Hw. cbn. by rewrite app_assoc.
    + cbn [List.filter is_GenerateText]. rewrite List.filter_app.
      rewrite (filter_asks tr Hasks).
      assert (List.filter is_GenerateText pre = []) as ->.
      { apply filter_no_asks. intros s q Hq. by destruct (Hpre _ Hq). }
      by rewrite app_nil_r.
    + intros x d Hx. apply elem_of_cons in Hx as [?|Hx]; [done|].
      apply elem_of_app in Hx as [Hx|Hx]; [by apply Hasks in Hx|].
      by destruct (Hpre _ Hx).
    + intros x Hx. apply elem_of_cons in Hx as [?|Hx]; [done|].
      apply elem_of_app in Hx as [Hx|Hx]; [by apply Hasks in Hx|].
      by destruct (Hpre _ Hx).
Qed.

(** X17. When neither the first answer nor the answer to the second
    attempt holds exactly one block, the function fails with the error
    of the second answer, after the directory was made and the model
    asked twice: nothing is formatted, removed or written. *)
Theorem two_invalid_answers_fail env w ph id props old_path text text' :
  let system := default DEFAULT_TS_SYSTEM_PROMPT (truthy (ts_system props)) in
  let d := path_dirname env (ts_path props) in
  ph ≠ phase_delete →
  fs_mkdir env d = FsOk →
  generateText w system (ts_prompt props) = inl text →
  length (ts_blocks text) ≠ 1 →
  (∀ err, generateText w (errorSystem system err) (ts_prompt props)
          = inl text') →
  length (ts_blocks text') ≠ 1 →
  ∃ err err',
    error (extractTypeScriptCode text) = Some err ∧
    error (extractTypeScriptCode text') = Some err' ∧
    TypeScriptFile_calls env w ph id props old_path
    = ([Mkdir d; GenerateText system (ts_prompt props);
        GenerateText (errorSystem system err) (ts_prompt props)],
       Thrown ("Failed to generate valid TypeScript code: " ++ err')).
Proof.
  intros system d. subst system d. intros Hph Hm Hg Hn Hg' Hn'.
  destruct (TypeScriptFile_code_cases w props)
    as [(?&H1&Hr)|[(?&?&H1&Hb&Hr)|(t&err&H1&_&He&H2)]];
    rewrite Hg in H1; simplify_eq.
  { by rewrite Hb in Hn. }
  cbn zeta in H2. rewrite !Hg' in H2.
  destruct H2 as [(?&H2&Hr)|[(?&?&H2&Hb&Hr)|(t'&err'&H2&_&He'&Hr)]];
    simplify_eq.
  { by rewrite Hb in Hn'. }
  apply truthy_Some in He as [He _]. apply truthy_Some in He' as [He' _].
  exists err, err'. split_and!; [done..|].
  destruct (TypeScriptFile_calls_trace env w ph id props old_path)
    as [(e&?&Hc)|[(?&?&res&Hc)|[(?&?&e&tr&Hc&Hc')|(?&?&c&tr&Hc&Hc')]]];
    congruence.
Qed.
End TypeScriptFileCalls.


Lemma returned_file_was_written_witness :
  fs_writeFile_code forgetful_model "out/gen.ts" (of_ascii "const x = 1;")
  = FsOk ∧
  ∃ pre, (TypeScriptFile_calls targets_absent forgetful_model phase_update
            "gen" gen_props "out/old.ts").1
         = pre ++ [WriteFile "out/gen.ts" (of_ascii "const x = 1;");
                   Stat "out/gen.ts"].
Proof.
  destruct (returned_file_was_written targets_absent forgetful_model
              phase_update "gen" gen_props "out/old.ts"
              {| out_props := gen_props; content := of_ascii "const x = 1;";
                 createdAt := 1%Z; updatedAt := 2%Z |})
    as (_ & _ & Hw & _ & pre & Htr & _).
  - vm_compute. reflexivity.
  - split; [exact Hw|]. exists pre. exact Htr.
Defined.

Lemma old_file_removed_only_when_moved_witness :
  ∃ pre post system text body,
    (TypeScriptFile_calls targets_absent forgetful_model phase_update "gen"
       gen_props "out/old.ts").1
    = pre ++ Unlink "out/old.ts" :: post ∧
    last (List.filter is_GenerateText pre)
    = Some (GenerateText system (ts_prompt gen_props)) ∧
    generateText forgetful_model system (ts_prompt gen_props) = inl text ∧
    ts_blocks text = [body].
Proof.
  destruct (old_file_removed_only_when_moved targets_absent forgetful_model
              phase_update "gen" gen_props "out/old.ts" "out/old.ts")
    as [(Hph & _)|(_ & _ & _ & pre & post & system & text & body
                   & H1 & H2 & H3 & H4 & _)].
  - apply list_elem_of_In. vm_compute. auto 10.
  - discriminate Hph.
  - exists pre, post, system, text, body. repeat split; assumption.
Defined.

Lemma two_invalid_answers_fail_witness :
  ∃ err err',
    error (extractTypeScriptCode answer_without_fence) = Some err ∧
    error (extractTypeScriptCode answer_without_fence) = Some err' ∧
    TypeScriptFile_calls targets_absent fenceless_model phase_create "gen"
      gen_props "out/old.ts"
    = ([Mkdir (path_dirname targets_absent (ts_path gen_props));
        GenerateText
          (default DEFAULT_TS_SYSTEM_PROMPT (truthy (ts_system gen_props)))
          (ts_prompt gen_props);
        GenerateText
          (errorSystem
             (default DEFAULT_TS_SYSTEM_PROMPT
                (truthy (ts_system gen_props))) err)
          (ts_prompt gen_props)],
       Thrown ("Failed to generate valid TypeScript code: " ++ err')).
Proof.
  apply (two_invalid_answers_fail targets_absent fenceless_model phase_create
           "gen" gen_props "out/old.ts" answer_without_fence
           answer_without_fence).
  - discriminate.
  - reflexivity.
  - reflexivity.
  - vm_compute. discriminate.
  - intros err. reflexivity.
  - vm_compute. discriminate.
Defined.

(** ** [waitForFunctionStabilization] *)

(** The loop, from any number of requests already sent. *)
Lemma wait_from send fuel polls n r :
  waitForFunctionStabilization send fuel polls = Some (n, r) ↔
  polls < n ≤ polls + fuel ∧
  (∀ i, polls ≤ i < n - 1 → in_progress (send i)) ∧
  ¬ in_progress (send (n - 1)) ∧
  r = match send (n - 1) with
      | inr e => Thrown e
      | inl config =>
          if is_stable config then Returned tt
          else Thrown ("Function failed to stabilize: "
                       ++ failure_reason config)
      end.
Proof.
  revert polls. induction fuel as [|fuel IH]; intros polls; simpl.
  { split; [done|]. intros ([? ?] & _). lia. }
  destruct (send polls) as [config|e] eqn:Hp.
  - destruct (is_stable config) eqn:Hs; [|destruct (is_failed config) eqn:Hf].
    + split.
      * intros [= <- <-]. replace (S polls - 1) with polls by lia.
        rewrite Hp, Hs. split_and!; [lia|lia|intros; lia| |done].
        intros (c & [= <-] & ? & _). congruence.
      * intros ([Hlt Hle] & Hprog & Hn & ->).
        destruct (decide (n = S polls)) as [->|Hne].
        { replace (S polls - 1) with polls by lia. by rewrite Hp, Hs. }
        destruct (Hprog polls) as (c & Hc & Hcs & _); [lia|].
        rewrite Hp in Hc. simplify_eq. congruence.
    + split.
      * intros [= <- <-]. replace (S polls - 1) with polls by lia.
        rewrite Hp, Hs. split_and!; [lia|lia|intros; lia| |done].
        intros (c & [= <-] & ? & ?). congruence.
      * intros ([Hlt Hle] & Hprog & Hn & ->).
        destruct (decide (n = S polls)) as [->|Hne].
        { replace (S polls - 1) with polls by lia. by rewrite Hp, Hs. }
        destruct (Hprog polls) as (c & Hc & _ & Hcf); [lia|].
        rewrite Hp in Hc. simplify_eq. congruence.
    + rewrite IH. split.
      * intros ([Hlt Hle] & Hprog & Hn & ->).
        split_and!; [lia|lia| |done|done].
        intros i Hi. destruct (decide (i = polls)) as [->|Hne].
        -- rewrite Hp. by exists config.
        -- apply Hprog. lia.
      * intros ([Hlt Hle] & Hprog & Hn & ->).
        assert (n ≠ S polls) as Hne.
        { intros ->. apply Hn. replace (S polls - 1) with polls by lia.
          rewrite Hp. by exists config. }
        split_and!; [lia|lia| |done|done].
        intros i Hi. apply Hprog. lia.
  - split.
    + intros [= <- <-]. replace (S polls - 1) with polls by lia.
      rewrite Hp. split_and!; [lia|lia|intros; lia| |done].
      by intros (c & ? & _).
    + intros ([Hlt Hle] & Hprog & Hn & ->).
      destruct (decide (n = S polls)) as [->|Hne].
      { replace (S polls - 1) with polls by lia. by rewrite Hp. }
      destruct (Hprog polls) as (c & Hc & _); [lia|].
      rewrite Hp in Hc. simplify_eq.
Qed.

(** X19. [waitForFunctionStabilization] ends with its request number [n]
    exactly when that request is the first whose answer does not make
    the loop go on: it returns when the function is active and its last
    update successful, and throws when the request throws or the answer
    reports a failure. *)
Theorem stabilization_ends_at_first_decision
    (send : nat → FunctionConfiguration + string) (fuel n : nat)
    (r : provided unit) :
  waitForFunctionStabilization send fuel 0 = Some (n, r) ↔
  0 < n ≤ fuel ∧
  (∀ i, i < n - 1 → in_progress (send i)) ∧
  ¬ in_progress (send (n - 1)) ∧
  r = match send (n - 1) with
      | inr e => Thrown e
      | inl config =>
          if is_stable config then Returned tt
          else Thrown ("Function failed to stabilize: "
                       ++ failure_reason config)
      end.
Proof.
  rewrite wait_from. split.
  - intros (? & Hp & ? & ?). split_and!; [lia|lia| |done|done].
    intros i Hi. apply Hp. lia.
  - intros (? & Hp & ? & ?). split_and!; [lia|lia| |done|done].
    intros i Hi. apply Hp. lia.
Qed.

(** X20. [waitForFunctionStabilization] has no timeout: as long as the
    answers report neither success nor failure, it goes on asking. *)
Theorem stabilization_has_no_timeout
    (send : nat → FunctionConfiguration + string) :
  (∀ i, in_progress (send i)) →
  ∀ fuel, waitForFunctionStabilization send fuel 0 = None.
Proof.
  intros Hall fuel.
  destruct (waitForFunctionStabilization send fuel 0) as [[n r]|] eqn:Hw;
    [|done].
  apply stabilization_ends_at_first_decision in Hw as (_ & _ & Hn & _).
  by destruct Hn.
Qed.

Lemma stabilization_has_no_timeout_witness :
  (∀ i, in_progress (always_pending i)) ∧
  ∀ fuel, waitForFunctionStabilization always_pending fuel 0 = None.
Proof.
  assert (∀ i, in_progress (always_pending i)) as H.
  { intros i. eexists. split; [reflexivity|]. split; reflexivity. }
  split; [exact H|]. exact (stabilization_has_no_timeout always_pending H).
Defined.

(** ** [aws.iam.Role] *)

Lemma sends_only_ret {A} P (a : A) : sends_only P (mret a).
Proof. intros sent. exists []. by rewrite app_nil_r. Qed.

Lemma sends_only_throw {A} P e : sends_only P (iam_throw (A:=A) e).
Proof. intros sent. exists []. by rewrite app_nil_r. Qed.

Lemma sends_only_bind {A B} P (m : iam A) (f : A → iam B) :
  sends_only P m → (∀ a, sends_only P (f a)) → sends_only P (m ≫= f).
Proof.
  intros Hm Hf sent. unfold mbind, iam_bind.
  destruct (Hm sent) as (more & Hs & HP).
  destruct (m sent) as [sent' [a|e]]; simpl in Hs; subst sent'.
  - destruct (Hf a (sent ++ more)) as (more' & Hs' & HP').
    exists (more ++ more'). rewrite Hs', app_assoc. split; [done|].
    by apply Forall_app.
  - by exists more.
Qed.

Lemma sends_only_try {A} P (m : iam A) (h : sdk_error → iam A) :
  sends_only P m → (∀ e, sends_only P (h e)) → sends_only P (iam_try m h).
Proof.
  intros Hm Hh sent. unfold iam_try.
  destruct (Hm sent) as (more & Hs & HP).
  destruct (m sent) as [sent' [a|e]]; simpl in Hs; subst sent'.
  - by exists more.
  - destruct (Hh e (sent ++ more)) as (more' & Hs' & HP').
    exists (more ++ more'). rewrite Hs', app_assoc. split; [done|].
    by apply Forall_app.
Qed.

Lemma sends_only_ignore P name (m : iam unit) :
  sends_only P m → sends_only P (iam_ignore name m).
Proof.
  intros Hm. apply sends_only_try; [done|]. intros e.
  destruct (ignore _ _); [apply sends_only_ret|apply sends_only_throw].
Qed.

Lemma sends_only_for {A} P (xs : list A) (body : A → iam unit) :
  (∀ x, x ∈ xs → sends_only P (body x)) → sends_only P (iam_for xs body).
Proof.
  induction xs as [|x xs IH]; intros Hb; simpl; [apply sends_only_ret|].
  apply sends_only_bind.
  - apply Hb. by left.
  - intros _. apply IH. intros y Hy. apply Hb. by right.
Qed.

Lemma sends_only_if {A} P (b : bool) (m1 m2 : iam A) :
  (b = true → sends_only P m1) → (b = false → sends_only P m2) →
  sends_only P (if b then m1 else m2).
Proof. destruct b; auto. Qed.

Lemma bind_inl {A B} (m : iam A) (f : A → iam B) sent sent' b :
  (m ≫= f) sent = (sent', inl b) →
  ∃ a sent1, m sent = (sent1, inl a) ∧ f a sent1 = (sent', inl b).
Proof.
  unfold mbind, iam_bind. destruct (m sent) as [sent1 [a|e]]; [eauto|done].
Qed.

Lemma appends {A} (m : iam A) sent :
  sends_only (λ _, True) m → ∃ more, (m sent).1 = sent ++ more.
Proof. intros H. destruct (H sent) as (more & ? & _). eauto. Qed.

(** A loop that returns has sent the command of every element that
    asks for one. *)
Lemma iam_for_sent {A} (xs : list A) (body : A → iam unit)
    (cond : A → bool) (cmd : A → iam_command) sent sent' u :
  (∀ x, sends_only (λ _, True) (body x)) →
  (∀ x sent, cond x = true → (body x sent).1 = sent ++ [cmd x]) →
  iam_for xs body sent = (sent', inl u) →
  (∃ more, sent' = sent ++ more) ∧
  ∀ x, x ∈ xs → cond x = true → cmd x ∈ sent'.
Proof.
  intros Happ Hcmd. revert sent.
  induction xs as [|x xs IH]; intros sent Hrun; simpl in Hrun.
  - injection Hrun as <- _. split; [exists []; by rewrite app_nil_r|].
    intros x Hx. by apply elem_of_nil in Hx.
  - apply bind_inl in Hrun as ([] & sent1 & Hx & Hrest).
    destruct (IH _ Hrest) as ((more & ->) & Hall).
    destruct (appends (body x) sent (Happ x)) as (more1 & Hm1).
    rewrite Hx in Hm1. simpl in Hm1. subst sent1. split.
    + exists (more1 ++ more). by rewrite app_assoc.
    + intros y Hy Hc. apply elem_of_cons in Hy as [->|Hy]; [|by apply Hall].
      pose proof (Hcmd x sent Hc) as Hs. rewrite Hx in Hs. simpl in Hs.
      rewrite Hs. apply elem_of_app. left. apply elem_of_app. right.
      by apply list_elem_of_singleton.
Qed.

Lemma existsb_policy (cur : list RolePolicy) n :
  existsb (λ p, bool_decide (policyName p = n)) cur = true ↔
  n ∈ policyName <$> cur.
Proof.
  rewrite existsb_exists, list_elem_of_fmap. split.
  - intros (p & Hin & Hp%bool_decide_eq_true_1).
    exists p. split; [done|]. by apply list_elem_of_In.
  - intros (p & -> & Hin). exists p. split; [by apply list_elem_of_In|].
    by apply bool_decide_eq_true_2.
Qed.

Lemma put_needed_iff (previous : list RolePolicy) policy :
  match find (λ p, bool_decide (policyName p = policyName policy)) previous
  with
  | None => true
  | Some old => bool_decide (policyDocument old ≠ policyDocument policy)
  end = true ↔ new_or_changed previous policy.
Proof.
  unfold new_or_changed.
  destruct (find _ previous) as [old|]; [|by split].
  rewrite bool_decide_eq_true. split.
  - by intros H ? [= <-].
  - intros H. by apply H.
Qed.

Section RoleFacts.
Context (client_send :
  list iam_command → iam_command → option IamRole + sdk_error).
Context (AWS_ACCOUNT_ID : option string) (now : Z).

Lemma sends_only_send (P : iam_command → Prop) c :
  P c → sends_only P (send client_send c).
Proof. intros Hc sent. exists [c]. split; [done|]. by constructor. Qed.

Lemma sends_only_send_ (P : iam_command → Prop) c :
  P c → sends_only P (send client_send c;; mret tt).
Proof.
  intros Hc. apply sends_only_bind; [by apply sends_only_send|].
  intros _. apply sends_only_ret.
Qed.

Lemma Role_policies_allowed event output_policies props :
  sends_only (allowed event output_policies props)
    (Role_policies client_send event output_policies props).
Proof.
  unfold Role_policies. apply sends_only_bind.
  - apply sends_only_for. intros old Hold.
    apply sends_only_if; intros Hc; [|apply sends_only_ret].
    apply sends_only_ignore, sends_only_send_. split_and!; [done| |].
    + apply list_elem_of_fmap. eauto.
    + apply negb_true_iff in Hc. rewrite <- existsb_policy. congruence.
  - intros _. apply sends_only_for. intros policy Hp.
    apply sends_only_if; intros Hc; [|apply sends_only_ret].
    apply sends_only_send_. split; [done|]. exists policy.
    split_and!; [done..|]. by apply put_needed_iff.
Qed.

Lemma Role_allowed event stage resourceID output_policies props :
  event ≠ phase_delete →
  sends_only (allowed event output_policies props)
    (Role client_send AWS_ACCOUNT_ID now event stage resourceID
       output_policies props).
Proof.
  intros Hev. unfold Role.
  replace (match event with phase_delete => true | _ => false end)
    with false by (by destruct event).
  apply sends_only_bind.
  { apply sends_only_try.
    - apply sends_only_if; intros Hc; [|apply sends_only_ret].
      apply sends_only_send_. simpl. by destruct event.
    - intros e. apply sends_only_if; intros _.
      + apply sends_only_bind; [by apply sends_only_send|]. intros ex.
        apply sends_only_if; intros _;
          [apply sends_only_throw|apply sends_only_ret].
      + apply sends_only_if; intros _;
          [apply sends_only_throw|apply sends_only_ret]. }
  intros _. apply sends_only_bind; [by apply sends_only_send|]. intros role.
  apply sends_only_bind.
  { apply sends_only_if; intros _; [|apply sends_only_ret].
    by apply sends_only_send_. }
  intros _. apply sends_only_bind.
  { apply sends_only_if; intros _; [|apply sends_only_ret].
    by apply sends_only_send_. }
  intros _. apply sends_only_bind; [by apply sends_only_send|].
  intros _. apply sends_only_bind; [apply Role_policies_allowed|].
  intros _. destruct role; [apply sends_only_ret|apply sends_only_throw].
Qed.

Lemma send_run c sent :
  send client_send c sent = (sent ++ [c], client_send sent c).
Proof. done. Qed.

Lemma bind_run_inl {A B} (m : iam A) (f : A → iam B) sent sent1 a :
  m sent = (sent1, inl a) → (m ≫= f) sent = f a sent1.
Proof. intros H. unfold mbind, iam_bind. by rewrite H. Qed.

Lemma bind_run_inr {A B} (m : iam A) (f : A → iam B) sent sent1 e :
  m sent = (sent1, inr e) → (m ≫= f) sent = (sent1, inr e).
Proof. intros H. unfold mbind, iam_bind. by rewrite H. Qed.

(** A loop none of whose elements asks for a command sends nothing. *)
Lemma iam_for_nothing {A} (xs : list A) (body : A → iam unit) sent :
  (∀ x, x ∈ xs → body x = mret tt) → iam_for xs body sent = (sent, inl tt).
Proof.
  induction xs as [|x xs IH]; intros Hb; [done|]. simpl.
  rewrite (Hb x) by by left.
  apply IH. intros y Hy. apply Hb. by right.
Qed.

Lemma find_NoDup (l : list RolePolicy) policy :
  NoDup (policyName <$> l) → policy ∈ l →
  find (λ p, bool_decide (policyName p = policyName policy)) l = Some policy.
Proof.
  induction l as [|q l IH]; intros Hnd Hin; [by apply elem_of_nil in Hin|].
  rewrite fmap_cons in Hnd. apply NoDup_cons in Hnd as [Hq Hnd]. simpl.
  apply elem_of_cons in Hin as [->|Hin].
  - by rewrite bool_decide_eq_true_2.
  - rewrite bool_decide_eq_false_2; [by apply IH|].
    intros Heq. apply Hq. rewrite Heq. apply list_elem_of_fmap. eauto.
Qed.

(** Policies that did not change ask for no command. *)
Lemma Role_policies_unchanged output_policies props sent :
  output_policies = policies props →
  NoDup (policyName <$> currentPolicies props) →
  Role_policies client_send phase_update output_policies props sent
  = (sent, inl tt).
Proof.
  intros -> Hnd. unfold Role_policies, previousPolicies. cbn [is_update].
  fold (currentPolicies props).
  erewrite bind_run_inl; [|apply iam_for_nothing].
  - apply iam_for_nothing. intros policy Hp.
    rewrite (find_NoDup _ _ Hnd Hp).
    by rewrite bool_decide_eq_false_2 by (by intros H; apply H).
  - intros old Hold. cbn beta.
    assert (existsb (λ p, bool_decide (policyName p = policyName old))
              (currentPolicies props) = true) as ->; [|done].
    apply existsb_policy, list_elem_of_fmap. eauto.
Qed.

(** The commands of a deletion when nothing fails but by
    [NoSuchEntityException]. *)
Lemma delete_policies_run name (ps : list RolePolicy) sent :
  (∀ sent c, match client_send sent c with
             | inl _ => True
             | inr e => error_name e = "NoSuchEntityException"
             end) →
  iam_for ps (λ policy,
    iam_ignore "NoSuchEntityException"
      (send client_send (DeleteRolePolicyCommand name (policyName policy));;
       mret tt)) sent
  = (sent ++ (DeleteRolePolicyCommand name ∘ policyName <$> ps), inl tt).
Proof.
  intros Hgone. revert sent.
  induction ps as [|p ps IH]; intros sent; simpl.
  { by rewrite app_nil_r. }
  rewrite (bind_run_inl _ _ sent
             (sent ++ [DeleteRolePolicyCommand name (policyName p)]) tt).
  - rewrite IH. by rewrite <- app_assoc.
  - unfold iam_ignore, iam_try, mbind, iam_bind. rewrite send_run.
    pose proof (Hgone sent (DeleteRolePolicyCommand name (policyName p)))
      as Hc.
    destruct (client_send sent _) as [?|e]; [done|].
    rewrite Hc. done.
Qed.

(** X21. Outside a deletion, whatever the client answers, [aws.iam.Role]
    deletes an inline policy only in an update, when the policy was in
    the previous output and no current policy has its name; it puts a
    policy only when it is a current policy that is new or whose
    document changed; it never deletes the role, and creates it in the
    phase [create] only. *)
Theorem role_commands_are_justified event stage resourceID output_policies
    props :
  event ≠ phase_delete →
  let trace := (Role client_send AWS_ACCOUNT_ID now event stage resourceID
                  output_policies props []).1 in
  (∀ rn n, DeleteRolePolicyCommand rn n ∈ trace →
     rn = roleName props ∧ event = phase_update ∧
     n ∈ policyName <$> default [] output_policies ∧
     n ∉ policyName <$> default [] (policies props)) ∧
  (∀ rn n d, PutRolePolicyCommand rn n d ∈ trace →
     rn = roleName props ∧
     ∃ policy, policy ∈ default [] (policies props) ∧
       policyName policy = n ∧ policyDocument policy = d ∧
       new_or_changed (previousPolicies event output_policies) policy) ∧
  (∀ rn, DeleteRoleCommand rn ∉ trace) ∧
  (∀ rn doc de pa ma pe ta,
     CreateRoleCommand rn doc de pa ma pe ta ∈ trace → event = phase_create).
Proof.
  intros Hev trace. subst trace.
  destruct (Role_allowed event stage resourceID output_policies props Hev [])
    as (more & -> & Hall).
  rewrite Forall_forall in Hall. cbn [app].
  split_and!.
  - intros rn n Hin. destruct (Hall _ Hin) as (-> & Hp & Hc).
    split_and!; [done| | |done].
    + unfold previousPolicies in Hp. destruct event; try done.
      all: by apply elem_of_nil in Hp.
    + unfold previousPolicies in Hp. destruct event; try done.
      all: by apply elem_of_nil in Hp.
  - intros rn n d Hin. by destruct (Hall _ Hin) as (-> & Hp).
  - intros rn Hin. by destruct (Hall _ Hin).
  - intros rn doc de pa ma pe ta Hin. exact (Hall _ Hin).
Qed.

(** X22. When [aws.iam.Role] returns outside a deletion, it has asked to
    delete every previous policy whose name is gone, to put every
    current policy that is new or changed, and to tag the role with the
    tags of the properties, the stage and the resource id. *)
Theorem returned_role_is_synchronised event stage resourceID output_policies
    props trace out :
  event ≠ phase_delete →
  Role client_send AWS_ACCOUNT_ID now event stage resourceID output_policies
    props [] = (trace, inl out) →
  (∀ old, old ∈ previousPolicies event output_policies →
     policyName old ∉ policyName <$> currentPolicies props →
     DeleteRolePolicyCommand (roleName props) (policyName old) ∈ trace) ∧
  (∀ policy, policy ∈ currentPolicies props →
     new_or_changed (previousPolicies event output_policies) policy →
     PutRolePolicyCommand (roleName props) (policyName policy)
       (policyDocument policy) ∈ trace) ∧
  GetRoleCommand (roleName props) ∈ trace ∧
  TagRoleCommand (roleName props)
    (set_tag "alchemy_resource" resourceID
       (set_tag "alchemy_stage" stage (default [] (tags props)))) ∈ trace ∧
  role_props out = props ∧ role_id out = roleName props.
Proof.
  intros Hev Hrun. unfold Role in Hrun.
  replace (match event with phase_delete => true | _ => false end)
    with false in Hrun by (by destruct event).
  apply bind_inl in Hrun as (? & s1 & _ & Hrun).
  apply bind_inl in Hrun as (role & s2 & Hget & Hrun).
  apply bind_inl in Hrun as (? & s3 & H3 & Hrun).
  apply bind_inl in Hrun as (? & s4 & H4 & Hrun).
  apply bind_inl in Hrun as (? & s5 & Htag & Hrun).
  apply bind_inl in Hrun as (? & s6 & Hpol & Hrun).
  rewrite send_run in Hget, Htag. simplify_eq.
  assert (∃ more, s3 = (s1 ++ [GetRoleCommand (roleName props)]) ++ more)
    as (m3 & ->).
  { destruct (bool_decide _) in H3.
    - apply bind_inl in H3 as (? & ? & Hs & [= <- _]).
      rewrite send_run in Hs. simplify_eq. eauto.
    - injection H3 as <- _. exists []. by rewrite app_nil_r. }
  assert (∃ more, s4 = ((s1 ++ [GetRoleCommand (roleName props)]) ++ m3)
                       ++ more) as (m4 & ->).
  { destruct (_ || _) in H4.
    - apply bind_inl in H4 as (? & ? & Hs & [= <- _]).
      rewrite send_run in Hs. simplify_eq. eauto.
    - injection H4 as <- _. exists []. by rewrite app_nil_r. }
  unfold Role_policies in Hpol.
  apply bind_inl in Hpol as (? & s7 & Hdel & Hput).
  eapply (iam_for_sent _ _
            (λ old, negb (existsb (λ p, bool_decide
                                          (policyName p = policyName old))
                            (currentPolicies props)))
            (λ old, DeleteRolePolicyCommand (roleName props) (policyName old)))
    in Hdel as ((m7 & ->) & Hdel).
  2:{ intros old. apply sends_only_if; intros _.
      - apply sends_only_ignore, sends_only_send_. done.
      - apply sends_only_ret. }
  2:{ intros old sent ->. unfold iam_ignore, iam_try, mbind, iam_bind.
      rewrite send_run. destruct (client_send sent _); [done|].
      by destruct (ignore _ _). }
  eapply (iam_for_sent _ _
            (λ policy,
               match find (λ p, bool_decide (policyName p = policyName policy))
                       (previousPolicies event output_policies) with
               | None => true
               | Some old =>
                   bool_decide (policyDocument old ≠ policyDocument policy)
               end)
            (λ policy, PutRolePolicyCommand (roleName props)
                         (policyName policy) (policyDocument policy)))
    in Hput as ((m6 & ->) & Hput).
  2:{ intros policy. cbn zeta. apply sends_only_if; intros _.
      - by apply sends_only_send_.
      - apply sends_only_ret. }
  2:{ intros policy sent Hc. cbn zeta. rewrite Hc.
      unfold mbind, iam_bind. rewrite send_run.
      by destruct (client_send sent _). }
  assert (trace = ((((((s1 ++ [GetRoleCommand (roleName props)]) ++ m3) ++ m4)
                      ++ [TagRoleCommand (roleName props)
                            (set_tag "alchemy_resource" resourceID
                               (set_tag "alchemy_stage" stage
                                  (default [] (tags props))))]) ++ m7) ++ m6)
          ∧ role_props out = props ∧ role_id out = roleName props)
    as (-> & Hp & Hi).
  { destruct role; [|done]. by injection Hrun as <- <-. }
  split_and!; [| | | |done|done].
  - intros old Hold Hn. apply elem_of_app. left. apply Hdel; [done|].
    apply negb_true_iff. apply not_true_is_false.
    by rewrite existsb_policy.
  - intros policy Hin Hch. apply Hput; [done|]. by apply put_needed_iff.
  - rewrite !elem_of_app, !list_elem_of_singleton. auto 10.
  - rewrite !elem_of_app, !list_elem_of_singleton. auto 10.
Qed.

(** X23. An update that changes nothing (same policies, with distinct
    names, and a role whose trust policy, description and session
    duration are those of the properties) sends two commands only: it
    gets the role and tags it. *)
Theorem unchanged_update_only_tags stage resourceID props role answer :
  NoDup (policyName <$> currentPolicies props) →
  client_send [] (GetRoleCommand (roleName props)) = inl (Some role) →
  iam_AssumeRolePolicyDocument role = Some (assumeRolePolicy props) →
  iam_Description role = description props →
  iam_MaxSessionDuration role = maxSessionDuration props →
  let tag := TagRoleCommand (roleName props)
               (set_tag "alchemy_resource" resourceID
                  (set_tag "alchemy_stage" stage (default [] (tags props)))) in
  client_send [GetRoleCommand (roleName props)] tag = inl answer →
  Role client_send AWS_ACCOUNT_ID now phase_update stage resourceID
    (policies props) props []
  = ([GetRoleCommand (roleName props); tag],
     inl {| role_props := props; role_id := roleName props;
            role_arn := iam_Arn role; uniqueId := iam_RoleId role;
            roleId := iam_RoleId role; createDate := iam_CreateDate role |}).
Proof.
  intros Hnd Hget Hdoc Hdesc Hmax tag Htag. unfold Role.
  cbn [is_create iam_try]. unfold iam_try.
  rewrite (bind_run_inl _ _ [] [] tt) by done.
  rewrite (bind_run_inl _ _ [] [GetRoleCommand (roleName props)] (Some role))
    by (by rewrite send_run, Hget).
  cbn [mbind option_bind]. rewrite Hdoc, Hdesc, Hmax.
  rewrite !bool_decide_eq_false_2 by (by intros H; apply H). cbn [orb].
  rewrite (bind_run_inl _ _ _ [GetRoleCommand (roleName props)] tt) by done.
  rewrite (bind_run_inl _ _ _ [GetRoleCommand (roleName props)] tt) by done.
  rewrite (bind_run_inl _ _ _ [GetRoleCommand (roleName props); tag] answer)
    by (by rewrite send_run; fold tag; rewrite Htag).
  rewrite (bind_run_inl _ _ _ [GetRoleCommand (roleName props); tag] tt)
    by (by apply Role_policies_unchanged).
  done.
Qed.

(** X24. When the client fails with [NoSuchEntityException] only, the
    deletion of a role returns: it asks to delete each inline policy of
    the properties, in order, then the role, and returns the properties
    with empty ids. *)
Theorem absent_role_is_deleted stage resourceID output_policies props :
  (∀ sent c, match client_send sent c with
             | inl _ => True
             | inr e => error_name e = "NoSuchEntityException"
             end) →
  Role client_send AWS_ACCOUNT_ID now phase_delete stage resourceID
    output_policies props []
  = ((DeleteRolePolicyCommand (roleName props) ∘ policyName
        <$> default [] (policies props))
     ++ [DeleteRoleCommand (roleName props)],
     inl {| role_props := props; role_id := roleName props;
            role_arn := Some ("arn:aws:iam::"
                              +:+ default "undefined" AWS_ACCOUNT_ID
                              +:+ ":role/" +:+ roleName props);
            uniqueId := Some ""; roleId := Some "";
            createDate := Some now |}).
Proof.
  intros Hgone. unfold Role.
  rewrite (bind_run_inl _ _ [] _ tt)
    by (by rewrite delete_policies_run).
  cbn [app].
  set (sent := DeleteRolePolicyCommand (roleName props) ∘ policyName
                 <$> default [] (policies props)).
  rewrite (bind_run_inl _ _ sent
             (sent ++ [DeleteRoleCommand (roleName props)]) tt); [done|].
  unfold iam_ignore, iam_try, mbind, iam_bind. rewrite send_run.
  pose proof (Hgone sent (DeleteRoleCommand (roleName props))) as Hc.
  destruct (client_send sent _) as [?|e]; [done|]. by rewrite Hc.
Qed.

(** X25. When the creation fails because the role exists, the role is
    adopted only if its tags name this stage and this resource:
    otherwise the function fails right after it got the role, and sends
    nothing else. *)
Theorem foreign_role_is_not_adopted stage resourceID output_policies props e :
  let create := CreateRoleCommand (roleName props) (assumeRolePolicy props)
                  (description props) (role_path props)
                  (maxSessionDuration props) (permissionsBoundary props)
                  (default [] (tags props)
                   ++ [("alchemy_stage", stage);
                       ("alchemy_resource", resourceID)]) in
  client_send [] create = inr e →
  instanceof_EntityAlreadyExistsException e = true →
  (∃ existing role_tags,
     client_send [create] (GetRoleCommand (roleName props))
     = inl (Some existing) ∧
     iam_Tags existing = Some role_tags ∧
     tag_value "alchemy_stage" role_tags = Some stage ∧
     tag_value "alchemy_resource" role_tags = Some resourceID) ∨
  (∃ e', Role client_send AWS_ACCOUNT_ID now phase_create stage resourceID
           output_policies props []
         = ([create; GetRoleCommand (roleName props)], inr e')).
Proof.
  intros create Hc He. unfold Role. cbn [is_create].
  destruct (client_send [create] (GetRoleCommand (roleName props)))
    as [existing|e'] eqn:Hget.
  - destruct (bool_decide (tag_value "alchemy_stage"
                             (default [] (existing ≫= iam_Tags))
                           ≠ Some stage)
              || bool_decide (tag_value "alchemy_resource"
                                (default [] (existing ≫= iam_Tags))
                              ≠ Some resourceID)) eqn:Hm.
    + right. exists e. apply bind_run_inr. unfold iam_try.
      rewrite (bind_run_inr _ _ [] [create] e)
        by (by rewrite send_run; fold create; rewrite Hc).
      rewrite He. cbn [andb].
      rewrite (bind_run_inl _ _ [create]
                 [create; GetRoleCommand (roleName props)] existing)
        by (by rewrite send_run, Hget).
      by rewrite Hm.
    + left. apply orb_false_iff in Hm as [H1 H2].
      apply bool_decide_eq_false_1 in H1. apply bool_decide_eq_false_1 in H2.
      apply dec_stable in H1. apply dec_stable in H2.
      destruct existing as [existing|]; [|done].
      simpl in H1, H2.
      destruct (iam_Tags existing) as [role_tags|] eqn:Ht; [|done].
      by exists existing, role_tags.
  - right. exists e'. apply bind_run_inr. unfold iam_try.
    rewrite (bind_run_inr _ _ [] [create] e)
      by (by rewrite send_run; fold create; rewrite Hc).
    rewrite He. cbn [andb].
    by rewrite (bind_run_inr _ _ [create]
                  [create; GetRoleCommand (roleName props)] e')
      by (by rewrite send_run, Hget).
Qed.
End RoleFacts.

Lemma role_commands_are_justified_witness :
  phase_update ≠ phase_delete ∧
  ∀ rn n,
    DeleteRolePolicyCommand rn n
      ∈ (Role (app_exists "dev" "role") None 0 phase_update "dev" "role"
           (Some [reader_policy "{}"; writer_policy])
           (demo_role [reader_policy "[]"]) []).1 →
    rn = "app" ∧ n ∉ ["reader"].
Proof.
  assert (phase_update ≠ phase_delete) as H by discriminate.
  split; [exact H|]. intros rn n Hin.
  destruct (role_commands_are_justified (app_exists "dev" "role") None 0%Z
              phase_update "dev" "role"
              (Some [reader_policy "{}"; writer_policy])
              (demo_role [reader_policy "[]"]) H) as (Hdel & _).
  destruct (Hdel rn n Hin) as (-> & _ & _ & Hn). split; [reflexivity|exact Hn].
Defined.

Lemma returned_role_is_synchronised_witness :
  ∃ trace out,
    Role (app_exists "dev" "role") None 0 phase_update "dev" "role"
      (Some [reader_policy "{}"; writer_policy])
      (demo_role [reader_policy "[]"]) [] = (trace, inl out) ∧
    DeleteRolePolicyCommand "app" "writer" ∈ trace ∧
    PutRolePolicyCommand "app" "reader" "[]" ∈ trace.
Proof.
  eexists _, _. split; [vm_compute; reflexivity|].
  destruct (returned_role_is_synchronised (app_exists "dev" "role") None 0%Z
              phase_update "dev" "role"
              (Some [reader_policy "{}"; writer_policy])
              (demo_role [reader_policy "[]"]) _ _
              ltac:(discriminate) ltac:(vm_compute; reflexivity))
    as (Hdel & Hput & _).
  split.
  - apply (Hdel writer_policy).
    + apply list_elem_of_In. vm_compute. auto.
    + intros Hin. apply list_elem_of_In in Hin. vm_compute in Hin.
      destruct Hin as [Hin|[]]. discriminate.
  - apply (Hput (reader_policy "[]")).
    + apply list_elem_of_In. vm_compute. auto.
    + intros old Hold. vm_compute in Hold. injection Hold as <-.
      vm_compute. discriminate.
Defined.

Lemma unchanged_update_only_tags_witness :
  ∃ role,
    Role (app_exists "dev" "role") None 0 phase_update "dev" "role"
      (policies (demo_role [reader_policy "{}"]))
      (demo_role [reader_policy "{}"]) []
    = ([GetRoleCommand "app";
        TagRoleCommand "app" [("alchemy_stage", "dev");
                              ("alchemy_resource", "role")]],
       inl {| role_props := demo_role [reader_policy "{}"];
              role_id := "app";
              role_arn := iam_Arn role; uniqueId := iam_RoleId role;
              roleId := iam_RoleId role;
              createDate := iam_CreateDate role |}).
Proof.
  eexists.
  eapply (unchanged_update_only_tags (app_exists "dev" "role") None 0%Z
            "dev" "role" (demo_role [reader_policy "{}"])).
  - apply NoDup_singleton.
  - reflexivity.
  - reflexivity.
  - reflexivity.
  - reflexivity.
  - reflexivity.
Defined.

Lemma absent_role_is_deleted_witness :
  Role nothing_exists None 0 phase_delete "dev" "role" None
    (demo_role [reader_policy "{}"; writer_policy]) []
  = ([DeleteRolePolicyCommand "app" "reader";
      DeleteRolePolicyCommand "app" "writer"; DeleteRoleCommand "app"],
     inl {| role_props := demo_role [reader_policy "{}"; writer_policy];
            role_id := "app";
            role_arn := Some "arn:aws:iam::undefined:role/app";
            uniqueId := Some ""; roleId := Some "";
            createDate := Some 0%Z |}).
Proof.
  apply (absent_role_is_deleted nothing_exists None 0%Z "dev" "role" None
           (demo_role [reader_policy "{}"; writer_policy])).
  intros sent c. reflexivity.
Defined.

Lemma foreign_role_is_not_adopted_witness :
  ∃ e', Role (app_exists "other" "role") None 0 phase_create "dev" "role"
          None (demo_role []) []
        = ([CreateRoleCommand "app" "{}" None None None None
              [("alchemy_stage", "dev"); ("alchemy_resource", "role")];
            GetRoleCommand "app"], inr e').
Proof.
  destruct (foreign_role_is_not_adopted (app_exists "other" "role") None 0%Z
              "dev" "role" None (demo_role [])
              {| error_name := "EntityAlreadyExistsException";
                 instanceof_EntityAlreadyExistsException := true |})
    as [(existing & role_tags & Hget & Ht & Hs & _)|H].
  - reflexivity.
  - reflexivity.
  - exfalso. vm_compute in Hget. injection Hget as <-.
    vm_compute in Ht. injection Ht as <-. vm_compute in Hs. discriminate.
  - exact H.
Defined.

(** ** The router of a static site *)

Lemma truthy_None_or s : truthy s = None ∨ ∃ v, s = Some v ∧ v ≠ "" ∧ truthy s = Some v.
Proof. destruct s as [[|a v]|]; eauto. Qed.

Section RouterFacts.
Context (manifest inherited : string → option string)
  (caches_default : Cache)
  (request : Request) (env : Env).

Lemma manifest_etag_cases key :
  (manifest_etag manifest inherited key = None ∧
   (manifest key = Some "" ∨ manifest key = None ∧ inherited key = None)) ∨
  (∃ etag,
     manifest_etag manifest inherited key = Some etag ∧
     (manifest key = Some etag ∧ etag ≠ "" ∨
      manifest key = None ∧ inherited key = Some etag)).
Proof.
  unfold manifest_etag.
  destruct (manifest key) as [[|a entry]|]; [left; eauto|right; eauto|].
  destruct (inherited key) as [member|]; [right; eauto|left; eauto].
Qed.

Lemma respond_cases reads status key object :
  let r := respond manifest inherited caches_default request reads status
             key object in
  kv_reads r = reads ∧
  ((∃ e, fetch_result r = inr e) ∨
   (∃ headers,
      fetch_result r
      = inl (Built status headers (default "" (kv_value object))) ∧
      headers_for manifest inherited key object headers ∧
      cache_saved r
      = if bool_decide (request_method request = "GET")
        then Some (Built status headers (default "" (kv_value object)))
        else None)).
Proof.
  unfold respond, headers_for.
  destruct (manifest_etag_cases key) as [[Hm Hwhy]|(etag & Hm & Hwhy)];
    rewrite Hm.
  - destruct (bool_decide (request_method request = "GET")).
    + destruct (cache_put _ _); cbn; eauto 10.
    + cbn. eauto 10.
  - destruct (kv_metadata object) as [metadata|]; [|cbn; eauto].
    destruct (bool_decide (request_method request = "GET")).
    + destruct (cache_put _ _); cbn; eauto 15.
    + cbn. split; [done|]. right. eexists. split_and!; [done| |done].
      right. eauto 10.
Qed.

Lemma serve_cases reads status key otherwise :
  let r := serve manifest inherited caches_default request env reads status
             key otherwise in
  (∃ e, kv_reads r = reads ++ [key] ∧ fetch_result r = inr e) ∨
  (∃ object, ASSETS env (length reads) key = inl object ∧
             truthy (kv_value object) = None ∧
             r = otherwise (reads ++ [key])) ∨
  (∃ object body headers,
     ASSETS env (length reads) key = inl object ∧
     kv_value object = Some body ∧ body ≠ "" ∧
     kv_reads r = reads ++ [key] ∧
     fetch_result r = inl (Built status headers body) ∧
     headers_for manifest inherited key object headers ∧
     cache_saved r = if bool_decide (request_method request = "GET")
                     then Some (Built status headers body) else None).
Proof.
  unfold serve. destruct (ASSETS env (length reads) key) as [object|e];
    [|left; eauto].
  destruct (truthy_None_or (kv_value object)) as [Hv|(body & Hv & Hne & Ht)].
  - rewrite Hv. right; left. eauto.
  - rewrite Ht.
    destruct (respond_cases (reads ++ [key]) status key object)
      as (Hr & [(e & He)|(headers & Hres & Hh & Hs)]).
    + left. eauto.
    + right; right. rewrite Hv in Hres, Hs. exists object, body, headers.
      done.
Qed.

(** What is answered from [ASSETS] is not a response of the cache. *)
Lemma serve_not_from_cache reads status key otherwise cached :
  (∀ reads', fetch_result (otherwise reads') ≠ inl (FromCache cached)) →
  fetch_result (serve manifest inherited caches_default request env reads status key
                  otherwise) ≠ inl (FromCache cached).
Proof.
  intros Ho.
  destruct (serve_cases reads status key otherwise)
    as [(e & _ & He)|[(o & _ & _ & ->)|(o & b & h & _ & _ & _ & _ & Hf & _)]];
    [congruence|apply Ho|congruence].
Qed.



(** X27. [fetch] answers with the response of the cache exactly when
    the cache holds one whose [etag] is the entry of the manifest for
    the path of the request itself: a page that is reached through
    [/index.html] or [.html] only is never answered from the cache. *)
Theorem cache_is_used_only_with_the_manifest_etag (cached : CachedResponse) :
  let r := fetch manifest inherited caches_default request env in
  fetch_result r = inl (FromCache cached) ↔
  cache_match caches_default = inl (Some cached) ∧
  ∃ etag, cached_etag cached = Some etag ∧
          manifest (filePath_of request env) = Some etag.
Proof.
  intros r. subst r. unfold fetch, lookupCache.
  assert (∀ reads,
            fetch_result
              (match truthy (ERROR_PAGE env) with
               | Some error_page =>
                   serve manifest inherited caches_default request env reads 404
                     error_page
                     (λ reads, {| kv_reads := reads; cache_saved := None;
                                  fetch_result :=
                                    inl (Built 404 [] "Page Not Found") |})
               | None =>
                   serve manifest inherited caches_default request env reads 200
                     (INDEX_PAGE env)
                     (λ reads, {| kv_reads := reads; cache_saved := None;
                                  fetch_result :=
                                    inl (Built 404 [] "Page Not Found") |})
               end) ≠ inl (FromCache cached)) as Hfb.
  { intros reads.
    destruct (truthy (ERROR_PAGE env)); by apply serve_not_from_cache. }
  assert (fetch_result
            (serve manifest inherited caches_default request env [] 200
               (filePath_of request env)
               (λ reads, serve manifest inherited caches_default request env reads 200
                  (filePath_of request env
                   +:+ (if endsWith_slash (filePath_of request env) then ""
                        else "/") +:+ "index.html")
                  (λ reads, serve manifest inherited caches_default request env reads
                     200 (filePath_of request env +:+ ".html")
                     (λ reads,
                        match truthy (ERROR_PAGE env) with
                        | Some error_page =>
                            serve manifest inherited caches_default request env reads
                              404 error_page
                              (λ reads, {| kv_reads := reads;
                                           cache_saved := None;
                                           fetch_result :=
                                             inl (Built 404 []
                                                    "Page Not Found") |})
                        | None =>
                            serve manifest inherited caches_default request env reads
                              200 (INDEX_PAGE env)
                              (λ reads, {| kv_reads := reads;
                                           cache_saved := None;
                                           fetch_result :=
                                             inl (Built 404 []
                                                    "Page Not Found") |})
                        end))))
          ≠ inl (FromCache cached)) as not_from_cache.
  { repeat (apply serve_not_from_cache; intros ?). apply Hfb. }
  destruct (cache_match caches_default) as [[c|]|e] eqn:Hc.
  - destruct (cached_etag c) as [etag|] eqn:He;
      [destruct (manifest (filePath_of request env)) as [etag'|] eqn:Hm;
       [destruct (decide (etag = etag')) as [->|Hne]|]|].
    + rewrite bool_decide_eq_true_2 by done. cbn. split.
      * intros [= <-]. eauto.
      * intros ([= <-] & _). done.
    + rewrite bool_decide_eq_false_2 by done. split.
      * intros H. by destruct not_from_cache.
      * intros ([= <-] & etag2 & ? & ?). congruence.
    + split.
      * intros H. by destruct not_from_cache.
      * intros ([= <-] & etag2 & ? & ?). congruence.
    + split.
      * intros H. by destruct not_from_cache.
      * intros ([= <-] & etag2 & ? & ?). congruence.
  - split; [|by intros [? _]].
    intros H. by destruct not_from_cache.
  - split; [done|by intros [? _]].
Qed.
End RouterFacts.


(** ** Plain data *)

Lemma eval_plain heap fns σ :
  (∀ v o, eval heap fns σ v o → plain v = true →
          o = Fulfilled {| value := v; deps := [] |}) ∧
  (∀ vs evs, evals heap fns σ vs evs → forallb plain vs = true →
             value <$> evs = vs ∧ flat_map deps evs = []).
Proof.
  apply eval_evals_ind; try done.
  - intros items evs _ IH Hp. simpl in Hp.
    destruct (IH Hp) as [-> ->]. done.
  - intros items v e Hin _ IH Hp. simpl in Hp. exfalso.
    rewrite forallb_forall in Hp. apply list_elem_of_In in Hin.
    by specialize (IH (Hp _ Hin)).
  - intros entries evs _ IH Hp. simpl in Hp.
    assert (forallb plain entries.*2 = true) as Hp'.
    { clear -Hp. induction entries as [|[k v] entries IHe]; [done|].
      simpl in *. apply andb_true_iff in Hp as [-> Hp]. by apply IHe. }
    destruct (IH Hp') as [-> ->]. do 3 f_equal.
    clear. induction entries as [|[k v] entries IHe]; [done|].
    simpl. by f_equal.
  - intros entries v e Hin _ IH Hp. simpl in Hp. exfalso.
    assert (forallb plain entries.*2 = true) as Hp'.
    { clear -Hp. induction entries as [|[k w] entries IHe]; [done|].
      simpl in *. apply andb_true_iff in Hp as [-> Hp]. by apply IHe. }
    rewrite forallb_forall in Hp'. apply list_elem_of_In in Hin.
    by specialize (IH (Hp' _ Hin)).
  - intros v vs ev evs _ IHv _ IHvs Hp. simpl in Hp.
    apply andb_true_iff in Hp as [Hv Hvs].
    specialize (IHv Hv). injection IHv as ->.
    destruct (IHvs Hvs) as [Hvalues Hdeps]. cbn. by rewrite Hvalues, Hdeps.
Qed.

(** X28. [evaluate] is the identity on plain data: a settled activation
    called on a value with no resource and no [Output] inside, however
    nested, is fulfilled with that very value and no dependency. *)
Theorem plain_data_is_unchanged heap fns σ t v o :
  reachable heap fns σ →
  tasks σ !! t = Some (Task v (Settled o)) →
  plain v = true →
  o = Fulfilled {| value := v; deps := [] |}.
Proof.
  intros Hr Ht Hp.
  apply (proj1 (eval_plain heap fns σ) v o); [|done].
  eapply settled_eval; [|done]. by eapply reachable_Inv.
Qed.

Lemma plain_data_is_unchanged_witness :
  reachable demo_heap demo_fns (demo_run plain_object) ∧
  ∀ o, tasks (demo_run plain_object) !! 1
       = Some (Task (Arr [Prim (PStr "a"); Prim (PNum 1)]) (Settled o)) →
       o = Fulfilled {| value := Arr [Prim (PStr "a"); Prim (PNum 1)];
                        deps := [] |}.
Proof.
  assert (reachable demo_heap demo_fns (demo_run plain_object)) as H
    by (exists plain_object; vm_compute; reflexivity).
  split; [exact H|]. intros o Ho.
  exact (plain_data_is_unchanged demo_heap demo_fns (demo_run plain_object) 1
           (Arr [Prim (PStr "a"); Prim (PNum 1)]) o H Ho eq_refl).
Defined.

(** The read of the manifest under [constructor] finds the inherited
    member, and the three headers are set. *)
Example constructor_is_inherited :
  fetch_result (fetch site_manifest Object_prototype warm_cache
                  get_constructor constructor_env)
  = inl (Built 200
           [("etag", "function Object() { [native code] }");
            ("content-type", "text/html");
            ("cache-control", "undefined")] "<p>c</p>").
Proof. vm_compute. reflexivity. Qed.
